(** * Markov jazz chord engine (src/engine.js): shallow embedding

    The engine of [src/engine.js] (the second, current version of the file:
    the one with second-order overrides, approach sequences and
    context-aware qualities) is embedded as a state-and-exception monad
    over a [World]:

    - the mutable fields of the [MarkovJazzEngine] instance ([Engine]);
    - a store of the probability objects ([Heap]): every distribution is a
      JavaScript object, held and passed by reference, so the static
      transition tables are store cells that the shaping passes could
      overwrite;
    - the source of [Math.random()] draws, each one a rational of [0,1).

    JavaScript numbers are modelled by exact rationals ([Qc]): rounding of
    binary64 arithmetic is not part of the model.  Objects used as maps
    are association lists in insertion order (the order [Object.entries]
    iterates over for keys that are not array indices, which is the case
    of every degree token); inherited [Object.prototype] properties are
    not modelled, degree tokens never name one.  Strings are byte strings
    (UTF-8), the case mappings act on ASCII letters.

    Of [src/app.js], the two loops that fill the lead sheet with bars of
    the engine ([generateRow], [initRows]) are embedded as well; the
    display and the audio ([src/bass.js]) are not. *)

From stdpp Require Import base list strings numbers.
From Stdlib Require Import Ascii String QArith Qcanon Qround Lia Lqa.

Open Scope string_scope.
Open Scope list_scope.
Open Scope Qc_scope.

(* ------------------------------------------------------------------ *)
(** ** JavaScript values and operators *)

(** A decimal literal with two decimals: [pct 22] is [0.22]. *)
Definition pct (n : Z) : Qc := Q2Qc (n # 100).

(** [Q2Qc (inject_Z n)]: an integer as a number. *)
Definition num (n : Z) : Qc := Q2Qc (inject_Z n).

Definition ltb (a b : Qc) : bool := bool_decide (a < b).
Definition leb (a b : Qc) : bool := bool_decide (a ≤ b).

(** [Math.floor]. *)
Definition Math_floor (x : Qc) : Z := Qfloor (this x).

(** Truthiness of a number: every number but [0] (and [NaN], which the
    rationals do not have). *)
Definition truthy (x : Qc) : bool := negb (bool_decide (x = 0)).

(** Truthiness of a string-or-null: [null], [undefined] and the empty
    string are falsy. *)
Definition truthy_str (s : option string) : bool :=
  match s with
  | Some (String _ _) => true
  | _ => false
  end.

(** [o[k]] on an object used as a map: the own property, if any. *)
Fixpoint prop {V} (o : list (string * V)) (k : string) : option V :=
  match o with
  | [] => None
  | (k', v) :: o' => if String.eqb k' k then Some v else prop o' k
  end.

(** [o[k] = v]: an existing property keeps its place, a new one is added
    last. *)
Fixpoint assign {V} (o : list (string * V)) (k : string) (v : V)
  : list (string * V) :=
  match o with
  | [] => [(k, v)]
  | (k', v') :: o' =>
      if String.eqb k' k then (k', v) :: o' else (k', v') :: assign o' k v
  end.

(** [a[i]] on an array, [i] a number holding an integer. *)
Definition at_index {A} (a : list A) (i : Z) : option A :=
  if (i <? 0)%Z then None else a !! Z.to_nat i.

(** [a.indexOf(x)] for [x] a string or [undefined]. *)
Fixpoint indexOf_from (a : list string) (x : string) (i : Z) : Z :=
  match a with
  | [] => (-1)%Z
  | y :: a' => if String.eqb y x then i else indexOf_from a' x (i + 1)%Z
  end.

Definition indexOf (a : list string) (x : option string) : Z :=
  match x with
  | Some s => indexOf_from a s 0
  | None => (-1)%Z
  end.

(** [a.includes(x)]. *)
Definition includes (a : list string) (x : string) : bool :=
  existsb (String.eqb x) a.

Definition upper_ascii (c : ascii) : ascii :=
  let n := nat_of_ascii c in
  if (97 <=? n)%nat && (n <=? 122)%nat then ascii_of_nat (n - 32) else c.

Definition lower_ascii (c : ascii) : ascii :=
  let n := nat_of_ascii c in
  if (65 <=? n)%nat && (n <=? 90)%nat then ascii_of_nat (n + 32) else c.

Fixpoint map_string (f : ascii -> ascii) (s : string) : string :=
  match s with
  | EmptyString => EmptyString
  | String c s' => String (f c) (map_string f s')
  end.

Definition toUpperCase : string -> string := map_string upper_ascii.
Definition toLowerCase : string -> string := map_string lower_ascii.

(** [s.replace(/[iv]/g, c => c.toUpperCase())]. *)
Definition upper_iv (c : ascii) : ascii :=
  if Ascii.eqb c "i" then "I"%char
  else if Ascii.eqb c "v" then "V"%char else c.

(** [s.startsWith(p)]. *)
Fixpoint startsWith (s p : string) : bool :=
  match p, s with
  | EmptyString, _ => true
  | String _ _, EmptyString => false
  | String a p', String b s' => Ascii.eqb a b && startsWith s' p'
  end.

(** [s.slice(n)]. *)
Fixpoint slice (n : nat) (s : string) : string :=
  match n, s with
  | O, _ => s
  | S n', String _ s' => slice n' s'
  | S _, EmptyString => EmptyString
  end.

(** [s.replace(pat, rep)] for string patterns: the first occurrence of
    [pat] is replaced, nothing happens when there is none.  (No
    replacement string of the engine holds a [$] pattern.) *)
Fixpoint replace (pat rep s : string) : string :=
  if startsWith s pat then rep +:+ slice (String.length pat) s
  else match s with
       | EmptyString => EmptyString
       | String c s' => String c (replace pat rep s')
       end.

(** Whether [pat] occurs in [s], that is whether [s.replace(pat, _)]
    finds something to replace. *)
Fixpoint occurs (pat s : string) : bool :=
  startsWith s pat ||
  match s with
  | EmptyString => false
  | String _ s' => occurs pat s'
  end.

(* ------------------------------------------------------------------ *)
(** ** Constant tables *)

Definition NOTES : list string :=
  ["C"; "Db"; "D"; "Eb"; "E"; "F"; "Gb"; "G"; "Ab"; "A"; "Bb"; "B"].

Definition ENHARMONIC : list (string * string) :=
  [("C#", "Db"); ("D#", "Eb"); ("E#", "F"); ("F#", "Gb"); ("G#", "Ab");
   ("A#", "Bb"); ("B#", "C"); ("Cb", "B"); ("Fb", "E")].

Definition MAJOR_DEGREES : list (string * Z) :=
  [("I", 0); ("bII", 1); ("II", 2); ("bIII", 3); ("III", 4); ("IV", 5);
   ("bV", 6); ("V", 7); ("bVI", 8); ("VI", 9); ("bVII", 10); ("VII", 11)]%Z.

(** A probability object: degree (or any key) to weight, in insertion
    order. *)
Abbreviation Dist := (list (string * Qc)).

(** The object literal of [DEGREE_TRANSITIONS]; each inner literal is an
    object of its own, see [static_heap]. *)
Definition DEGREE_TRANSITIONS_literal : list (string * Dist) :=
  [("I", [("ii", pct 22); ("IV", pct 18); ("V", pct 12); ("vi", pct 15);
          ("iii", pct 10); ("bVII", pct 5); ("bIII", pct 4); ("bVI", pct 4);
          ("II", pct 5); ("I", pct 5)]);
   ("ii", [("V", pct 50); ("bII", pct 10); ("bVII", pct 8); ("vi", pct 8);
           ("iii", pct 6); ("IV", pct 6); ("I", pct 7); ("ii", pct 5)]);
   ("iii", [("vi", pct 35); ("IV", pct 20); ("ii", pct 15); ("bIII", pct 8);
            ("V", pct 10); ("I", pct 7); ("iii", pct 5)]);
   ("IV", [("V", pct 25); ("I", pct 15); ("ii", pct 15); ("iv", pct 10);
           ("bVII", pct 10); ("iii", pct 8); ("vi", pct 8); ("IV", pct 4);
           ("bII", pct 5)]);
   ("V", [("I", pct 50); ("vi", pct 15); ("IV", pct 8); ("bVI", pct 8);
          ("iii", pct 6); ("V", pct 5); ("bVII", pct 4); ("ii", pct 4)]);
   ("vi", [("ii", pct 30); ("IV", pct 20); ("V", pct 15); ("iii", pct 10);
           ("bVI", pct 8); ("I", pct 8); ("vi", pct 4); ("bVII", pct 5)]);
   ("vii", [("I", pct 30); ("iii", pct 25); ("V", pct 15); ("vi", pct 10);
            ("ii", pct 10); ("IV", pct 10)]);
   ("bII", [("I", pct 60); ("V", pct 15); ("bVII", pct 10); ("ii", pct 10);
            ("vi", pct 5)]);
   ("bIII", [("IV", pct 30); ("bVII", pct 25); ("ii", pct 15); ("vi", pct 10);
             ("I", pct 10); ("V", pct 10)]);
   ("bVI", [("bVII", pct 30); ("V", pct 25); ("ii", pct 15); ("IV", pct 15);
            ("I", pct 10); ("bII", pct 5)]);
   ("bVII", [("I", pct 35); ("IV", pct 20); ("bVI", pct 15); ("V", pct 10);
             ("ii", pct 10); ("bIII", pct 10)]);
   ("iv", [("I", pct 25); ("V", pct 25); ("bVII", pct 15); ("ii", pct 15);
           ("bVI", pct 10); ("IV", pct 10)]);
   ("II", [("V", pct 70); ("ii", pct 10); ("bII", pct 10); ("I", pct 10)]);
   ("III", [("vi", pct 70); ("IV", pct 10); ("ii", pct 10); ("I", pct 10)]);
   ("VI", [("ii", pct 70); ("V", pct 10); ("IV", pct 10); ("I", pct 10)]);
   ("#IV", [("V", pct 60); ("I", pct 20); ("ii", pct 20)])].

Definition MINOR_DEGREE_TRANSITIONS_literal : list (string * Dist) :=
  [("I", [("iv", pct 22); ("V", pct 15); ("bVII", pct 12); ("bVI", pct 12);
          ("ii", pct 15); ("bIII", pct 8); ("v", pct 4); ("II", pct 5);
          ("I", pct 7)]);
   ("ii", [("V", pct 55); ("bII", pct 8); ("bVII", pct 8); ("iv", pct 8);
           ("I", pct 8); ("bVI", pct 7); ("ii", pct 6)]);
   ("bIII", [("bVI", pct 25); ("bVII", pct 25); ("iv", pct 15); ("V", pct 10);
             ("ii", pct 10); ("I", pct 10); ("bIII", pct 5)]);
   ("iv", [("V", pct 30); ("bVII", pct 15); ("I", pct 20); ("bVI", pct 10);
           ("ii", pct 10); ("bIII", pct 8); ("iv", pct 4); ("bII", pct 3)]);
   ("v", [("bVI", pct 25); ("bVII", pct 25); ("I", pct 20); ("iv", pct 15);
          ("bIII", pct 10); ("v", pct 5)]);
   ("V", [("I", pct 50); ("bVI", pct 15); ("iv", pct 10); ("bVII", pct 6);
          ("bIII", pct 6); ("V", pct 5); ("ii", pct 4); ("bII", pct 4)]);
   ("vi", [("ii", pct 30); ("IV", pct 20); ("V", pct 15); ("I", pct 15);
           ("iv", pct 10); ("bVII", pct 10)]);
   ("bVI", [("bVII", pct 30); ("V", pct 20); ("iv", pct 15); ("ii", pct 12);
            ("I", pct 10); ("bII", pct 5); ("bIII", pct 8)]);
   ("bVII", [("I", pct 30); ("bIII", pct 20); ("bVI", pct 15); ("V", pct 10);
             ("iv", pct 10); ("ii", pct 10); ("bVII", pct 5)]);
   ("bII", [("I", pct 55); ("V", pct 15); ("bVII", pct 10); ("iv", pct 10);
            ("ii", pct 10)]);
   ("II", [("V", pct 70); ("ii", pct 10); ("bII", pct 10); ("I", pct 10)]);
   ("III", [("bVI", pct 40); ("iv", pct 20); ("bVII", pct 15); ("I", pct 10);
            ("V", pct 10); ("ii", pct 5)]);
   ("VI", [("ii", pct 70); ("V", pct 10); ("iv", pct 10); ("I", pct 10)]);
   ("IV", [("V", pct 25); ("I", pct 20); ("ii", pct 15); ("bVII", pct 15);
           ("iv", pct 10); ("bVI", pct 10); ("IV", pct 5)])].

(** The separator of a second-order key, [→] (U+2192). *)
Definition arrow : string := "→".

Definition SECOND_ORDER_OVERRIDES_literal : list (string * Dist) :=
  [("ii→V", [("I", pct 75); ("vi", pct 10); ("bVI", pct 5); ("IV", pct 4);
             ("iii", pct 3); ("bVII", pct 3)]);
   ("iii→vi", [("ii", pct 45); ("IV", pct 20); ("V", pct 10); ("I", pct 8);
               ("bVI", pct 7); ("iii", pct 5); ("bVII", pct 5)]);
   ("vi→ii", [("V", pct 55); ("bII", pct 10); ("bVII", pct 7); ("IV", pct 8);
              ("I", pct 8); ("iii", pct 6); ("II", pct 6)]);
   ("II→V", [("I", pct 70); ("vi", pct 12); ("bVI", pct 6); ("IV", pct 5);
             ("iii", pct 4); ("bVII", pct 3)]);
   ("VI→ii", [("V", pct 55); ("bII", pct 10); ("bVII", pct 7); ("IV", pct 8);
              ("I", pct 8); ("iii", pct 6); ("ii", pct 6)]);
   ("III→vi", [("ii", pct 40); ("IV", pct 20); ("V", pct 15); ("I", pct 8);
               ("bVI", pct 7); ("iii", pct 5); ("bVII", pct 5)]);
   ("IV→V", [("I", pct 55); ("vi", pct 15); ("bVI", pct 10); ("ii", pct 8);
             ("iii", pct 6); ("bVII", pct 3); ("V", pct 3)]);
   ("bVI→bVII", [("I", pct 50); ("iv", pct 15); ("ii", pct 15); ("V", pct 10);
                 ("bVI", pct 5); ("bIII", pct 5)]);
   ("iv→V", [("I", pct 70); ("bVI", pct 10); ("iv", pct 6); ("bVII", pct 6);
             ("ii", pct 4); ("bIII", pct 4)])].

Definition APPROACH_SEQUENCES : list (string * (list string * Qc)) :=
  [("I", (["ii"; "V"; "I"], pct 30));
   ("ii", (["iii"; "VI"; "ii"], pct 20));
   ("V", (["vi"; "II"; "V"], pct 30));
   ("vi", (["vii"; "III"; "vi"], pct 20))].

Definition APPROACH_PROBABILITY : Qc := pct 12.

Definition KEY_MODULATIONS : Dist :=
  [("fifth_up", pct 25); ("fifth_down", pct 25); ("relative", pct 20);
   ("parallel", pct 15); ("tritone", pct 8); ("step_up", pct 4);
   ("step_down", pct 3)].

Module QUALITY_OPTIONS.
Definition tonic := ["maj7"; "maj9"; "6"; "69"; "maj7#11"].
Definition subdominant := ["maj7"; "maj9"; "7"; "m7"; "6"].
Definition dominant :=
  ["7"; "9"; "13"; "7#11"; "7alt"; "7b9"; "7#9"; "sus4"].
Definition dominantToMinor := ["7"; "7b9"; "7#9"; "7alt"].
Definition dominantToMajor := ["7"; "9"; "13"; "7#11"; "sus4"].
Definition minor := ["m7"; "m9"; "m11"; "m6"; "m69"].
Definition halfDim := ["m7b5"; "ø7"].
Definition diminished := ["dim7"; "°7"].
End QUALITY_OPTIONS.

(* ------------------------------------------------------------------ *)
(** ** Engine state, store and the monad *)

(** [{ root, mode }]; a field is [None] when it is [undefined]. *)
Record Key := mkKey { root : option string; mode : option string }.

Record Settings := mkSettings {
  keyStability : Qc;
  adventurousness : Qc;
  complexity : Qc;
  twoChordProbability : Qc
}.

(** A settings object as a caller passes it: [None] is a property that is
    missing (or [undefined]). *)
Record SettingsArg := mkSettingsArg {
  arg_keyStability : option Qc;
  arg_adventurousness : option Qc;
  arg_complexity : option Qc;
  arg_twoChordProbability : option Qc
}.

Record Chord := mkChord {
  chordRoot : option string;
  quality : option string;
  degree : string;
  fullName : option string * string
}.

Record Bar := mkBar {
  barNumber : nat;
  chords : list Chord;
  key : Key;
  keyChanged : bool
}.

(** The fields of a [MarkovJazzEngine] instance. *)
Record Engine := mkEngine {
  settings : Settings;
  currentKey : Key;
  currentDegree : string;
  previousDegree : option string;
  barCount : nat;
  history : list Bar;
  recentDegrees : list string;
  approachQueue : list string
}.

Definition set_settings (x : Settings) (e : Engine) : Engine :=
  mkEngine x (currentKey e) (currentDegree e) (previousDegree e)
    (barCount e) (history e) (recentDegrees e) (approachQueue e).
Definition set_currentKey (x : Key) (e : Engine) : Engine :=
  mkEngine (settings e) x (currentDegree e) (previousDegree e)
    (barCount e) (history e) (recentDegrees e) (approachQueue e).
Definition set_currentDegree (x : string) (e : Engine) : Engine :=
  mkEngine (settings e) (currentKey e) x (previousDegree e)
    (barCount e) (history e) (recentDegrees e) (approachQueue e).
Definition set_previousDegree (x : option string) (e : Engine) : Engine :=
  mkEngine (settings e) (currentKey e) (currentDegree e) x
    (barCount e) (history e) (recentDegrees e) (approachQueue e).
Definition set_barCount (x : nat) (e : Engine) : Engine :=
  mkEngine (settings e) (currentKey e) (currentDegree e) (previousDegree e)
    x (history e) (recentDegrees e) (approachQueue e).
Definition set_history (x : list Bar) (e : Engine) : Engine :=
  mkEngine (settings e) (currentKey e) (currentDegree e) (previousDegree e)
    (barCount e) x (recentDegrees e) (approachQueue e).
Definition set_recentDegrees (x : list string) (e : Engine) : Engine :=
  mkEngine (settings e) (currentKey e) (currentDegree e) (previousDegree e)
    (barCount e) (history e) x (approachQueue e).
Definition set_approachQueue (x : list string) (e : Engine) : Engine :=
  mkEngine (settings e) (currentKey e) (currentDegree e) (previousDegree e)
    (barCount e) (history e) (recentDegrees e) x.

(** One result of [Math.random()]: a number of [0,1). *)
Record Rand := mkRand {
  rv : Qc;
  rv_range : bool_decide (0 ≤ rv ∧ rv < 1) = true
}.

(** The store of probability objects; a reference is an index. *)
Abbreviation Heap := (list Dist).

Record World := mkWorld {
  engine : Engine;
  heap : Heap;
  entropy : nat -> Rand;   (* the results of Math.random(), in call order *)
  drawn : nat              (* how many have been consumed *)
}.

Inductive Result (A : Type) : Type :=
| Ok (a : A) (w : World)
| Throw (e : string).
Arguments Ok {A} a w.
Arguments Throw {A} e.

Definition M (A : Type) : Type := World -> Result A.

Definition ret {A} (a : A) : M A := fun w => Ok a w.
Definition bind {A B} (m : M A) (k : A -> M B) : M B :=
  fun w => match m w with
           | Ok a w' => k a w'
           | Throw e => Throw e
           end.
Definition throw {A} (e : string) : M A := fun _ => Throw e.

Notation "x <- m ;; k" := (bind m (fun x => k))
  (at level 100, m at next level, right associativity).
Notation "m ;; k" := (bind m (fun _ => k))
  (at level 100, right associativity).

Definition get_engine : M Engine := fun w => Ok (engine w) w.
Definition modify (f : Engine -> Engine) : M unit :=
  fun w => Ok tt (mkWorld (f (engine w)) (heap w) (entropy w) (drawn w)).

Definition Math_random : M Qc :=
  fun w => Ok (rv (entropy w (drawn w)))
              (mkWorld (engine w) (heap w) (entropy w) (S (drawn w))).

(** [Object.entries(o)] and property reads of the object at [l]. *)
Definition readObj (l : nat) : M Dist :=
  fun w => match heap w !! l with
           | Some d => Ok d w
           | None => Throw "dangling reference"
           end.

(** A new object with the properties [d]: [{}] and [{ ...o }]. *)
Definition newObj (d : Dist) : M nat :=
  fun w => Ok (List.length (heap w))
              (mkWorld (engine w) (heap w ++ [d]) (entropy w) (drawn w)).

(** [o[k] = v] on the object at [l]. *)
Definition setProp (l : nat) (k : string) (v : Qc) : M unit :=
  fun w => match heap w !! l with
           | Some d => Ok tt (mkWorld (engine w) (<[l := assign d k v]> (heap w))
                                      (entropy w) (drawn w))
           | None => Throw "dangling reference"
           end.

Fixpoint forEach {A} (l : list A) (body : A -> M unit) : M unit :=
  match l with
  | [] => ret tt
  | x :: l' => body x ;; forEach l' body
  end.

(** The inner object literals of the three transition tables are created
    once, when the script is loaded: they are the first cells of the
    store, and the tables map their keys to these cells. *)
Definition static_heap : Heap :=
  (DEGREE_TRANSITIONS_literal.*2 ++ MINOR_DEGREE_TRANSITIONS_literal.*2)
  ++ SECOND_ORDER_OVERRIDES_literal.*2.

Definition refs_from (base : nat) (t : list (string * Dist))
  : list (string * nat) :=
  imap (fun i kv => (kv.1, base + i)%nat) t.

Definition DEGREE_TRANSITIONS : list (string * nat) :=
  refs_from 0 DEGREE_TRANSITIONS_literal.
Definition MINOR_DEGREE_TRANSITIONS : list (string * nat) :=
  refs_from (List.length DEGREE_TRANSITIONS_literal)
            MINOR_DEGREE_TRANSITIONS_literal.
Definition SECOND_ORDER_OVERRIDES : list (string * nat) :=
  refs_from (List.length DEGREE_TRANSITIONS_literal
             + List.length MINOR_DEGREE_TRANSITIONS_literal)
            SECOND_ORDER_OVERRIDES_literal.

(* ------------------------------------------------------------------ *)
(** ** Utilities *)

(** [ENHARMONIC[note] || note]. *)
Definition normalizeNote (note : option string) : option string :=
  match note with
  | Some n => match prop ENHARMONIC n with
              | Some flat => Some flat
              | None => note
              end
  | None => None
  end.

(** The [for] loop of [weightedRandom]: the first key at which the
    running remainder is [<= 0]. *)
Fixpoint weightedRandom_loop (entries : Dist) (random : Qc) : option string :=
  match entries with
  | [] => None
  | (k, weight) :: rest =>
      let random := random - weight in
      if leb random 0 then Some k else weightedRandom_loop rest random
  end.

Definition total (entries : Dist) : Qc :=
  fold_left (fun sum kw => sum + kw.2) entries 0.

(** [weightedRandom(weights)] only reads its argument: it is given the
    entries of the object.  [entries[0][0]] throws on an empty object. *)
Definition weightedRandom (entries : Dist) : M string :=
  r <- Math_random ;;
  match weightedRandom_loop entries (r * total entries) with
  | Some k => ret k
  | None => match entries with
            | (k, _) :: _ => ret k
            | [] => throw "TypeError"
            end
  end.

(* ------------------------------------------------------------------ *)
(** ** Construction and settings *)

Definition randomKey : M Key :=
  let roots := ["C"; "F"; "Bb"; "Eb"; "Ab"; "G"; "D"; "A"] in
  let modes := ["major"; "major"; "major"; "minor"] in
  r1 <- Math_random ;;
  r2 <- Math_random ;;
  ret (mkKey (at_index roots (Math_floor (r1 * num (Z.of_nat (List.length roots)))))
             (at_index modes (Math_floor (r2 * num (Z.of_nat (List.length modes)))))).

(** [reset(startingKey = null)]. *)
Definition reset (startingKey : option Key) : M unit :=
  k <- match startingKey with
       | Some k => ret k
       | None => randomKey
       end ;;
  modify (fun e => mkEngine (settings e) k "I" None 0%nat [] [] []).

(** [new MarkovJazzEngine(settings)]; [None] is a call without
    argument, for which the parameter defaults to [{}]. *)
Definition constructor (arg : option SettingsArg) : M unit :=
  let s := default (mkSettingsArg None None None None) arg in
  modify (set_settings
            (mkSettings (default (pct 85) (arg_keyStability s))
                        (default (pct 30) (arg_adventurousness s))
                        (default (pct 50) (arg_complexity s))
                        (default (pct 15) (arg_twoChordProbability s)))) ;;
  reset None.

(** [Object.assign(this.settings, settings)]: here [None] is a property
    that [settings] does not have. *)
Definition updateSettings (s : SettingsArg) : M unit :=
  modify (fun e =>
    let old := settings e in
    set_settings
      (mkSettings (default (keyStability old) (arg_keyStability s))
                  (default (adventurousness old) (arg_adventurousness s))
                  (default (complexity old) (arg_complexity s))
                  (default (twoChordProbability old) (arg_twoChordProbability s)))
      e).

Definition getState : M (Key * string * nat) :=
  e <- get_engine ;;
  ret (currentKey e, currentDegree e, barCount e).

(* ------------------------------------------------------------------ *)
(** ** Key modulation *)

Definition is_mode (m : string) (k : Key) : bool :=
  bool_decide (mode k = Some m).

(** The [switch (type)] of [modulate]: the new key, or [None] in the
    [default] case, which returns without a change. *)
Definition modulate_switch (type : string) (k : Key) : option Key :=
  let currentRoot := indexOf NOTES (normalizeNote (root k)) in
  let note (semitones : Z) := at_index NOTES (Z.rem (currentRoot + semitones) 12) in
  if String.eqb type "fifth_up" then Some (mkKey (note 7%Z) (mode k))
  else if String.eqb type "fifth_down" then Some (mkKey (note 5%Z) (mode k))
  else if String.eqb type "relative" then
    if is_mode "major" k then Some (mkKey (note 9%Z) (Some "minor"))
    else Some (mkKey (note 3%Z) (Some "major"))
  else if String.eqb type "parallel" then
    Some (mkKey (root k) (if is_mode "major" k then Some "minor" else Some "major"))
  else if String.eqb type "tritone" then Some (mkKey (note 6%Z) (mode k))
  else if String.eqb type "step_up" then Some (mkKey (note 2%Z) (mode k))
  else if String.eqb type "step_down" then Some (mkKey (note 10%Z) (mode k))
  else None.

Definition modulate : M unit :=
  type <- weightedRandom KEY_MODULATIONS ;;
  e <- get_engine ;;
  match modulate_switch type (currentKey e) with
  | None => ret tt
  | Some newKey =>
      modify (set_currentKey newKey) ;;
      r <- Math_random ;;
      if ltb r (pct 60) then modify (set_currentDegree "I") else ret tt
  end.

Definition maybeModulate : M unit :=
  e <- get_engine ;;
  let modulationChance := 1 - keyStability (settings e) in
  let postCadence :=
    String.eqb (currentDegree e) "I" || String.eqb (currentDegree e) "i" in
  let effectiveChance :=
    if postCadence then modulationChance * num 2 else modulationChance in
  r <- Math_random ;;
  if ltb r effectiveChance then modulate else ret tt.

(* ------------------------------------------------------------------ *)
(** ** Probability shaping *)

Definition adjustForAdventurousness (transitions : nat) : M nat :=
  e <- get_engine ;;
  let adventure := adventurousness (settings e) in
  adjusted <- newObj [] ;;
  entries <- readObj transitions ;;
  let uniform := 1 / num (Z.of_nat (List.length entries)) in
  forEach entries (fun dp =>
    setProp adjusted dp.1 (dp.2 * (1 - adventure) + uniform * adventure)) ;;
  ret adjusted.

(** [counts[d] = (counts[d] || 0) + 1] for every [d] of the window. *)
Definition count_recent (recent : list string) : list (string * nat) :=
  fold_left (fun counts d => assign counts d (default 0%nat (prop counts d) + 1)%nat)
            recent [].

Definition applyAntiRepetition (transitions : nat) : M nat :=
  e <- get_engine ;;
  if (List.length (recentDegrees e) <? 3)%nat then ret transitions
  else
    copy <- readObj transitions ;;
    adjusted <- newObj copy ;;
    forEach (count_recent (recentDegrees e)) (fun dc =>
      now <- readObj adjusted ;;
      match prop now dc.1 with
      | Some weight =>
          if (3 <=? dc.2)%nat && truthy weight
          then setProp adjusted dc.1 (weight * pct 30)
          else if (2 <=? dc.2)%nat && truthy weight
          then setProp adjusted dc.1 (weight * pct 70)
          else ret tt
      | None => ret tt
      end) ;;
    ret adjusted.

(* ------------------------------------------------------------------ *)
(** ** Degree transitions *)

(** [SECOND_ORDER_OVERRIDES[`${previousDegree}→${currentDegree}`]], looked
    up only when [previousDegree] is truthy. *)
Definition secondOrder (e : Engine) : option nat :=
  match previousDegree e with
  | Some prev =>
      if truthy_str (Some prev)
      then prop SECOND_ORDER_OVERRIDES (prev +:+ arrow +:+ currentDegree e)
      else None
  | None => None
  end.

(** [table[currentDegree] || DEGREE_TRANSITIONS[currentDegree]
     || DEGREE_TRANSITIONS['I']]; [None] is [undefined]. *)
Definition firstOrder (e : Engine) : option nat :=
  let isMinor := is_mode "minor" (currentKey e) in
  let table := if isMinor then MINOR_DEGREE_TRANSITIONS else DEGREE_TRANSITIONS in
  match prop table (currentDegree e) with
  | Some t => Some t
  | None => match prop DEGREE_TRANSITIONS (currentDegree e) with
            | Some t => Some t
            | None => prop DEGREE_TRANSITIONS "I"
            end
  end.

(** [{ ...o }]; spreading [undefined] gives [{}]. *)
Definition spread (o : option nat) : M nat :=
  match o with
  | Some l => d <- readObj l ;; newObj d
  | None => newObj []
  end.

Definition tryStartApproach : M bool :=
  e <- get_engine ;;
  let weights :=
    fold_left (fun weights tw =>
                 if negb (String.eqb tw.1 (currentDegree e))
                 then assign weights tw.1 tw.2.2 else weights)
              APPROACH_SEQUENCES ([] : Dist) in
  if (List.length weights =? 0)%nat then ret false
  else
    target <- weightedRandom weights ;;
    match prop APPROACH_SEQUENCES target with
    | Some seq => modify (set_approachQueue seq.1) ;; ret true
    | None => throw "TypeError"
    end.

(** [this.approachQueue.shift()].  No approach sequence is empty, and the
    model has no [undefined] degree: it stops where JavaScript would
    return [undefined]. *)
Definition shiftQueue : M string :=
  e <- get_engine ;;
  match approachQueue e with
  | d :: q => modify (set_approachQueue q) ;; ret d
  | [] => throw "undefined degree"
  end.

Definition getNextDegree : M string :=
  e <- get_engine ;;
  if (0 <? List.length (approachQueue e))%nat then shiftQueue
  else
    r <- Math_random ;;
    started <- (if ltb r APPROACH_PROBABILITY then tryStartApproach
                else ret false) ;;
    if started then shiftQueue
    else
      e <- get_engine ;;
      transitions <- match secondOrder e with
                     | Some o => spread (Some o)
                     | None => spread (firstOrder e)
                     end ;;
      transitions <- adjustForAdventurousness transitions ;;
      transitions <- applyAntiRepetition transitions ;;
      entries <- readObj transitions ;;
      weightedRandom entries.

Definition getMostProbable (transitions : option nat) : M string :=
  match transitions with
  | None => throw "TypeError"
  | Some l =>
      entries <- readObj l ;;
      ret (fold_left (fun best dp => if ltb best.1 dp.2 then (dp.2, dp.1) else best)
                     entries (0, "I")).2
  end.

Definition peekLikelyNextDegree : M string :=
  e <- get_engine ;;
  match secondOrder e with
  | Some o => getMostProbable (Some o)
  | None => getMostProbable (firstOrder e)
  end.

(* ------------------------------------------------------------------ *)
(** ** Chord realization *)

Definition getDegreeInterval (degree : string) : Z :=
  let normalized := map_string upper_iv degree in
  if startsWith normalized "#" then
    let base := default 0%Z (prop MAJOR_DEGREES (slice 1 normalized)) in
    Z.rem (base + 1) 12
  else
    match prop MAJOR_DEGREES normalized with
    | Some i => i
    | None => default 0%Z (prop MAJOR_DEGREES (toUpperCase degree))
    end.

(** The [if ... else if] chain of [getChordQuality]: the option list of
    the degree's function and [isDominantFunction]. *)
Definition functionOptions (isMinorKey : bool) (degree : string)
  : list string * bool :=
  let upperDegree := toUpperCase degree in
  if includes ["II"; "III"; "VI"; "#IV"] degree then
    (QUALITY_OPTIONS.dominant, true)
  else if String.eqb degree "bII" then (["7"; "7#11"; "9"; "13"], false)
  else if includes ["bIII"; "bVI"; "bVII"] degree then
    (["maj7"; "7"; "maj9"], false)
  else if String.eqb degree "iv" then (QUALITY_OPTIONS.minor, false)
  else if String.eqb degree "vii" || (String.eqb degree "ii" && isMinorKey) then
    (QUALITY_OPTIONS.halfDim, false)
  else if String.eqb upperDegree "V" then (QUALITY_OPTIONS.dominant, true)
  else if includes ["ii"; "iii"; "vi"; "v"] degree
          || (isMinorKey && includes ["i"; "iv"] (toLowerCase degree)) then
    (QUALITY_OPTIONS.minor, false)
  else if String.eqb upperDegree "I" then
    (if isMinorKey then QUALITY_OPTIONS.minor else QUALITY_OPTIONS.tonic, false)
  else if String.eqb upperDegree "IV" then (QUALITY_OPTIONS.subdominant, false)
  else (["7"; "maj7"; "m7"], false).

(** The option list after the context override. *)
Definition qualityOptions (isMinorKey : bool) (degree : string)
    (nextDegreeHint : option string) : list string :=
  let '(options, isDominantFunction) := functionOptions isMinorKey degree in
  match nextDegreeHint with
  | Some hint =>
      if isDominantFunction && truthy_str nextDegreeHint then
        let minorTargets := ["ii"; "iii"; "vi"; "i"; "iv"; "v"] in
        let resolvesToMinor :=
          includes minorTargets hint || (isMinorKey && String.eqb hint "I") in
        if resolvesToMinor then QUALITY_OPTIONS.dominantToMinor
        else QUALITY_OPTIONS.dominantToMajor
      else options
  | None => options
  end.

(** [getChordQuality(degree, nextDegreeHint = null)]; the result is
    [None] when [options[...]] is [undefined].  The rationals follow the
    code for the complexities of the settings' range, from 0 to 1; they
    have no [Infinity] and no [NaN], which the code computes for a
    complexity beyond the binary64 range. *)
Definition getChordQuality (degree : string) (nextDegreeHint : option string)
  : M (option string) :=
  e <- get_engine ;;
  let complexity := complexity (settings e) in
  let isMinorKey := is_mode "minor" (currentKey e) in
  let options := qualityOptions isMinorKey degree nextDegreeHint in
  let last := (Z.of_nat (List.length options) - 1)%Z in
  let maxIndex := Math_floor (1 + num last * complexity) in
  r <- Math_random ;;
  let index := Math_floor (r * num maxIndex) in
  ret (at_index options (Z.min index last)).

Definition formatDegree (degree : string) : string :=
  let replacements :=
    [("bII", "♭II"); ("bIII", "♭III"); ("bVI", "♭VI"); ("bVII", "♭VII");
     ("bV", "♭V"); ("#IV", "♯IV")] in
  default degree (prop replacements degree).

(** The chain of [.replace(pattern, replacement)] calls, in order. *)
Definition qualityReplacements : list (string * string) :=
  [("maj7", "Δ7"); ("maj9", "Δ9"); ("m7b5", "ø7"); ("dim7", "°7");
   ("7alt", "7alt"); ("7#11", "7♯11"); ("7b9", "7♭9"); ("7#9", "7♯9");
   ("m7", "-7"); ("m9", "-9"); ("m11", "-11"); ("m6", "-6");
   ("m69", "-6/9"); ("69", "6/9")].

Definition formatQuality (quality : string) : string :=
  fold_left (fun q rule => replace rule.1 rule.2 q) qualityReplacements quality.

(** [formatChordName(root, quality)]: [quality.replace] throws when the
    quality is [undefined]. *)
Definition formatChordName (root : option string) (quality : option string)
  : M (option string * string) :=
  match quality with
  | Some q => ret (root, formatQuality q)
  | None => throw "TypeError"
  end.

Definition realizeChord (degree : string) (nextDegreeHint : option string)
  : M Chord :=
  e <- get_engine ;;
  let rootInterval := getDegreeInterval degree in
  let keyRoot := indexOf NOTES (normalizeNote (root (currentKey e))) in
  let chordRoot := at_index NOTES (Z.rem (keyRoot + rootInterval) 12) in
  quality <- getChordQuality degree nextDegreeHint ;;
  let displayDegree := formatDegree degree in
  name <- formatChordName chordRoot quality ;;
  ret (mkChord chordRoot quality displayDegree name).

(* ------------------------------------------------------------------ *)
(** ** Bar generation *)

(** The body of the [for] loop of phase 1: one chord slot. *)
Definition chordSlot : M string :=
  maybeModulate ;;
  nextDegree <- getNextDegree ;;
  modify (fun e => set_previousDegree (Some (currentDegree e)) e) ;;
  modify (set_currentDegree nextDegree) ;;
  modify (fun e =>
    let pushed := recentDegrees e ++ [nextDegree] in
    set_recentDegrees (if (8 <? List.length pushed)%nat then tail pushed else pushed) e) ;;
  ret nextDegree.

Fixpoint chordSlots (count : nat) : M (list string) :=
  match count with
  | O => ret []
  | S n => d <- chordSlot ;; ds <- chordSlots n ;; ret (d :: ds)
  end.

(** Phase 2, [degrees.map((degree, idx) => ...)]: the hint is the next
    degree of the bar, or the lookahead for the last one. *)
Fixpoint realizeDegrees (degrees : list string) : M (list Chord) :=
  match degrees with
  | [] => ret []
  | degree :: rest =>
      nextHint <- match rest with
                  | following :: _ => ret following
                  | [] => peekLikelyNextDegree
                  end ;;
      chord <- realizeChord degree (Some nextHint) ;;
      others <- realizeDegrees rest ;;
      ret (chord :: others)
  end.

Definition generateBar : M Bar :=
  modify (fun e => set_barCount (S (barCount e)) e) ;;
  e <- get_engine ;;
  let previousKey := currentKey e in
  r <- Math_random ;;
  let hasTwoChords := ltb r (twoChordProbability (settings e)) in
  let count := if hasTwoChords then 2%nat else 1%nat in
  degrees <- chordSlots count ;;
  chords <- realizeDegrees degrees ;;
  e <- get_engine ;;
  let keyChanged :=
    negb (bool_decide (root previousKey = root (currentKey e)))
    || negb (bool_decide (mode previousKey = mode (currentKey e))) in
  let bar := mkBar (barCount e) chords (currentKey e) keyChanged in
  modify (fun e => set_history (history e ++ [bar]) e) ;;
  ret bar.

(* ------------------------------------------------------------------ *)
(** ** The vocabulary of the statements *)

(** *** Worlds *)

(** The world with another engine, or another store. *)
Definition with_engine (f : Engine -> Engine) (w : World) : World :=
  mkWorld (f (engine w)) (heap w) (entropy w) (drawn w).

Definition with_heap (h : Heap) (w : World) : World :=
  mkWorld (engine w) h (entropy w) (drawn w).

(** The world after [n] more calls of [Math.random()]. *)
Definition after_draws (n : nat) (w : World) : World :=
  mkWorld (engine w) (heap w) (entropy w) (n + drawn w).

(** The next result of [Math.random()]. *)
Definition next_random (w : World) : Qc := rv (entropy w (drawn w)).

(** What a computation returned, if it did. *)
Definition returned {A} (r : Result A) : option A :=
  match r with
  | Ok a _ => Some a
  | Throw _ => None
  end.

(** [m] called [n] times in a row. *)
Fixpoint times {A} (n : nat) (m : M A) : M (list A) :=
  match n with
  | O => ret []
  | S n' => a <- m ;; rest <- times n' m ;; ret (a :: rest)
  end.

(** *** The store *)

(** The static tables are where the script put them, with their
    contents. *)
Definition tables_intact (h : Heap) : Prop :=
  exists rest, h = static_heap ++ rest.

(** An association list is an object when no key occurs twice. *)
Definition is_object {V} (o : list (string * V)) : Prop := NoDup o.*1.

(** Every cell of [h] that exists keeps its contents in [h']. *)
Definition preserves (h h' : Heap) : Prop :=
  forall l d, h !! l = Some d -> h' !! l = Some d.

(** *** Frames *)

(** Whenever [m] returns, [R] relates the world it started in to the
    world it leaves. *)
Definition respects {A} (R : World -> World -> Prop) (m : M A) : Prop :=
  forall w a w', m w = Ok a w' -> R w w'.

(** Nothing changed: engine, store and draws are what they were. *)
Definition unchanged (w w' : World) : Prop := w' = w.

(** The approach queue is the same. *)
Definition same_queue (w w' : World) : Prop :=
  approachQueue (engine w') = approachQueue (engine w).

(** The window of recent degrees is the same. *)
Definition same_recent (w w' : World) : Prop :=
  recentDegrees (engine w') = recentDegrees (engine w).

(** The store and the settings are the same. *)
Definition steady (w w' : World) : Prop :=
  heap w' = heap w ∧ settings (engine w') = settings (engine w).

(** The settings are the same and the static tables, if they were
    intact, still are. *)
Definition sound (w w' : World) : Prop :=
  settings (engine w') = settings (engine w)
  ∧ (tables_intact (heap w) -> tables_intact (heap w')).

(** *** The transition rule, as the specification words it *)

(** The second-order table by (previous degree, current degree). *)
Definition override_pairs : list ((string * string) * Dist) :=
  zip [("ii", "V"); ("iii", "vi"); ("vi", "ii"); ("II", "V"); ("VI", "ii");
       ("III", "vi"); ("IV", "V"); ("bVI", "bVII"); ("iv", "V")]
      SECOND_ORDER_OVERRIDES_literal.*2.

Fixpoint pair_entry {V} (t : list ((string * string) * V))
    (prev cur : string) : option V :=
  match t with
  | [] => None
  | ((p, c), d) :: t' =>
      if String.eqb p prev && String.eqb c cur then Some d
      else pair_entry t' prev cur
  end.

(** The major table's distribution of the tonic. *)
Definition tonic_major : Dist :=
  default [] (prop DEGREE_TRANSITIONS_literal "I").

Definition rule_distribution (e : Engine) : Dist :=
  match from_option (fun prev => pair_entry override_pairs prev (currentDegree e))
                    None (previousDegree e) with
  | Some override => override
  | None =>
      let mode_table :=
        if bool_decide (mode (currentKey e) = Some "minor")
        then MINOR_DEGREE_TRANSITIONS_literal
        else DEGREE_TRANSITIONS_literal in
      match prop mode_table (currentDegree e) with
      | Some d => d
      | None =>
          match prop DEGREE_TRANSITIONS_literal (currentDegree e) with
          | Some d => d
          | None => tonic_major
          end
      end
  end.

(** The key under which the code files a pair in the second-order
    table. *)
Definition joined {V} (entry : (string * string) * V) : string * V :=
  (entry.1.1 +:+ arrow +:+ entry.1.2, entry.2).

(** Whether the byte [b] occurs in [s]. *)
Fixpoint has_byte (b : ascii) (s : string) : bool :=
  match s with
  | EmptyString => false
  | String c s' => Ascii.eqb c b || has_byte b s'
  end.

(** The first byte of [arrow]. *)
Definition arrow_head : ascii := "226"%char.

(** The reference that steps 3 and 4 of [getNextDegree], and the
    lookahead, select. *)
Definition selected (e : Engine) : option nat :=
  match secondOrder e with
  | Some o => Some o
  | None => firstOrder e
  end.

(** Steps 5 and 6 of [getNextDegree] and the draw, on a new object whose
    properties are [raw]. *)
Definition shape_and_draw (raw : Dist) : M string :=
  transitions <- newObj raw ;;
  transitions <- adjustForAdventurousness transitions ;;
  transitions <- applyAntiRepetition transitions ;;
  entries <- readObj transitions ;;
  weightedRandom entries.

(** The degree of greatest weight, the first one among equals, and [I]
    when no weight is positive. *)
Definition most_probable (entries : Dist) : string :=
  (fold_left (fun best dp => if ltb best.1 dp.2 then (dp.2, dp.1) else best)
             entries (0, "I")).2.

(** *** The two passes, as the specification words them *)

Definition blend (a : Qc) (d : Dist) : Dist :=
  let n := num (Z.of_nat (List.length d)) in
  map (fun kw => (kw.1, kw.2 * (1 - a) + (1 / n) * a)) d.

(** How many times [x] occurs in [l]. *)
Definition occurrences (x : string) (l : list string) : nat :=
  List.length (filter (fun y => y = x) l).

Definition penalized (count : nat) (weight : Qc) : Qc :=
  if (3 <=? count)%nat then weight * pct 30
  else if (count =? 2)%nat then weight * pct 70
  else weight.

Definition penalize (recent : list string) (d : Dist) : Dist :=
  map (fun kw => (kw.1, penalized (occurrences kw.1 recent) kw.2)) d.

(** The body of the penalty loop of [applyAntiRepetition], as a function
    of the object it rewrites. *)
Definition penalty_step (o : Dist) (dc : string * nat) : Dist :=
  match prop o dc.1 with
  | Some weight =>
      if (3 <=? dc.2)%nat && truthy weight then assign o dc.1 (weight * pct 30)
      else if (2 <=? dc.2)%nat && truthy weight then assign o dc.1 (weight * pct 70)
      else o
  | None => o
  end.

(** *** Modulation, as the specification words it *)

Definition MODULATION_TYPES : list string :=
  ["fifth_up"; "fifth_down"; "relative"; "parallel"; "tritone";
   "step_up"; "step_down"].

(** The semitone offset of a modulation type; [None] keeps the root. *)
Definition semitones (type : string) (major : bool) : option Z :=
  if String.eqb type "fifth_up" then Some 7%Z
  else if String.eqb type "fifth_down" then Some 5%Z
  else if String.eqb type "relative" then Some (if major then 9 else 3)%Z
  else if String.eqb type "tritone" then Some 6%Z
  else if String.eqb type "step_up" then Some 2%Z
  else if String.eqb type "step_down" then Some 10%Z
  else None.

Definition flips_mode (type : string) : bool :=
  String.eqb type "relative" || String.eqb type "parallel".

Definition flipped (m : option string) : option string :=
  if bool_decide (m = Some "major") then Some "minor" else Some "major".

(** The pitch class of a note name, [-1] when it is none. *)
Definition pitch_class (r : option string) : Z := indexOf NOTES (normalizeNote r).

Definition modulated (type : string) (k : Key) : Key :=
  mkKey (match semitones type (bool_decide (mode k = Some "major")) with
         | Some s => NOTES !! Z.to_nat ((pitch_class (root k) + s) mod 12)
         | None => root k
         end)
        (if flips_mode type then flipped (mode k) else mode k).

(** *** Qualities, as the specification words them *)

Definition DOMINANT_DEGREES : list string := ["V"; "II"; "III"; "VI"; "#IV"].

Definition resolves_to_minor (isMinorKey : bool) (hint : string) : bool :=
  bool_decide (hint ∈ ["ii"; "iii"; "vi"; "i"; "iv"; "v"])
  || (bool_decide (hint = "I") && isMinorKey).

Definition hinted_options (isMinorKey : bool) (hint : string) : list string :=
  if resolves_to_minor isMinorKey hint then QUALITY_OPTIONS.dominantToMinor
  else QUALITY_OPTIONS.dominantToMajor.

(** The option lists that the realizer can choose from. *)
Definition OPTION_LISTS : list (list string) :=
  [QUALITY_OPTIONS.tonic; QUALITY_OPTIONS.subdominant; QUALITY_OPTIONS.dominant;
   QUALITY_OPTIONS.dominantToMinor; QUALITY_OPTIONS.dominantToMajor;
   QUALITY_OPTIONS.minor; QUALITY_OPTIONS.halfDim;
   ["7"; "7#11"; "9"; "13"]; ["maj7"; "7"; "maj9"]; ["7"; "maj7"; "m7"]].

(** Every token of a list that [getChordQuality] can choose from. *)
Definition quality_vocabulary : list string := List.concat OPTION_LISTS.

(** The patterns of the replacement chain that find something to replace
    when [formatChordName] runs on [quality], in order. *)
Fixpoint rules_applied (rules : list (string * string)) (q : string)
  : list string :=
  match rules with
  | [] => []
  | (pat, rep) :: rules' =>
      if occurs pat q then pat :: rules_applied rules' (replace pat rep q)
      else rules_applied rules' q
  end.

(** *** Construction *)

(** The settings of an engine built without argument. *)
Definition DEFAULT_SETTINGS : Settings :=
  mkSettings (pct 85) (pct 30) (pct 50) (pct 15).

(** The state [reset] leaves, under key [k]. *)
Definition initial_engine (s : Settings) (k : Key) : Engine :=
  mkEngine s k "I" None 0%nat [] [] [].

(** *** Sample worlds *)

Definition half : Rand := mkRand (pct 50) eq_refl.
Definition tenth : Rand := mkRand (pct 10) eq_refl.

Definition C_major : Key := mkKey (Some "C") (Some "major").

Definition sample_engine : Engine := initial_engine DEFAULT_SETTINGS C_major.

(** A new engine in C major, on the store as the script leaves it, every
    draw being 0.5. *)
Definition sample_world : World :=
  mkWorld sample_engine static_heap (fun _ => half) 0.

(** The same with every draw being 0.1, below [APPROACH_PROBABILITY]. *)
Definition eager_world : World :=
  mkWorld sample_engine static_heap (fun _ => tenth) 0.

(** The approach to [I] is queued. *)
Definition queued_world : World :=
  with_engine (set_approachQueue ["ii"; "V"; "I"]) sample_world.

(** On V, reached from ii. *)
Definition cadence_world : World :=
  with_engine (fun e => set_previousDegree (Some "ii") (set_currentDegree "V" e))
              sample_world.

(** After the degrees I, ii, V, I, ii, V, I. *)
Definition looping_world : World :=
  with_engine (set_recentDegrees ["I"; "ii"; "V"; "I"; "ii"; "V"; "I"]) sample_world.

(** The adventurousness at its bounds. *)
Definition cautious_world : World :=
  with_engine (set_settings (mkSettings (pct 85) 0 (pct 50) (pct 15))) sample_world.

Definition adventurous_world : World :=
  with_engine (set_settings (mkSettings (pct 85) 1 (pct 50) (pct 15))) sample_world.

(** The twoChordProbability at its bounds. *)
Definition one_chord_world : World :=
  with_engine (set_settings (mkSettings (pct 85) (pct 30) (pct 50) 0)) sample_world.

Definition two_chord_world : World :=
  with_engine (set_settings (mkSettings (pct 85) (pct 30) (pct 50) 1)) sample_world.

(** A complexity of -5. *)
Definition negative_complexity_world : World :=
  with_engine (set_settings (mkSettings (pct 85) (pct 30) (num (-5)) (pct 15)))
              sample_world.

(** *** What a call leaves alone *)

(** The engine's [f] is what it was. *)
Definition same {A} (f : Engine -> A) (w w' : World) : Prop :=
  f (engine w') = f (engine w).


(** *** Degree tokens *)

(** The letters that degree tokens are written with. *)
Definition degree_letters : list ascii := ["b"; "#"; "I"; "V"; "i"; "v"]%char.

(** A string over the letters of degree tokens.  No such string names a
    property that objects inherit from [Object.prototype]. *)
Definition degree_token (s : string) : Prop :=
  Forall (fun c => c ∈ degree_letters) (list_ascii_of_string s).

(** *** Keys *)

(** A key whose root is a note name, in either spelling, and whose mode
    is major or minor. *)
Definition well_formed (k : Key) : Prop :=
  (0 <= pitch_class (root k))%Z
  ∧ (mode k = Some "major" ∨ mode k = Some "minor").

(** The chance that [maybeModulate] compares its draw with. *)
Definition effectiveChance (e : Engine) : Qc :=
  let modulationChance := 1 - keyStability (settings e) in
  if String.eqb (currentDegree e) "I" || String.eqb (currentDegree e) "i"
  then modulationChance * num 2 else modulationChance.

(** What [maybeModulate] never writes: every field but the key and the
    degree. *)
Definition beside_key (e : Engine) :=
  (settings e, previousDegree e, barCount e, history e, recentDegrees e,
   approachQueue e).

(** What [getNextDegree] never writes: every field but the queue. *)
Definition beside_queue (e : Engine) :=
  (settings e, currentKey e, currentDegree e, previousDegree e, barCount e,
   history e, recentDegrees e).

(** What a chord slot never writes. *)
Definition beside_degrees (e : Engine) := (settings e, barCount e, history e).

(** The chord [c] realizes the degree [g] in the key [k]: its root is the
    note [getDegreeInterval g] semitones above the root of [k], its
    quality one of the options of [g] in the mode of [k]. *)
Definition spelled (k : Key) (g : string) (c : Chord) : Prop :=
  exists note q hint,
    c = mkChord (Some note) (Some q) (formatDegree g) (Some note, formatQuality q)
    ∧ NOTES !! Z.to_nat ((pitch_class (root k) + getDegreeInterval g) mod 12)
      = Some note
    ∧ In q (qualityOptions (is_mode "minor" k) g hint).

(** *** Degrees *)

(** Every degree that a distribution of the tables or an approach
    sequence holds, with repetitions. *)
Definition emitted_degrees : list string :=
  List.concat (map (fun d : Dist => d.*1) static_heap)
  ++ List.concat (map (fun s : string * (list string * Qc) => s.2.1)
                      APPROACH_SEQUENCES).

(** *** Settings *)

(** The properties of [first] overwritten by those of [second]: what two
    calls of [Object.assign] on the same target copy, in all. *)
Definition overwritten (first second : SettingsArg) : SettingsArg :=
  let pick {A} (a b : option A) := match b with Some _ => b | None => a end in
  mkSettingsArg
    (pick (arg_keyStability first) (arg_keyStability second))
    (pick (arg_adventurousness first) (arg_adventurousness second))
    (pick (arg_complexity first) (arg_complexity second))
    (pick (arg_twoChordProbability first) (arg_twoChordProbability second)).

(** *** Modulations *)

(** The modulation type that leads back. *)
Definition opposite (type : string) : string :=
  if String.eqb type "fifth_up" then "fifth_down"
  else if String.eqb type "fifth_down" then "fifth_up"
  else if String.eqb type "step_up" then "step_down"
  else if String.eqb type "step_down" then "step_up"
  else type.

(** *** The lead sheet of src/app.js *)

(** The [for] loop of [generateRow()]: [n] more bars of the engine are
    pushed on [bars]. *)
Fixpoint generateRow_loop (n : nat) (bars : list Bar) : M (list Bar) :=
  match n with
  | O => ret bars
  | S n' => bar <- generateBar ;; generateRow_loop n' (bars ++ [bar])
  end.

(** [generateRow()] of [MarkovJazzApp], whose [barsPerRow] is a
    parameter here; the result is the [bars] of the row. *)
Definition generateRow (barsPerRow : nat) : M (list Bar) :=
  generateRow_loop barsPerRow [].

(** The [for] loop of [initRows()]. *)
Fixpoint initRows_loop (n barsPerRow : nat) (rows : list (list Bar))
  : M (list (list Bar)) :=
  match n with
  | O => ret rows
  | S n' => row <- generateRow barsPerRow ;;
            initRows_loop n' barsPerRow (rows ++ [row])
  end.

(** [initRows()]: the rows that it leaves in [this.rows]. *)
Definition initRows (visibleRows barsPerRow : nat) : M (list (list Bar)) :=
  initRows_loop visibleRows barsPerRow [].

(* ================================================================== *)
(** * Properties *)

(** ** The monad and the number operators *)

Lemma bind_ok {A B} (m : M A) (k : A -> M B) w a w' :
  m w = Ok a w' -> bind m k w = k a w'.
Proof. unfold bind. now intros ->. Qed.

Lemma ltb_lt a b : ltb a b = true <-> a < b.
Proof. unfold ltb. apply bool_decide_eq_true. Qed.

Lemma ltb_ge a b : ltb a b = false <-> b ≤ a.
Proof.
  unfold ltb. rewrite bool_decide_eq_false. split.
  - apply Qcnot_lt_le.
  - apply Qcle_not_lt.
Qed.

Lemma rv_bounds (r : Rand) : 0 ≤ rv r ∧ rv r < 1.
Proof. destruct r as [v H]. simpl. now apply bool_decide_eq_true in H. Qed.

Lemma random_bounds w : 0 ≤ next_random w ∧ next_random w < 1.
Proof. apply rv_bounds. Qed.

Lemma Math_random_eq w : Math_random w = Ok (next_random w) (after_draws 1 w).
Proof. reflexivity. Qed.

Lemma this_num n : this (num n) = inject_Z n.
Proof. unfold num. simpl. apply Qred_identity. simpl. apply Z.gcd_1_r. Qed.

Lemma floor_nonneg x : 0 ≤ x -> (0 <= Math_floor x)%Z.
Proof.
  intros H. unfold Math_floor.
  change 0%Z with (Qfloor 0). apply Qfloor_resp_le. exact H.
Qed.

Lemma floor_below x (n : Z) : x < num n -> (Math_floor x < n)%Z.
Proof.
  intros H. unfold Math_floor.
  rewrite Zlt_Qlt. eapply Qle_lt_trans; [apply Qfloor_le|].
  unfold Qclt in H. now rewrite this_num in H.
Qed.

Lemma floor_num n : Math_floor (num n) = n.
Proof. unfold Math_floor. rewrite this_num. apply Qfloor_Z. Qed.

Lemma num_pos n : (0 < n)%Z -> 0 < num n.
Proof.
  intros H. unfold Qclt. rewrite this_num.
  change (this 0) with (inject_Z 0). now rewrite <- Zlt_Qlt.
Qed.

Lemma num_nonneg n : (0 <= n)%Z -> 0 ≤ num n.
Proof.
  intros H. unfold Qcle. rewrite this_num.
  change (this 0) with (inject_Z 0). now rewrite <- Zle_Qle.
Qed.

(** A draw scaled by a positive integer [n] floors to an index below
    [n]. *)
Lemma floor_scaled r (n : Z) :
  0 ≤ r -> r < 1 -> (0 < n)%Z -> (0 <= Math_floor (r * num n) < n)%Z.
Proof.
  intros H0 H1 Hn. pose proof (num_pos n Hn) as Hp. split.
  - apply floor_nonneg. apply Qcmult_nonneg_nonneg; [exact H0|].
    now apply Qclt_le_weak.
  - apply floor_below.
    rewrite <- (Qcmult_1_l (num n)) at 2.
    now apply Qcmult_lt_compat_r.
Qed.

Lemma at_index_Some {A} (a : list A) (i : Z) :
  (0 <= i < Z.of_nat (List.length a))%Z ->
  exists x, at_index a i = Some x ∧ In x a.
Proof.
  intros [H0 H1]. unfold at_index.
  destruct (Z.ltb_spec i 0) as [?|_]; [lia|].
  destruct (a !! Z.to_nat i) as [x|] eqn:E.
  - exists x. split; [reflexivity|].
    apply list_elem_of_In. eapply list_elem_of_lookup_2. exact E.
  - apply lookup_ge_None in E. lia.
Qed.

Lemma randomKey_result w :
  exists k,
    randomKey w = Ok k (after_draws 2 w)
    ∧ (exists n, root k = Some n ∧ In n ["C"; "F"; "Bb"; "Eb"; "Ab"; "G"; "D"; "A"])
    ∧ (mode k = Some "major" ∨ mode k = Some "minor").
Proof.
  set (roots := ["C"; "F"; "Bb"; "Eb"; "Ab"; "G"; "D"; "A"]).
  set (modes := ["major"; "major"; "major"; "minor"]).
  destruct (rv_bounds (entropy w (drawn w))) as [Ha Hb].
  destruct (rv_bounds (entropy w (S (drawn w)))) as [Hc Hd].
  pose proof (floor_scaled _ (Z.of_nat (List.length roots)) Ha Hb eq_refl) as H8.
  pose proof (floor_scaled _ (Z.of_nat (List.length modes)) Hc Hd eq_refl) as H4.
  destruct (at_index_Some roots _ H8) as (x & Hx & Hin).
  destruct (at_index_Some modes _ H4) as (y & Hy & Hiy).
  exists (mkKey (Some x) (Some y)). split; [|split].
  - unfold randomKey, bind, ret, Math_random. cbn [engine heap entropy drawn].
    fold roots. fold modes. rewrite Hx, Hy. reflexivity.
  - exists x. split; [reflexivity|exact Hin].
  - cbn [mode]. destruct Hiy as [<-|[<-|[<-|[<-|[]]]]]; auto.
Qed.

(** C10. Each setting the constructor's argument leaves out gets its
    default (keyStability 0.85, adventurousness 0.30, complexity 0.50,
    twoChordProbability 0.15), a setting that is given is kept; without
    argument the four defaults are used; and the engine is then in the
    initial state of [reset]: tonic degree, no previous degree, bar count
    0, empty history, window and approach queue, under a key drawn by
    [randomKey]. *)
Theorem constructor_defaults (arg : option SettingsArg) (w : World) :
  (exists (s : Settings) (k : Key),
     constructor arg w
     = Ok tt (mkWorld (initial_engine s k) (heap w) (entropy w) (2 + drawn w))
     ∧ randomKey w = Ok k (after_draws 2 w)
     ∧ keyStability s = default (pct 85) (arg ≫= arg_keyStability)
     ∧ adventurousness s = default (pct 30) (arg ≫= arg_adventurousness)
     ∧ complexity s = default (pct 50) (arg ≫= arg_complexity)
     ∧ twoChordProbability s = default (pct 15) (arg ≫= arg_twoChordProbability))
  ∧ (exists k : Key,
       constructor None w
       = Ok tt (mkWorld (initial_engine DEFAULT_SETTINGS k)
                        (heap w) (entropy w) (2 + drawn w))
       ∧ randomKey w = Ok k (after_draws 2 w)).
Proof.
  split.
  - eexists. eexists. split; [|split].
    + unfold constructor, reset, randomKey, bind, modify, ret, Math_random,
        initial_engine.
      cbn [engine heap entropy drawn settings set_settings]. reflexivity.
    + reflexivity.
    + destruct arg as [a|]; cbn; repeat split; reflexivity.
  - eexists. split; reflexivity.
Qed.

(** ** Frames *)

Section Respects.
Context (R : World -> World -> Prop) `{!PreOrder R}.

Lemma respects_ret {A} (a : A) : respects R (ret a).
Proof. intros w x w' [= _ <-]. reflexivity. Qed.

Lemma respects_throw {A} e : respects R (@throw A e).
Proof. intros w x w' [=]. Qed.

Lemma respects_bind {A B} (m : M A) (k : A -> M B) :
  respects R m -> (forall a, respects R (k a)) -> respects R (bind m k).
Proof.
  intros Hm Hk w b w'. unfold bind.
  destruct (m w) as [a w1|e] eqn:E; [|discriminate].
  intros H. transitivity w1; [eapply Hm, E|eapply Hk, H].
Qed.

Lemma respects_forEach {A} (l : list A) (body : A -> M unit) :
  (forall x, respects R (body x)) -> respects R (forEach l body).
Proof.
  intros Hb. induction l as [|x l IH]; simpl.
  - apply respects_ret.
  - apply respects_bind; [apply Hb|intros _; exact IH].
Qed.

Lemma respects_get_engine : respects R get_engine.
Proof. intros w x w' [= _ <-]. reflexivity. Qed.

Lemma respects_readObj l : respects R (readObj l).
Proof.
  intros w x w'. unfold readObj. destruct (heap w !! l); [|discriminate].
  intros [= _ <-]. reflexivity.
Qed.

End Respects.

#[global] Instance same_queue_preorder : PreOrder same_queue.
Proof.
  split.
  - intros w. reflexivity.
  - intros a b c H1 H2. unfold same_queue in *. congruence.
Qed.

Create HintDb frame.

(** Decomposing a monadic program along its binds and branches. *)
Ltac frame_step :=
  first
    [ solve [eauto with frame]
    | apply respects_ret; tc_solve
    | apply respects_throw
    | apply respects_get_engine; tc_solve
    | apply respects_readObj; tc_solve
    | apply respects_bind; [tc_solve| |intros ?]
    | apply respects_forEach; [tc_solve|intros ?]
    | match goal with
      | |- respects _ (if ?b then _ else _) => destruct b
      | |- respects _ (match ?x with _ => _ end) => destruct x
      | |- respects _ (let '(_, _) := ?x in _) => destruct x
      | |- respects _ (let _ := _ in _) => cbv zeta
      | |- respects _ (spread _) => unfold spread
      end ].

Ltac frame := repeat frame_step.

Lemma queue_Math_random : respects same_queue Math_random.
Proof. intros w x w' [= _ <-]. reflexivity. Qed.

Lemma queue_modify f :
  (forall e, approachQueue (f e) = approachQueue e) ->
  respects same_queue (modify f).
Proof. intros H w x w' [= _ <-]. apply H. Qed.

Lemma queue_newObj d : respects same_queue (newObj d).
Proof. intros w x w' [= _ <-]. reflexivity. Qed.

Lemma queue_setProp l k v : respects same_queue (setProp l k v).
Proof.
  intros w x w'. unfold setProp. destruct (heap w !! l); [|discriminate].
  intros [= _ <-]. reflexivity.
Qed.

#[global] Hint Resolve queue_Math_random queue_newObj queue_setProp : frame.
#[global] Hint Extern 1 (respects same_queue (modify _)) =>
  apply queue_modify; intros ?; reflexivity : frame.

Lemma queue_weightedRandom entries : respects same_queue (weightedRandom entries).
Proof. unfold weightedRandom. frame. Qed.

#[global] Hint Resolve queue_weightedRandom : frame.

Lemma queue_modulate : respects same_queue modulate.
Proof. unfold modulate. frame. Qed.

#[global] Hint Resolve queue_modulate : frame.

Lemma queue_maybeModulate : respects same_queue maybeModulate.
Proof. unfold maybeModulate. frame. Qed.

#[global] Hint Resolve queue_maybeModulate : frame.

Lemma queue_updateSettings s : respects same_queue (updateSettings s).
Proof. unfold updateSettings. frame. Qed.

Lemma queue_getMostProbable t : respects same_queue (getMostProbable t).
Proof. unfold getMostProbable. frame. Qed.

Lemma queue_peekLikelyNextDegree : respects same_queue peekLikelyNextDegree.
Proof.
  unfold peekLikelyNextDegree. frame; apply queue_getMostProbable.
Qed.

Lemma queue_realizeChord d hint : respects same_queue (realizeChord d hint).
Proof.
  unfold realizeChord, getChordQuality, formatChordName.
  frame.
Qed.

Lemma queue_adjustForAdventurousness t :
  respects same_queue (adjustForAdventurousness t).
Proof. unfold adjustForAdventurousness. frame. Qed.

Lemma queue_applyAntiRepetition t :
  respects same_queue (applyAntiRepetition t).
Proof. unfold applyAntiRepetition. frame. Qed.

(** ** The weighted draw *)

Lemma weightedRandom_loop_In entries random k :
  weightedRandom_loop entries random = Some k -> In k entries.*1.
Proof.
  revert random. induction entries as [|[k' wt] rest IH]; intros random; simpl.
  - discriminate.
  - destruct (leb (random - wt) 0).
    + intros [= ->]. now left.
    + intros H. right. eapply IH, H.
Qed.

(** On an object with a property, [weightedRandom] returns one of the
    keys and consumes one draw. *)
Lemma weightedRandom_ok entries w :
  entries <> [] ->
  exists k, In k entries.*1 ∧ weightedRandom entries w = Ok k (after_draws 1 w).
Proof.
  intros Hne. unfold weightedRandom, bind. rewrite Math_random_eq.
  destruct (weightedRandom_loop entries _) as [k|] eqn:E.
  - exists k. split; [eapply weightedRandom_loop_In, E|reflexivity].
  - destruct entries as [|[k wt] rest]; [congruence|].
    exists k. split; [now left|reflexivity].
Qed.

(** ** The approach queue *)

Lemma getNextDegree_queued w d q :
  approachQueue (engine w) = d :: q ->
  getNextDegree w = Ok d (with_engine (set_approachQueue q) w).
Proof.
  intros H. unfold getNextDegree, shiftQueue, bind, get_engine, modify, ret.
  rewrite H. change (0 <? List.length (d :: q))%nat with true.
  cbv beta iota. rewrite H. reflexivity.
Qed.

Lemma times_getNextDegree_queued q w rest :
  approachQueue (engine w) = q ++ rest ->
  times (List.length q) getNextDegree w
  = Ok q (with_engine (set_approachQueue rest) w).
Proof.
  revert w. induction q as [|d q IH]; intros w H.
  - simpl in *. unfold ret, with_engine. destruct w as [e h en dr].
    simpl in *. destruct e. simpl in *. subst. reflexivity.
  - simpl. erewrite bind_ok; [|apply getNextDegree_queued; exact H].
    erewrite bind_ok; [|apply IH; reflexivity]. reflexivity.
Qed.

Lemma chordSlot_queued w d q :
  approachQueue (engine w) = d :: q ->
  exists w', chordSlot w = Ok d w' ∧ approachQueue (engine w') = q.
Proof.
  intros H. unfold chordSlot.
  assert (exists w1, maybeModulate w = Ok tt w1
                     ∧ approachQueue (engine w1) = d :: q) as (w1 & E1 & Q1).
  { destruct (maybeModulate w) as [[] w1|e] eqn:E.
    - exists w1. split; [reflexivity|].
      rewrite <- H. eapply queue_maybeModulate, E.
    - exfalso. revert E. unfold maybeModulate, bind, get_engine.
      rewrite Math_random_eq.
      destruct (ltb _ _); [|discriminate]. unfold modulate, bind.
      destruct (weightedRandom_ok KEY_MODULATIONS (after_draws 1 w))
        as (k & _ & ->); [discriminate|].
      unfold get_engine.
      destruct (modulate_switch _ _); [|discriminate].
      unfold modify. rewrite Math_random_eq.
      destruct (ltb _ _); discriminate. }
  erewrite bind_ok; [|exact E1].
  erewrite bind_ok; [|apply getNextDegree_queued; exact Q1].
  eexists. split; [reflexivity|]. reflexivity.
Qed.

Lemma chordSlots_queued n q w :
  approachQueue (engine w) = q -> (n <= List.length q)%nat ->
  exists w', chordSlots n w = Ok (take n q) w'
             ∧ approachQueue (engine w') = drop n q.
Proof.
  revert q w. induction n as [|n IH]; intros q w H Hn.
  - exists w. split; [reflexivity|]. now rewrite drop_0.
  - destruct q as [|d q]; [simpl in Hn; lia|].
    destruct (chordSlot_queued w d q H) as (w1 & E1 & Q1).
    destruct (IH q w1 Q1 ltac:(simpl in Hn; lia)) as (w2 & E2 & Q2).
    exists w2. split; [|exact Q2].
    simpl. erewrite bind_ok; [|exact E1]. erewrite bind_ok; [|exact E2].
    reflexivity.
Qed.

Lemma tryStartApproach_starts w :
  exists target seq weight,
    In (target, (seq, weight)) APPROACH_SEQUENCES
    ∧ target <> currentDegree (engine w)
    ∧ tryStartApproach w
      = Ok true (with_engine (set_approachQueue seq) (after_draws 1 w)).
Proof.
  unfold tryStartApproach, bind, get_engine.
  remember (currentDegree (engine w)) as cur eqn:Ecur. clear Ecur.
  change (fold_left ?f APPROACH_SEQUENCES ?a)
    with (fold_left f
            [("I", (["ii"; "V"; "I"], pct 30));
             ("ii", (["iii"; "VI"; "ii"], pct 20));
             ("V", (["vi"; "II"; "V"], pct 30));
             ("vi", (["vii"; "III"; "vi"], pct 20))] a).
  cbn [fold_left fst snd].
  destruct (String.eqb_spec "I" cur) as [E1|N1];
    [rewrite <- E1|destruct (String.eqb_spec "ii" cur) as [E2|N2];
      [rewrite <- E2|destruct (String.eqb_spec "V" cur) as [E3|N3];
        [rewrite <- E3|destruct (String.eqb_spec "vi" cur) as [E4|N4];
          [rewrite <- E4|]]]];
    cbn [negb String.eqb Ascii.eqb Bool.eqb assign List.length Nat.eqb];
    match goal with
    | |- context [weightedRandom ?ws ?w0] =>
        destruct (weightedRandom_ok ws w0) as (k & Hk & ->); [discriminate|]
    end;
    cbn in Hk;
    repeat (destruct Hk as [<-|Hk]; [|]); try contradiction;
    cbn [prop APPROACH_SEQUENCES String.eqb Ascii.eqb Bool.eqb];
    do 3 eexists; (split; [|split; [|reflexivity]]);
    first [ cbn; tauto | congruence | discriminate ].
Qed.

(** A draw below [APPROACH_PROBABILITY] on an empty queue starts an
    approach: the call returns the head of a sequence of
    [APPROACH_SEQUENCES] and queues the two degrees that follow. *)
Lemma getNextDegree_triggers w :
  approachQueue (engine w) = [] ->
  next_random w < APPROACH_PROBABILITY ->
  exists target c1 c2 c3 weight,
    In (target, ([c1; c2; c3], weight)) APPROACH_SEQUENCES
    ∧ target <> currentDegree (engine w)
    ∧ getNextDegree w
      = Ok c1 (with_engine (set_approachQueue [c2; c3]) (after_draws 2 w)).
Proof.
  intros Hq Hr.
  destruct (tryStartApproach_starts (after_draws 1 w))
    as (target & seq & weight & Hin & Hne & Hstart).
  assert (exists c1 c2 c3, seq = [c1; c2; c3]) as (c1 & c2 & c3 & ->).
  { cbn in Hin.
    destruct Hin as [[= _ <- _]|[[= _ <- _]|[[= _ <- _]|[[= _ <- _]|[]]]]];
      eauto. }
  exists target, c1, c2, c3, weight. split; [exact Hin|split; [exact Hne|]].
  unfold getNextDegree, bind, get_engine. rewrite Hq.
  change (0 <? List.length [])%nat with false. cbv beta iota.
  rewrite Math_random_eq. apply ltb_lt in Hr. rewrite Hr.
  rewrite Hstart. reflexivity.
Qed.

(** C2. With a non-empty approach queue, [getNextDegree] returns the
    head and removes it, and nothing else happens: no draw is consumed,
    no distribution is read, copied or shaped.  Hence the queue is
    emitted in full and in order by consecutive calls, also through the
    chord slots of [generateBar]; a triggered approach emits its three
    degrees by three consecutive calls; the other operations leave the
    queue as it is, and [reset] empties it. *)
Theorem approach_queue_preempts (w : World) (d : string) (q : list string) :
  approachQueue (engine w) = d :: q ->
  getNextDegree w = Ok d (with_engine (set_approachQueue q) w)
  ∧ times (List.length (d :: q)) getNextDegree w
    = Ok (d :: q) (with_engine (set_approachQueue []) w)
  ∧ (forall n, (n <= List.length (d :: q))%nat ->
       exists w', chordSlots n w = Ok (take n (d :: q)) w'
                  ∧ approachQueue (engine w') = drop n (d :: q))
  ∧ (forall w0,
       approachQueue (engine w0) = [] ->
       next_random w0 < APPROACH_PROBABILITY ->
       exists target seq weight,
         In (target, (seq, weight)) APPROACH_SEQUENCES
         ∧ times 3 getNextDegree w0
           = Ok seq (with_engine (set_approachQueue []) (after_draws 2 w0)))
  ∧ respects same_queue maybeModulate
  ∧ respects same_queue modulate
  ∧ respects same_queue peekLikelyNextDegree
  ∧ (forall g hint, respects same_queue (realizeChord g hint))
  ∧ (forall s, respects same_queue (updateSettings s))
  ∧ (forall t, respects same_queue (adjustForAdventurousness t))
  ∧ (forall t, respects same_queue (applyAntiRepetition t))
  ∧ (forall k w1 w2, reset k w1 = Ok tt w2 -> approachQueue (engine w2) = []).
Proof.
  intros H. split; [now apply getNextDegree_queued|].
  split.
  { apply (times_getNextDegree_queued (d :: q) w []). now rewrite app_nil_r. }
  split; [intros n Hn; now apply chordSlots_queued|].
  split.
  { intros w0 Hq Hr.
    destruct (getNextDegree_triggers w0 Hq Hr)
      as (target & c1 & c2 & c3 & weight & Hin & _ & E).
    exists target, [c1; c2; c3], weight. split; [exact Hin|].
    change 3%nat with (S (List.length [c2; c3])).
    cbn [times]. erewrite bind_ok; [|exact E].
    erewrite bind_ok;
      [|apply (times_getNextDegree_queued [c2; c3] _ []); reflexivity].
    reflexivity. }
  split; [apply queue_maybeModulate|].
  split; [apply queue_modulate|].
  split; [apply queue_peekLikelyNextDegree|].
  split; [apply queue_realizeChord|].
  split; [apply queue_updateSettings|].
  split; [apply queue_adjustForAdventurousness|].
  split; [apply queue_applyAntiRepetition|].
  intros k w1 w2. unfold reset, bind, modify.
  destruct k as [k|].
  - intros [= <-]. reflexivity.
  - destruct (randomKey w1); [|discriminate]. intros [= <-]. reflexivity.
Qed.

Lemma approach_queue_preempts_witness :
  approachQueue (engine queued_world) = ["ii"; "V"; "I"]
  ∧ getNextDegree queued_world
    = Ok "ii" (with_engine (set_approachQueue ["V"; "I"]) queued_world)
  ∧ times 3 getNextDegree queued_world
    = Ok ["ii"; "V"; "I"] (with_engine (set_approachQueue []) queued_world)
  ∧ approachQueue (engine eager_world) = []
  ∧ next_random eager_world < APPROACH_PROBABILITY
  ∧ exists target seq weight,
      In (target, (seq, weight)) APPROACH_SEQUENCES
      ∧ times 3 getNextDegree eager_world
        = Ok seq (with_engine (set_approachQueue []) (after_draws 2 eager_world)).
Proof.
  split; [reflexivity|].
  pose proof (approach_queue_preempts queued_world "ii" ["V"; "I"] eq_refl)
    as (H1 & H2 & _ & H4 & _).
  split; [exact H1|]. split; [exact H2|].
  assert (next_random eager_world < APPROACH_PROBABILITY) as Hr
      by (vm_compute; reflexivity).
  split; [reflexivity|]. split; [exact Hr|].
  exact (H4 eager_world eq_refl Hr).
Defined.

(** ** Key modulation *)

Lemma indexOf_from_range a x i :
  indexOf_from a x i = (-1)%Z
  ∨ (i <= indexOf_from a x i < i + Z.of_nat (List.length a))%Z.
Proof.
  revert i. induction a as [|y a IH]; intros i; simpl.
  - now left.
  - destruct (String.eqb y x).
    + right. lia.
    + destruct (IH (i + 1)%Z) as [->|H]; [now left|right; lia].
Qed.

Lemma pitch_class_range r :
  pitch_class r = (-1)%Z ∨ (0 <= pitch_class r < 12)%Z.
Proof.
  unfold pitch_class, indexOf. destruct (normalizeNote r) as [n|]; [|now left].
  apply (indexOf_from_range NOTES n 0).
Qed.

Lemma note_at (x : Z) :
  (0 <= x)%Z -> at_index NOTES (Z.rem x 12) = NOTES !! Z.to_nat (x mod 12).
Proof.
  intros H. rewrite Z.rem_mod_nonneg by lia. unfold at_index.
  destruct (Z.ltb_spec (x mod 12) 0) as [Hlt|_]; [|reflexivity].
  pose proof (Z.mod_pos_bound x 12). lia.
Qed.

Lemma pitch_class_note (i : Z) :
  (0 <= i < 12)%Z -> pitch_class (NOTES !! Z.to_nat i) = i.
Proof.
  intros H.
  assert (i = 0 ∨ i = 1 ∨ i = 2 ∨ i = 3 ∨ i = 4 ∨ i = 5 ∨ i = 6 ∨ i = 7
          ∨ i = 8 ∨ i = 9 ∨ i = 10 ∨ i = 11)%Z as Hi by lia.
  repeat (destruct Hi as [->|Hi]; [reflexivity|]). now subst.
Qed.

Lemma modulate_switch_modulated type k :
  In type MODULATION_TYPES -> modulate_switch type k = Some (modulated type k).
Proof.
  intros Hin. unfold modulate_switch, modulated, semitones, flips_mode, flipped,
    is_mode.
  fold (pitch_class (root k)).
  destruct (pitch_class_range (root k)) as [Hp|Hp].
  - rewrite Hp. cbn in Hin.
    repeat (destruct Hin as [<-|Hin];
            [cbn; repeat case_bool_decide; reflexivity|]).
    contradiction.
  - cbn in Hin.
    repeat (destruct Hin as [<-|Hin];
            [cbn [String.eqb Ascii.eqb Bool.eqb orb];
             repeat case_bool_decide; rewrite ?note_at by lia; reflexivity|]).
    contradiction.
Qed.

Lemma modulate_draws w :
  exists type,
    In type MODULATION_TYPES
    ∧ weightedRandom KEY_MODULATIONS w = Ok type (after_draws 1 w)
    ∧ exists w', modulate w = Ok tt w'
                 ∧ currentKey (engine w') = modulated type (currentKey (engine w)).
Proof.
  destruct (weightedRandom_ok KEY_MODULATIONS w) as (type & Hin & E);
    [discriminate|].
  exists type. split; [exact Hin|]. split; [exact E|].
  unfold modulate. erewrite bind_ok; [|exact E].
  unfold bind, get_engine. cbn [engine after_draws].
  rewrite (modulate_switch_modulated type _ Hin).
  unfold modify. rewrite Math_random_eq.
  destruct (ltb _ _); eexists; (split; [reflexivity|reflexivity]).
Qed.

(** C5. For each of the seven modulation types, the [switch] of
    [modulate] yields the key that the offsets give: the new root is the
    note [offset] semitones above the current root modulo 12 (+7, +5, +9
    from major and +3 otherwise for relative, +6, +2, +10; parallel keeps
    the root), and the mode changes for relative and parallel only;
    [modulate] installs that key for the type it draws.  From C: G, F, Gb,
    A minor from C major, C minor from C major. *)
Theorem modulate_root_arithmetic :
  (forall type k,
     In type MODULATION_TYPES -> modulate_switch type k = Some (modulated type k))
  ∧ (forall type k s,
       semitones type (bool_decide (mode k = Some "major")) = Some s ->
       (0 <= pitch_class (root k))%Z ->
       pitch_class (root (modulated type k)) = ((pitch_class (root k) + s) mod 12)%Z)
  ∧ (forall k, modulated "parallel" k = mkKey (root k) (flipped (mode k)))
  ∧ (forall type k,
       In type ["fifth_up"; "fifth_down"; "tritone"; "step_up"; "step_down"] ->
       mode (modulated type k) = mode k)
  ∧ (forall k, mode (modulated "relative" k) = flipped (mode k))
  ∧ (forall w, exists type,
       In type MODULATION_TYPES
       ∧ weightedRandom KEY_MODULATIONS w = Ok type (after_draws 1 w)
       ∧ exists w', modulate w = Ok tt w'
            ∧ currentKey (engine w') = modulated type (currentKey (engine w)))
  ∧ (forall m, modulate_switch "fifth_up" (mkKey (Some "C") m)
               = Some (mkKey (Some "G") m))
  ∧ (forall m, modulate_switch "fifth_down" (mkKey (Some "C") m)
               = Some (mkKey (Some "F") m))
  ∧ (forall m, modulate_switch "tritone" (mkKey (Some "C") m)
               = Some (mkKey (Some "Gb") m))
  ∧ modulate_switch "relative" C_major = Some (mkKey (Some "A") (Some "minor"))
  ∧ modulate_switch "parallel" C_major = Some (mkKey (Some "C") (Some "minor")).
Proof.
  split; [exact modulate_switch_modulated|].
  split.
  { intros type k s Hs Hp. unfold modulated. rewrite Hs. cbn [root].
    apply pitch_class_note. apply Z.mod_pos_bound. lia. }
  split; [reflexivity|].
  split.
  { intros type k Hin. cbn in Hin.
    repeat (destruct Hin as [<-|Hin]; [reflexivity|]). contradiction. }
  split; [reflexivity|].
  split; [exact modulate_draws|].
  repeat split; reflexivity.
Qed.

Lemma modulate_root_arithmetic_witness :
  In "fifth_up" MODULATION_TYPES
  ∧ modulate_switch "fifth_up" C_major = Some (modulated "fifth_up" C_major)
  ∧ semitones "fifth_up" (bool_decide (mode C_major = Some "major")) = Some 7%Z
  ∧ (0 <= pitch_class (root C_major))%Z
  ∧ pitch_class (root (modulated "fifth_up" C_major))
    = ((pitch_class (root C_major) + 7) mod 12)%Z.
Proof.
  pose proof modulate_root_arithmetic as (H1 & H2 & _).
  assert (In "fifth_up" MODULATION_TYPES) as Hin by (cbn; tauto).
  assert (0 <= pitch_class (root C_major))%Z as Hp by (cbn; lia).
  split; [exact Hin|].
  split; [exact (H1 "fifth_up" C_major Hin)|].
  split; [reflexivity|].
  split; [exact Hp|].
  exact (H2 "fifth_up" C_major 7%Z eq_refl Hp).
Defined.

(** ** Chord qualities *)

Lemma includes_In a x : includes a x = true <-> In x a.
Proof.
  unfold includes. rewrite existsb_exists. split.
  - intros (y & Hin & E). apply String.eqb_eq in E. now subst.
  - intros H. exists x. split; [exact H|apply String.eqb_refl].
Qed.

Lemma includes_decide a x : includes a x = bool_decide (x ∈ a).
Proof.
  destruct (includes a x) eqn:E.
  - symmetry. apply bool_decide_eq_true. apply list_elem_of_In.
    now apply includes_In.
  - symmetry. apply bool_decide_eq_false. intros H.
    apply list_elem_of_In, includes_In in H. congruence.
Qed.

Lemma eqb_decide (x y : string) : String.eqb x y = bool_decide (x = y).
Proof.
  destruct (String.eqb_spec x y) as [E|N].
  - symmetry. now apply bool_decide_eq_true.
  - symmetry. now apply bool_decide_eq_false.
Qed.

Lemma functionOptions_dominant isMinorKey g :
  In g DOMINANT_DEGREES ->
  functionOptions isMinorKey g = (QUALITY_OPTIONS.dominant, true).
Proof.
  intros Hin. cbn in Hin.
  repeat (destruct Hin as [<-|Hin]; [destruct isMinorKey; reflexivity|]).
  contradiction.
Qed.

Lemma qualityOptions_hinted isMinorKey g hint :
  In g DOMINANT_DEGREES -> hint <> "" ->
  qualityOptions isMinorKey g (Some hint) = hinted_options isMinorKey hint.
Proof.
  intros Hin Hne. unfold qualityOptions.
  rewrite (functionOptions_dominant _ _ Hin).
  destruct hint as [|c hint]; [congruence|]. cbn [truthy_str andb].
  unfold hinted_options, resolves_to_minor.
  rewrite includes_decide, eqb_decide, (Bool.andb_comm isMinorKey).
  reflexivity.
Qed.

(** Whatever the degree, the hint and the mode, the option list is one of
    the ten lists of the realizer. *)
Lemma qualityOptions_list isMinorKey g hint :
  In (qualityOptions isMinorKey g hint) OPTION_LISTS.
Proof.
  unfold qualityOptions, functionOptions.
  repeat match goal with
         | |- context [if ?b then _ else _] => destruct b
         | |- context [match ?h with Some _ => _ | None => _ end] => destruct h
         end; cbn; tauto.
Qed.

Lemma qualityOptions_nonempty isMinorKey g hint :
  (0 < List.length (qualityOptions isMinorKey g hint))%nat.
Proof.
  pose proof (qualityOptions_list isMinorKey g hint) as H. cbn in H.
  repeat (destruct H as [<-|H]; [cbn; lia|]). contradiction.
Qed.

(** The index arithmetic of the complexity-weighted pick. *)
Lemma pick_index (c r : Qc) (last : Z) :
  0 ≤ c -> 0 ≤ r -> r < 1 -> (0 <= last)%Z ->
  (0 <= Z.min (Math_floor (r * num (Math_floor (1 + num last * c)))) last <= last)%Z.
Proof.
  intros Hc Hr0 Hr1 Hl.
  assert (1 <= Math_floor (1 + num last * c))%Z as Hmax.
  { rewrite <- (floor_num 1) at 1. unfold Math_floor.
    apply Qfloor_resp_le.
    change (num 1 ≤ 1 + num last * c).
    rewrite <- (Qcplus_0_r (num 1)).
    apply Qcplus_le_compat; [apply Qcle_refl|].
    apply Qcmult_nonneg_nonneg; [now apply num_nonneg|exact Hc]. }
  assert (0 < Math_floor (1 + num last * c))%Z as Hpos by lia.
  pose proof (floor_scaled r _ Hr0 Hr1 Hpos). lia.
Qed.

Lemma getChordQuality_eq g hint w :
  getChordQuality g hint w
  = let options := qualityOptions (is_mode "minor" (currentKey (engine w))) g hint in
    let last := (Z.of_nat (List.length options) - 1)%Z in
    let maxIndex := Math_floor (1 + num last * complexity (settings (engine w))) in
    let index := Math_floor (next_random w * num maxIndex) in
    Ok (at_index options (Z.min index last)) (after_draws 1 w).
Proof. reflexivity. Qed.

(** Every quality chosen is a member of the option list. *)
Lemma getChordQuality_member g hint w q w' :
  getChordQuality g hint w = Ok (Some q) w' ->
  In q (qualityOptions (is_mode "minor" (currentKey (engine w))) g hint).
Proof.
  rewrite getChordQuality_eq. cbv zeta. intros [= E _].
  unfold at_index in E. destruct (_ <? 0)%Z; [discriminate|].
  apply list_elem_of_In. eapply list_elem_of_lookup_2. exact E.
Qed.

(** With a complexity that is not negative, a quality is chosen. *)
Lemma getChordQuality_returns g hint w :
  0 ≤ complexity (settings (engine w)) ->
  exists q, getChordQuality g hint w = Ok (Some q) (after_draws 1 w).
Proof.
  intros Hc. rewrite getChordQuality_eq. cbv zeta.
  pose proof (qualityOptions_nonempty (is_mode "minor" (currentKey (engine w)))
                g hint) as Hne.
  destruct (random_bounds w) as [Hr0 Hr1].
  edestruct (at_index_Some
               (qualityOptions (is_mode "minor" (currentKey (engine w))) g hint))
    as (q & -> & _); [|eexists; reflexivity].
  pose proof (pick_index _ _ (Z.of_nat (List.length
     (qualityOptions (is_mode "minor" (currentKey (engine w))) g hint)) - 1)
     Hc Hr0 Hr1 ltac:(lia)) as H.
  split; [apply H|]. lia.
Qed.

(** C6. For a dominant-function degree (V, II, III, VI, #IV) and a hint
    that is a degree token (a non-empty string), the option list is the
    darker [dominantToMinor] when the hint is one of ii, iii, vi, i, iv, v
    or is I in a minor key, and the brighter [dominantToMajor] otherwise;
    the quality that [getChordQuality] returns is a member of that list,
    and one is returned whenever the complexity is in [0,1].  V with
    hint I in a major key uses the brighter list, V with hint vi the
    darker one. *)
Theorem dominant_quality_follows_hint :
  (forall isMinorKey g hint,
     In g DOMINANT_DEGREES -> hint <> "" ->
     qualityOptions isMinorKey g (Some hint)
     = if bool_decide (hint ∈ ["ii"; "iii"; "vi"; "i"; "iv"; "v"])
          || (bool_decide (hint = "I") && isMinorKey)
       then QUALITY_OPTIONS.dominantToMinor
       else QUALITY_OPTIONS.dominantToMajor)
  ∧ (forall w g hint q w',
       In g DOMINANT_DEGREES -> hint <> "" ->
       getChordQuality g (Some hint) w = Ok (Some q) w' ->
       In q (hinted_options (is_mode "minor" (currentKey (engine w))) hint))
  ∧ (forall w g hint,
       In g DOMINANT_DEGREES -> hint <> "" ->
       0 ≤ complexity (settings (engine w)) ->
       complexity (settings (engine w)) ≤ 1 ->
       exists q, getChordQuality g (Some hint) w = Ok (Some q) (after_draws 1 w)
                 ∧ In q (hinted_options (is_mode "minor" (currentKey (engine w))) hint))
  ∧ qualityOptions false "V" (Some "I") = QUALITY_OPTIONS.dominantToMajor
  ∧ qualityOptions false "V" (Some "vi") = QUALITY_OPTIONS.dominantToMinor
  ∧ qualityOptions true "V" (Some "I") = QUALITY_OPTIONS.dominantToMinor.
Proof.
  split; [exact qualityOptions_hinted|].
  split.
  { intros w g hint q w' Hin Hne E.
    rewrite <- (qualityOptions_hinted _ g hint Hin Hne).
    eapply getChordQuality_member, E. }
  split.
  { intros w g hint Hin Hne Hc _.
    destruct (getChordQuality_returns g (Some hint) w Hc) as (q & E).
    exists q. split; [exact E|].
    rewrite <- (qualityOptions_hinted _ g hint Hin Hne).
    eapply getChordQuality_member, E. }
  repeat split; reflexivity.
Qed.

Lemma dominant_quality_follows_hint_witness :
  In "V" DOMINANT_DEGREES ∧ "vi" <> ""
  ∧ 0 ≤ complexity (settings (engine sample_world))
  ∧ complexity (settings (engine sample_world)) ≤ 1
  ∧ qualityOptions false "V" (Some "vi") = QUALITY_OPTIONS.dominantToMinor
  ∧ exists q, getChordQuality "V" (Some "vi") sample_world
              = Ok (Some q) (after_draws 1 sample_world)
              ∧ In q QUALITY_OPTIONS.dominantToMinor.
Proof.
  pose proof dominant_quality_follows_hint as (H1 & _ & H3 & _).
  assert (In "V" DOMINANT_DEGREES) as Hin by (cbn; tauto).
  assert ("vi" <> "") as Hne by discriminate.
  assert (0 ≤ complexity (settings (engine sample_world))) as Hc
      by (vm_compute; discriminate).
  assert (complexity (settings (engine sample_world)) ≤ 1) as Hc1
      by (vm_compute; discriminate).
  split; [exact Hin|]. split; [exact Hne|]. split; [exact Hc|].
  split; [exact Hc1|].
  split; [exact (H1 false "V" "vi" Hin Hne)|].
  exact (H3 sample_world "V" "vi" Hin Hne Hc Hc1).
Defined.

(** ** Display names *)

(** A rule whose pattern does not occur leaves the string as it is. *)
Lemma replace_eq pat rep s :
  replace pat rep s
  = if startsWith s pat then rep +:+ slice (String.length pat) s
    else match s with
         | EmptyString => EmptyString
         | String c s' => String c (replace pat rep s')
         end.
Proof. destruct s; reflexivity. Qed.

Lemma occurs_eq pat s :
  occurs pat s
  = startsWith s pat || match s with
                        | EmptyString => false
                        | String _ s' => occurs pat s'
                        end.
Proof. destruct s; reflexivity. Qed.

Lemma replace_absent pat rep s : occurs pat s = false -> replace pat rep s = s.
Proof.
  induction s as [|c s IH]; rewrite occurs_eq, replace_eq;
    destruct (startsWith _ pat); simpl; intros H; try discriminate H.
  - reflexivity.
  - now rewrite IH.
Qed.

(** The chain of replacements only rewrites with the rules that
    [rules_applied] lists. *)
Lemma rules_applied_nil rules q :
  rules_applied rules q = [] ->
  fold_left (fun q rule => replace rule.1 rule.2 q) rules q = q.
Proof.
  revert q. induction rules as [|[pat rep] rules IH]; intros q; simpl.
  - reflexivity.
  - destruct (occurs pat q) eqn:E; [discriminate|].
    intros H. rewrite replace_absent by exact E. now apply IH.
Qed.

(** C7 does not hold as it is stated: [maj7#11] is in the vocabulary
    (it is the last option of the tonic list) and two rules of the chain
    rewrite it, [maj7] and then [7#11]. *)
Lemma one_rule_per_token_counterexample :
  In "maj7#11" quality_vocabulary
  ∧ rules_applied qualityReplacements "maj7#11" = ["maj7"; "7#11"]
  ∧ ~ (forall q, In q quality_vocabulary ->
         List.length (rules_applied qualityReplacements q) = 1%nat).
Proof.
  assert (In "maj7#11" quality_vocabulary) as Hin by (cbn; tauto).
  split; [exact Hin|]. split; [reflexivity|].
  intros H. specialize (H "maj7#11" Hin). discriminate H.
Qed.

(** C7, amended. [formatChordName] is a function of the quality: it
    returns the one string that the chain of replacements computes.  On
    the vocabulary, [maj7#11] is rewritten by two rules ([maj7], then
    [7#11]) to [Δ7♯11], [m69] by two rules ([m6], then [69]) to [-6/9];
    [6], [7], [9], [13], [sus4] and [ø7] match no rule and are displayed
    as they are; every other token is rewritten by exactly one rule.
    [m7b5] yields [ø7], neither [-7b5] nor [ø7b5]. *)
Theorem quality_formatting :
  (forall root q w,
     formatChordName root (Some q) w = Ok (root, formatQuality q) w)
  ∧ (forall q, In q quality_vocabulary ->
       (q = "maj7#11"
        ∧ rules_applied qualityReplacements q = ["maj7"; "7#11"]
        ∧ formatQuality q = "Δ7♯11")
       ∨ (q = "m69"
          ∧ rules_applied qualityReplacements q = ["m6"; "69"]
          ∧ formatQuality q = "-6/9")
       ∨ (In q ["6"; "7"; "9"; "13"; "sus4"; "ø7"]
          ∧ rules_applied qualityReplacements q = []
          ∧ formatQuality q = q)
       ∨ List.length (rules_applied qualityReplacements q) = 1%nat)
  ∧ map formatQuality
        ["maj7"; "maj9"; "6"; "69"; "maj7#11"; "7"; "m7"; "9"; "13"; "7#11";
         "7alt"; "7b9"; "7#9"; "sus4"; "m9"; "m11"; "m6"; "m69"; "m7b5"; "ø7"]
    = ["Δ7"; "Δ9"; "6"; "6/9"; "Δ7♯11"; "7"; "-7"; "9"; "13"; "7♯11";
       "7alt"; "7♭9"; "7♯9"; "sus4"; "-9"; "-11"; "-6"; "-6/9"; "ø7"; "ø7"]
  ∧ rules_applied qualityReplacements "m7b5" = ["m7b5"]
  ∧ formatQuality "m7b5" = "ø7"
  ∧ formatQuality "m7b5" <> "-7b5"
  ∧ formatQuality "m7b5" <> "ø7b5".
Proof.
  split; [reflexivity|].
  split.
  { intros q Hin. cbn in Hin.
    repeat (destruct Hin as [<-|Hin];
            [first [ left; repeat split; reflexivity
                   | right; left; repeat split; reflexivity
                   | right; right; left;
                     split; [cbn; tauto|split; reflexivity]
                   | right; right; right; reflexivity ]|]).
    contradiction. }
  split; [reflexivity|].
  split; [reflexivity|].
  split; [reflexivity|].
  split; discriminate.
Qed.

Lemma quality_formatting_witness :
  In "m7b5" quality_vocabulary
  ∧ List.length (rules_applied qualityReplacements "m7b5") = 1%nat.
Proof.
  assert (In "m7b5" quality_vocabulary) as Hin by (cbn; tauto).
  split; [exact Hin|].
  pose proof quality_formatting as (_ & H & _).
  destruct (H "m7b5" Hin) as [(E & _)|[(E & _)|[(E & _)|E]]].
  - discriminate E.
  - discriminate E.
  - exfalso. cbn in E. repeat (destruct E as [E|E]; [discriminate E|]).
    exact E.
  - exact E.
Defined.

(** ** Objects *)

Lemma prop_None {V} (o : list (string * V)) k : prop o k = None <-> k ∉ o.*1.
Proof.
  induction o as [|[k' v] o IH]; cbn [prop].
  - split; [intros _; apply not_elem_of_nil|reflexivity].
  - rewrite fmap_cons, not_elem_of_cons. cbn [fst].
    destruct (String.eqb_spec k' k) as [->|N].
    + split; [discriminate|]. intros [H _]. congruence.
    + rewrite IH. split; [intros H; split; [congruence|exact H]|tauto].
Qed.

Lemma prop_In {V} (o : list (string * V)) k v : prop o k = Some v -> (k, v) ∈ o.
Proof.
  induction o as [|[k' v'] o IH]; simpl; [discriminate|].
  destruct (String.eqb_spec k' k) as [->|N].
  - intros [= ->]. apply list_elem_of_here.
  - intros H. apply list_elem_of_further. now apply IH.
Qed.

Lemma assign_fresh {V} (o : list (string * V)) k v :
  prop o k = None -> assign o k v = o ++ [(k, v)].
Proof.
  induction o as [|[k' v'] o IH]; simpl; [reflexivity|].
  destruct (String.eqb k' k); [discriminate|]. intros H. now rewrite IH.
Qed.

(** Writing a property that exists changes its value, in place. *)
Lemma assign_present {V} (o : list (string * V)) k v :
  is_object o -> prop o k <> None ->
  assign o k v = map (fun kv => if String.eqb kv.1 k then (kv.1, v) else kv) o.
Proof.
  unfold is_object. induction o as [|[k' v'] o IH]; simpl; [congruence|].
  intros Hnd H. apply list.NoDup_cons in Hnd as [Hnin Hnd].
  destruct (String.eqb_spec k' k) as [->|N].
  - f_equal. symmetry. erewrite map_ext_in; [apply map_id|].
    intros [k1 v1] Hin. simpl.
    destruct (String.eqb_spec k1 k) as [->|_]; [|reflexivity].
    exfalso. apply Hnin. apply list_elem_of_fmap.
    exists (k, v1). split; [reflexivity|now apply list_elem_of_In].
  - f_equal. now apply IH.
Qed.

Lemma prop_app_fresh {V} (o : list (string * V)) k v k' :
  prop (o ++ [(k, v)]) k' = match prop o k' with
                            | Some x => Some x
                            | None => if String.eqb k k' then Some v else None
                            end.
Proof.
  induction o as [|[k1 v1] o IH]; simpl.
  - reflexivity.
  - destruct (String.eqb k1 k'); [reflexivity|exact IH].
Qed.

(** Building an object property by property, from entries with distinct
    keys. *)
Lemma fold_assign {V W} (g : W -> V) (d : list (string * W)) acc :
  is_object d -> (forall k, k ∈ d.*1 -> prop acc k = None) ->
  fold_left (fun o kw => assign o kw.1 (g kw.2)) d acc
  = acc ++ map (fun kw => (kw.1, g kw.2)) d.
Proof.
  unfold is_object. revert acc.
  induction d as [|[k w] d IH]; intros acc Hnd Hfresh; simpl.
  - now rewrite app_nil_r.
  - apply list.NoDup_cons in Hnd as [Hnin Hnd].
    rewrite assign_fresh by (apply Hfresh; apply list_elem_of_here).
    rewrite IH; [now rewrite <- app_assoc|exact Hnd|].
    intros k' Hin. rewrite prop_app_fresh.
    rewrite Hfresh by (now apply list_elem_of_further).
    destruct (String.eqb_spec k k') as [->|_]; [|reflexivity].
    contradiction.
Qed.

(** ** The store *)

Lemma world_eta w : mkWorld (engine w) (heap w) (entropy w) (drawn w) = w.
Proof. now destruct w. Qed.

Lemma setProp_eq a k v w obj :
  heap w !! a = Some obj ->
  setProp a k v w = Ok tt (with_heap (<[a := assign obj k v]> (heap w)) w).
Proof. intros H. unfold setProp. now rewrite H. Qed.

Lemma readObj_eq a w obj : heap w !! a = Some obj -> readObj a w = Ok obj w.
Proof. intros H. unfold readObj. now rewrite H. Qed.

(** A loop whose body rewrites the object at [a] by [step] leaves that
    object folded over the list, and nothing else changed. *)
Lemma forEach_object {A} (l : list A) (body : A -> M unit)
    (step : Dist -> A -> Dist) a :
  (forall x w obj, heap w !! a = Some obj ->
     body x w = Ok tt (with_heap (<[a := step obj x]> (heap w)) w)) ->
  forall w obj, heap w !! a = Some obj ->
    forEach l body w
    = Ok tt (with_heap (<[a := fold_left step l obj]> (heap w)) w).
Proof.
  intros Hbody. induction l as [|x l IH]; intros w obj H; simpl.
  - unfold ret, with_heap. rewrite list_insert_id by exact H.
    now rewrite world_eta.
  - erewrite bind_ok; [|apply Hbody; exact H].
    erewrite IH.
    + unfold with_heap. cbn [engine heap entropy drawn].
      now rewrite list_insert_insert_eq.
    + cbn [with_heap heap]. apply list_lookup_insert_eq.
      eapply lookup_lt_Some, H.
Qed.

Lemma fresh_cell (h : Heap) d : (h ++ [d]) !! List.length h = Some d.
Proof. now apply list_lookup_middle. Qed.

Lemma old_cell (h : Heap) d l x : h !! l = Some x -> (h ++ [d]) !! l = Some x.
Proof.
  intros H. rewrite lookup_app_l; [exact H|]. eapply lookup_lt_Some, H.
Qed.

Lemma fill_fresh_cell (h : Heap) d x : <[List.length h := x]> (h ++ [d]) = h ++ [x].
Proof.
  rewrite insert_app_r_alt by lia. now rewrite Nat.sub_diag.
Qed.

(** ** The adventurousness pass *)

Lemma adjustForAdventurousness_eq l w d :
  heap w !! l = Some d -> is_object d ->
  adjustForAdventurousness l w
  = Ok (List.length (heap w))
       (with_heap (heap w ++ [blend (adventurousness (settings (engine w))) d]) w).
Proof.
  intros Hl Hd. unfold adjustForAdventurousness, bind, get_engine, newObj.
  cbn [engine heap entropy drawn].
  erewrite readObj_eq; [|cbn [heap]; apply old_cell; exact Hl].
  erewrite (forEach_object d _
              (fun o dp => assign o dp.1
                 (dp.2 * (1 - adventurousness (settings (engine w)))
                  + 1 / num (Z.of_nat (List.length d))
                    * adventurousness (settings (engine w))))
              (List.length (heap w))).
  - unfold with_heap. cbn [engine heap entropy drawn].
    rewrite fill_fresh_cell.
    rewrite (fold_assign
               (fun p => p * (1 - adventurousness (settings (engine w)))
                         + 1 / num (Z.of_nat (List.length d))
                           * adventurousness (settings (engine w))) d []);
      [reflexivity|exact Hd|reflexivity].
  - intros x w0 obj H. now apply setProp_eq.
  - cbn [heap]. apply fresh_cell.
Qed.

Lemma blend_0 d : blend 0 d = d.
Proof.
  unfold blend. erewrite map_ext; [apply map_id|].
  intros [k p]. simpl. f_equal. ring.
Qed.

Lemma blend_1 d :
  blend 1 d = map (fun kw => (kw.1, 1 / num (Z.of_nat (List.length d)))) d.
Proof.
  unfold blend. apply map_ext. intros [k p]. simpl. f_equal. ring.
Qed.

(** C4. The pass returns a new object with the keys of its input, in the
    same order, in which the weight [p] of each of the [N] entries has
    become [p * (1 - a) + (1 / N) * a]; at [a = 0] the new object has the
    properties of the input, at [a = 1] every weight is [1 / N], [N] being
    the number of entries of the input. *)
Theorem adventurousness_blend (w : World) (l : nat) (d : Dist) :
  heap w !! l = Some d -> is_object d ->
  let a := adventurousness (settings (engine w)) in
  let N := num (Z.of_nat (List.length d)) in
  adjustForAdventurousness l w
  = Ok (List.length (heap w))
       (with_heap (heap w ++ [map (fun kp => (kp.1, kp.2 * (1 - a) + (1 / N) * a)) d])
                  w)
  ∧ (a = 0 -> map (fun kp => (kp.1, kp.2 * (1 - a) + (1 / N) * a)) d = d)
  ∧ (a = 1 -> map (fun kp => (kp.1, kp.2 * (1 - a) + (1 / N) * a)) d
              = map (fun kp => (kp.1, 1 / N)) d).
Proof.
  intros Hl Hd a N. split; [|split].
  - exact (adjustForAdventurousness_eq l w d Hl Hd).
  - intros ->. apply blend_0.
  - intros ->. apply blend_1.
Qed.

Lemma adventurousness_blend_witness :
  heap cautious_world !! 0%nat = Some tonic_major
  ∧ is_object tonic_major
  ∧ adjustForAdventurousness 0 cautious_world
    = Ok 39%nat (with_heap (static_heap ++ [tonic_major]) cautious_world)
  ∧ adjustForAdventurousness 0 adventurous_world
    = Ok 39%nat (with_heap (static_heap ++ [map (fun kp => (kp.1, 1 / num 10)) tonic_major])
                           adventurous_world).
Proof.
  assert (heap cautious_world !! 0%nat = Some tonic_major) as Hl by reflexivity.
  assert (is_object tonic_major) as Hd by (unfold is_object; compute_done).
  split; [exact Hl|]. split; [exact Hd|].
  destruct (adventurousness_blend cautious_world 0 tonic_major Hl Hd)
    as (E0 & Z0 & _).
  destruct (adventurousness_blend adventurous_world 0 tonic_major Hl Hd)
    as (E1 & _ & U1).
  split.
  - rewrite E0. rewrite (Z0 eq_refl). reflexivity.
  - rewrite E1. rewrite (U1 eq_refl). reflexivity.
Defined.

(** ** The anti-repetition pass *)

Lemma prop_assign {V} (o : list (string * V)) k v k' :
  prop (assign o k v) k' = if String.eqb k k' then Some v else prop o k'.
Proof.
  induction o as [|[k1 v1] o IH]; simpl.
  - destruct (String.eqb k k'); reflexivity.
  - destruct (String.eqb_spec k1 k) as [->|N]; simpl.
    + destruct (String.eqb k k'); reflexivity.
    + destruct (String.eqb_spec k1 k') as [->|N'].
      * destruct (String.eqb_spec k k'); [congruence|reflexivity].
      * exact IH.
Qed.

Lemma is_object_assign {V} (o : list (string * V)) k v :
  is_object o -> is_object (assign o k v).
Proof.
  unfold is_object. induction o as [|[k1 v1] o IH]; simpl; intros Hnd.
  - apply NoDup_singleton.
  - apply list.NoDup_cons in Hnd as [Hnin Hnd].
    destruct (String.eqb_spec k1 k) as [->|N]; simpl.
    + apply list.NoDup_cons. split; assumption.
    + apply list.NoDup_cons. split; [|now apply IH].
      apply prop_None. rewrite prop_assign.
      destruct (String.eqb_spec k k1); [congruence|]. now apply prop_None.
Qed.

Lemma occurrences_cons x d l :
  occurrences x (d :: l)
  = ((if String.eqb d x then 1 else 0) + occurrences x l)%nat.
Proof.
  unfold occurrences. rewrite filter_cons.
  destruct (String.eqb_spec d x) as [->|N].
  - now rewrite decide_True.
  - now rewrite decide_False.
Qed.

Lemma count_fold recent :
  forall acc : list (string * nat),
    is_object acc ->
    let counts :=
      fold_left (fun counts d =>
                   assign counts d (default 0%nat (prop counts d) + 1)%nat)
                recent acc in
    is_object counts
    ∧ forall k, prop counts k
                = match prop acc k, occurrences k recent with
                  | Some n, c => Some (n + c)%nat
                  | None, O => None
                  | None, c => Some c
                  end.
Proof.
  induction recent as [|d recent IH]; intros acc Hacc; cbn zeta.
  - split; [exact Hacc|]. intros k. cbn [fold_left].
    change (occurrences k []) with 0%nat.
    destruct (prop acc k); [f_equal; lia|reflexivity].
  - cbn [fold_left].
    destruct (IH (assign acc d (default 0%nat (prop acc d) + 1)%nat)
                 (is_object_assign _ _ _ Hacc)) as [Hobj Hprop].
    split; [exact Hobj|]. intros k. rewrite Hprop, prop_assign.
    rewrite occurrences_cons.
    destruct (String.eqb_spec d k) as [->|N].
    + 
      destruct (prop acc k); unfold default, from_option, id; cbn [Nat.add];
        f_equal; lia.
    + destruct (prop acc k); reflexivity.
Qed.

Lemma count_recent_object recent : is_object (count_recent recent).
Proof. apply (count_fold recent []). apply NoDup_nil_2. Qed.

Lemma count_recent_prop recent k :
  prop (count_recent recent) k
  = match occurrences k recent with
    | O => None
    | c => Some c
    end.
Proof.
  destruct (count_fold recent [] (NoDup_nil_2)) as [_ H]. exact (H k).
Qed.

(** The truthiness test of the loop changes nothing: a weight that is
    falsy is [0], and so is its product. *)
Lemma penalty_guard c weight :
  (if (3 <=? c)%nat && truthy weight then weight * pct 30
   else if (2 <=? c)%nat && truthy weight then weight * pct 70
   else weight)
  = penalized c weight.
Proof.
  unfold penalized, truthy. case_bool_decide as Hz; cbn [negb].
  - subst weight. rewrite !andb_false_r.
    destruct (3 <=? c)%nat; [ring|]. destruct (c =? 2)%nat; [ring|reflexivity].
  - rewrite !andb_true_r. destruct (Nat.leb_spec 3 c); [reflexivity|].
    destruct (Nat.leb_spec 2 c), (Nat.eqb_spec c 2); try reflexivity; lia.
Qed.

Lemma prop_unique {V} (o : list (string * V)) k v :
  is_object o -> (k, v) ∈ o -> prop o k = Some v.
Proof.
  unfold is_object. induction o as [|[k1 v1] o IH]; simpl; intros Hnd Hin.
  - now apply elem_of_nil in Hin.
  - apply list.NoDup_cons in Hnd as [Hnin Hnd].
    apply elem_of_cons in Hin as [[= <- <-]|Hin].
    + now rewrite String.eqb_refl.
    + destruct (String.eqb_spec k1 k) as [->|N]; [|now apply IH].
      exfalso. apply Hnin. apply list_elem_of_fmap. now exists (k, v).
Qed.

Lemma penalty_step_map o k c :
  is_object o ->
  penalty_step o (k, c)
  = map (fun kv => if String.eqb kv.1 k then (kv.1, penalized c kv.2) else kv) o.
Proof.
  intros Hobj. unfold penalty_step. cbn [fst snd].
  destruct (prop o k) as [weight|] eqn:E.
  - assert (forall v, (k, v) ∈ o -> v = weight) as Huniq.
    { intros v Hin. apply (prop_unique _ _ _ Hobj) in Hin. congruence. }
    pose proof (penalty_guard c weight) as G.
    assert (map (fun kv => if String.eqb kv.1 k
                           then (kv.1, penalized c weight) else kv) o
            = map (fun kv => if String.eqb kv.1 k
                             then (kv.1, penalized c kv.2) else kv) o) as Hm.
    { apply map_ext_in. intros [k1 v1] Hin. cbn [fst snd].
      destruct (String.eqb_spec k1 k) as [->|_]; [|reflexivity].
      now rewrite (Huniq v1) by (now apply list_elem_of_In). }
    rewrite <- Hm, <- G.
    destruct ((3 <=? c)%nat && truthy weight);
      [apply assign_present; [exact Hobj|congruence]|].
    destruct ((2 <=? c)%nat && truthy weight);
      [apply assign_present; [exact Hobj|congruence]|].
    symmetry. erewrite map_ext_in; [apply map_id|].
    intros [k1 v1] Hin. cbn [fst snd].
    destruct (String.eqb_spec k1 k) as [->|_]; [|reflexivity].
    now rewrite (Huniq v1) by (now apply list_elem_of_In).
  - symmetry. erewrite map_ext_in; [apply map_id|].
    intros [k1 v1] Hin. cbn [fst snd].
    destruct (String.eqb_spec k1 k) as [->|_]; [|reflexivity].
    exfalso. apply prop_None in E. apply E. apply list_elem_of_fmap.
    exists (k, v1). split; [reflexivity|now apply list_elem_of_In].
Qed.

Lemma map_keys {V} (f : string * V -> string * V) (o : list (string * V)) :
  (forall kv, (f kv).1 = kv.1) -> (map f o).*1 = o.*1.
Proof.
  intros H. induction o as [|kv o IH]; [reflexivity|].
  cbn [map]. rewrite !fmap_cons. now rewrite H, IH.
Qed.

Lemma fold_penalty cs :
  forall o : Dist,
    is_object cs -> is_object o ->
    fold_left penalty_step cs o
    = map (fun kv => (kv.1, match prop cs kv.1 with
                            | Some c => penalized c kv.2
                            | None => kv.2
                            end)) o.
Proof.
  induction cs as [|[k c] cs IH]; intros o Hcs Ho.
  - simpl. symmetry. erewrite map_ext; [apply map_id|]. now intros [k v].
  - unfold is_object in Hcs. cbn [fmap list_fmap fst] in Hcs.
    apply list.NoDup_cons in Hcs as [Hnin Hcs].
    cbn [fold_left]. rewrite penalty_step_map by exact Ho.
    rewrite IH; [|exact Hcs|].
    + rewrite map_map. apply map_ext. intros [k1 v1]. cbn [fst snd prop].
      rewrite (String.eqb_sym k k1).
      destruct (String.eqb_spec k1 k) as [->|N]; cbn [fst snd].
      * apply prop_None in Hnin. now rewrite Hnin.
      * reflexivity.
    + unfold is_object. rewrite map_keys; [exact Ho|].
      intros [k1 v1]. cbn [fst]. now destruct (String.eqb k1 k).
Qed.

Lemma penalty_body_eq a dc w obj :
  heap w !! a = Some obj ->
  (now <- readObj a ;;
   match prop now dc.1 with
   | Some weight =>
       if (3 <=? dc.2)%nat && truthy weight
       then setProp a dc.1 (weight * pct 30)
       else if (2 <=? dc.2)%nat && truthy weight
       then setProp a dc.1 (weight * pct 70)
       else ret tt
   | None => ret tt
   end) w
  = Ok tt (with_heap (<[a := penalty_step obj dc]> (heap w)) w).
Proof.
  intros H. erewrite bind_ok; [|apply readObj_eq; exact H].
  unfold penalty_step.
  assert (ret tt w = Ok tt (with_heap (<[a := obj]> (heap w)) w)) as Hskip.
  { unfold ret, with_heap. rewrite list_insert_id by exact H.
    now rewrite world_eta. }
  destruct (prop obj dc.1) as [weight|]; [|exact Hskip].
  destruct ((3 <=? dc.2)%nat && truthy weight); [now apply setProp_eq|].
  destruct ((2 <=? dc.2)%nat && truthy weight); [now apply setProp_eq|].
  exact Hskip.
Qed.

Lemma applyAntiRepetition_skip l w :
  (List.length (recentDegrees (engine w)) < 3)%nat ->
  applyAntiRepetition l w = Ok l w.
Proof.
  intros H. unfold applyAntiRepetition, bind, get_engine.
  apply Nat.ltb_lt in H. now rewrite H.
Qed.

Lemma applyAntiRepetition_eq l w d :
  heap w !! l = Some d -> is_object d ->
  (3 <= List.length (recentDegrees (engine w)))%nat ->
  applyAntiRepetition l w
  = Ok (List.length (heap w))
       (with_heap (heap w ++ [penalize (recentDegrees (engine w)) d]) w).
Proof.
  intros Hl Hd Hn. unfold applyAntiRepetition, bind at 1, get_engine.
  apply Nat.ltb_ge in Hn. rewrite Hn.
  erewrite bind_ok; [|apply readObj_eq; exact Hl].
  unfold bind at 1, newObj.
  erewrite bind_ok.
  2:{ apply (forEach_object _ _ penalty_step (List.length (heap w))).
      - intros x w0 obj H. now apply penalty_body_eq.
      - cbn [heap]. apply fresh_cell. }
  unfold ret, with_heap. cbn [engine heap entropy drawn].
  rewrite fill_fresh_cell.
  rewrite fold_penalty by (exact Hd || apply count_recent_object).
  do 4 f_equal. unfold penalize. apply map_ext. intros [k v]. cbn [fst snd].
  rewrite count_recent_prop.
  destruct (occurrences k (recentDegrees (engine w))); reflexivity.
Qed.

(** ** The window of recent degrees *)

#[global] Instance same_recent_preorder : PreOrder same_recent.
Proof.
  split.
  - intros w. reflexivity.
  - intros a b c H1 H2. unfold same_recent in *. congruence.
Qed.

Lemma recent_Math_random : respects same_recent Math_random.
Proof. intros w x w' [= _ <-]. reflexivity. Qed.

Lemma recent_modify f :
  (forall e, recentDegrees (f e) = recentDegrees e) ->
  respects same_recent (modify f).
Proof. intros H w x w' [= _ <-]. apply H. Qed.

Lemma recent_newObj d : respects same_recent (newObj d).
Proof. intros w x w' [= _ <-]. reflexivity. Qed.

Lemma recent_setProp l k v : respects same_recent (setProp l k v).
Proof.
  intros w x w'. unfold setProp. destruct (heap w !! l); [|discriminate].
  intros [= _ <-]. reflexivity.
Qed.

#[global] Hint Resolve recent_Math_random recent_newObj recent_setProp : frame.
#[global] Hint Extern 1 (respects same_recent (modify _)) =>
  apply recent_modify; intros ?; reflexivity : frame.

Lemma recent_maybeModulate : respects same_recent maybeModulate.
Proof. unfold maybeModulate. frame. Qed.

Lemma recent_getNextDegree : respects same_recent getNextDegree.
Proof. unfold getNextDegree. frame. Qed.

(** A chord slot pushes the degree it drew on the window and drops the
    oldest entry when there are more than 8. *)
Lemma chordSlot_window w g w' :
  chordSlot w = Ok g w' ->
  recentDegrees (engine w')
  = let pushed := recentDegrees (engine w) ++ [g] in
    if (8 <? List.length pushed)%nat then tail pushed else pushed.
Proof.
  unfold chordSlot, bind.
  destruct (maybeModulate w) as [[] w1|] eqn:E1; [|discriminate].
  destruct (getNextDegree w1) as [d w2|] eqn:E2; [|discriminate].
  intros [= <- <-]. cbn.
  apply recent_maybeModulate in E1. apply recent_getNextDegree in E2.
  unfold same_recent in *. now rewrite E2, E1.
Qed.

Lemma chordSlot_window_bound w g w' :
  chordSlot w = Ok g w' ->
  (List.length (recentDegrees (engine w)) <= 8)%nat ->
  (List.length (recentDegrees (engine w')) <= 8)%nat.
Proof.
  intros E H. rewrite (chordSlot_window w g w' E). cbv zeta.
  destruct (Nat.ltb_spec 8 (List.length (recentDegrees (engine w) ++ [g]))) as [Hgt|Hle].
  - rewrite length_app in Hgt. simpl in Hgt.
    destruct (recentDegrees (engine w)) as [|x rest]; simpl in *; [lia|].
    rewrite length_app. simpl. lia.
  - exact Hle.
Qed.

(** C3. With fewer than 3 degrees in the window the pass returns the
    object it was given, untouched.  Otherwise it returns a new object
    with the keys of its input in which the weight of each degree is
    multiplied by 0.3 when the degree occurs 3 times or more in the
    window, by 0.7 when it occurs exactly twice, and is the input's
    weight when it occurs once or not at all.  The window holds the last
    degrees emitted, 8 at most: each chord slot of [generateBar] pushes
    its degree and drops the oldest entry beyond 8. *)
Theorem anti_repetition_penalty (w : World) (l : nat) (d : Dist) :
  heap w !! l = Some d -> is_object d ->
  let recent := recentDegrees (engine w) in
  ((List.length recent < 3)%nat -> applyAntiRepetition l w = Ok l w)
  ∧ ((3 <= List.length recent)%nat ->
     applyAntiRepetition l w
     = Ok (List.length (heap w))
          (with_heap
             (heap w ++
              [map (fun kp =>
                      (kp.1,
                       if (3 <=? occurrences kp.1 recent)%nat then kp.2 * pct 30
                       else if (occurrences kp.1 recent =? 2)%nat then kp.2 * pct 70
                       else kp.2)) d])
             w))
  ∧ (forall w0 g w1,
       chordSlot w0 = Ok g w1 ->
       recentDegrees (engine w1)
       = (let pushed := recentDegrees (engine w0) ++ [g] in
          if (8 <? List.length pushed)%nat then tail pushed else pushed)
       ∧ ((List.length (recentDegrees (engine w0)) <= 8)%nat ->
          (List.length (recentDegrees (engine w1)) <= 8)%nat)).
Proof.
  intros Hl Hd recent. split; [|split].
  - apply applyAntiRepetition_skip.
  - intros Hn. exact (applyAntiRepetition_eq l w d Hl Hd Hn).
  - intros w0 g w1 E. split.
    + exact (chordSlot_window w0 g w1 E).
    + exact (chordSlot_window_bound w0 g w1 E).
Qed.

Lemma anti_repetition_penalty_witness :
  heap looping_world !! 0%nat = Some tonic_major
  ∧ is_object tonic_major
  ∧ (3 <= List.length (recentDegrees (engine looping_world)))%nat
  ∧ applyAntiRepetition 0 looping_world
    = Ok 39%nat
         (with_heap
            (static_heap ++
             [[("ii", pct 22 * pct 70); ("IV", pct 18); ("V", pct 12 * pct 70);
               ("vi", pct 15); ("iii", pct 10); ("bVII", pct 5); ("bIII", pct 4);
               ("bVI", pct 4); ("II", pct 5); ("I", pct 5 * pct 30)]])
            looping_world)
  ∧ applyAntiRepetition 0 sample_world = Ok 0%nat sample_world.
Proof.
  assert (heap looping_world !! 0%nat = Some tonic_major) as Hl by reflexivity.
  assert (is_object tonic_major) as Hd by (unfold is_object; compute_done).
  assert (3 <= List.length (recentDegrees (engine looping_world)))%nat as Hn
      by (cbn; lia).
  split; [exact Hl|]. split; [exact Hd|]. split; [exact Hn|].
  split.
  - destruct (anti_repetition_penalty looping_world 0 tonic_major Hl Hd)
      as (_ & H & _).
    rewrite (H Hn). reflexivity.
  - destruct (anti_repetition_penalty sample_world 0 tonic_major Hl Hd)
      as (H & _).
    apply H. cbn. lia.
Defined.

(** ** The keys of the second-order table *)

Lemma has_byte_join x y : has_byte arrow_head (x +:+ arrow +:+ y) = true.
Proof.
  induction x as [|a x IH]; simpl.
  - reflexivity.
  - rewrite IH. apply orb_true_r.
Qed.

(** Joining with the arrow is injective on degrees that are free of
    it. *)
Lemma join_inj p c prev cur :
  has_byte arrow_head p = false -> has_byte arrow_head c = false ->
  p +:+ arrow +:+ c = prev +:+ arrow +:+ cur -> p = prev ∧ c = cur.
Proof.
  revert prev. induction p as [|a p IH]; intros prev Hp Hc E.
  - destruct prev as [|b prev].
    + simpl in E. injection E as E. now subst.
    + exfalso. simpl in E. injection E as _ E.
      match type of E with
      | ?l = _ => assert (has_byte arrow_head l = false) as Hl
            by (simpl; exact Hc)
      end.
      rewrite E in Hl. now rewrite has_byte_join in Hl.
  - simpl in Hp. apply orb_false_iff in Hp as [Ha Hp].
    destruct prev as [|b prev].
    + exfalso. simpl in E. injection E as E _. subst a. discriminate Ha.
    + simpl in E. injection E as -> E.
      destruct (IH prev Hp Hc E) as [-> ->]. now split.
Qed.

Lemma join_eqb p c prev cur :
  has_byte arrow_head p = false -> has_byte arrow_head c = false ->
  String.eqb (p +:+ arrow +:+ c) (prev +:+ arrow +:+ cur)
  = String.eqb p prev && String.eqb c cur.
Proof.
  intros Hp Hc.
  destruct (String.eqb_spec (p +:+ arrow +:+ c) (prev +:+ arrow +:+ cur)) as [E|N].
  - destruct (join_inj p c prev cur Hp Hc E) as [-> ->].
    now rewrite !String.eqb_refl.
  - destruct (String.eqb_spec p prev) as [->|]; [|reflexivity].
    destruct (String.eqb_spec c cur) as [->|]; [|reflexivity].
    congruence.
Qed.

(** Looking a joined key up is looking the pair up. *)
Lemma joined_lookup {V} (pairs : list ((string * string) * V)) prev cur :
  Forall (fun e => has_byte arrow_head e.1.1 = false
                   ∧ has_byte arrow_head e.1.2 = false) pairs ->
  prop (map joined pairs) (prev +:+ arrow +:+ cur) = pair_entry pairs prev cur.
Proof.
  induction 1 as [|[[p c] v] pairs [Hp Hc] _ IH]; simpl; [reflexivity|].
  cbn [fst snd] in *. rewrite join_eqb by assumption. now rewrite IH.
Qed.

Lemma override_pairs_joined :
  SECOND_ORDER_OVERRIDES_literal = map joined override_pairs.
Proof. reflexivity. Qed.

Lemma override_lookup prev cur :
  prop SECOND_ORDER_OVERRIDES_literal (prev +:+ arrow +:+ cur)
  = pair_entry override_pairs prev cur.
Proof.
  rewrite override_pairs_joined. apply joined_lookup.
  repeat constructor.
Qed.

(** ** The static tables in the store *)

Lemma refs_from_cons base kv t :
  refs_from base (kv :: t) = (kv.1, base) :: refs_from (S base) t.
Proof.
  unfold refs_from. simpl. rewrite Nat.add_0_r. f_equal.
  apply imap_ext. intros i x _. simpl. f_equal. lia.
Qed.

(** A table maps a key to the cell that holds the key's literal. *)
Lemma refs_from_lookup t : forall base k,
  match prop (refs_from base t) k with
  | Some l => exists i d, l = (base + i)%nat ∧ prop t k = Some d ∧ t.*2 !! i = Some d
  | None => prop t k = None
  end.
Proof.
  induction t as [|[k1 d1] t IH]; intros base k.
  - reflexivity.
  - rewrite refs_from_cons. cbn [prop fst].
    destruct (String.eqb k1 k).
    + exists 0%nat, d1. split; [lia|]. split; reflexivity.
    + specialize (IH (S base) k).
      destruct (prop (refs_from (S base) t) k) as [l|]; [|exact IH].
      destruct IH as (i & d & -> & Hp & Hi).
      exists (S i), d. split; [lia|]. split; [exact Hp|exact Hi].
Qed.

Lemma static_cell h l d :
  tables_intact h -> static_heap !! l = Some d -> h !! l = Some d.
Proof. intros [rest ->] H. now apply lookup_app_l_Some. Qed.

Lemma major_cell k :
  match prop DEGREE_TRANSITIONS k with
  | Some l => exists d, prop DEGREE_TRANSITIONS_literal k = Some d
                        ∧ static_heap !! l = Some d
  | None => prop DEGREE_TRANSITIONS_literal k = None
  end.
Proof.
  unfold DEGREE_TRANSITIONS.
  pose proof (refs_from_lookup DEGREE_TRANSITIONS_literal 0 k) as H.
  destruct (prop (refs_from 0 DEGREE_TRANSITIONS_literal) k) as [l|]; [|exact H].
  destruct H as (i & d & -> & Hp & Hi). exists d. split; [exact Hp|].
  unfold static_heap. now do 2 apply lookup_app_l_Some.
Qed.

Lemma minor_cell k :
  match prop MINOR_DEGREE_TRANSITIONS k with
  | Some l => exists d, prop MINOR_DEGREE_TRANSITIONS_literal k = Some d
                        ∧ static_heap !! l = Some d
  | None => prop MINOR_DEGREE_TRANSITIONS_literal k = None
  end.
Proof.
  unfold MINOR_DEGREE_TRANSITIONS.
  pose proof (refs_from_lookup MINOR_DEGREE_TRANSITIONS_literal
                (List.length DEGREE_TRANSITIONS_literal) k) as H.
  destruct (prop (refs_from _ MINOR_DEGREE_TRANSITIONS_literal) k) as [l|];
    [|exact H].
  destruct H as (i & d & -> & Hp & Hi). exists d. split; [exact Hp|].
  unfold static_heap. apply lookup_app_l_Some.
  rewrite lookup_app_r by (rewrite length_fmap; lia).
  rewrite length_fmap. now replace (_ + i - _)%nat with i by lia.
Qed.

Lemma override_cell k :
  match prop SECOND_ORDER_OVERRIDES k with
  | Some l => exists d, prop SECOND_ORDER_OVERRIDES_literal k = Some d
                        ∧ static_heap !! l = Some d
  | None => prop SECOND_ORDER_OVERRIDES_literal k = None
  end.
Proof.
  unfold SECOND_ORDER_OVERRIDES.
  pose proof (refs_from_lookup SECOND_ORDER_OVERRIDES_literal
                (List.length DEGREE_TRANSITIONS_literal
                 + List.length MINOR_DEGREE_TRANSITIONS_literal) k) as H.
  destruct (prop (refs_from _ SECOND_ORDER_OVERRIDES_literal) k) as [l|];
    [|exact H].
  destruct H as (i & d & -> & Hp & Hi). exists d. split; [exact Hp|].
  unfold static_heap.
  rewrite lookup_app_r by (rewrite length_app, !length_fmap; lia).
  rewrite length_app, !length_fmap. now replace (_ + i - _)%nat with i by lia.
Qed.

Lemma first_order_rule e :
  exists l, firstOrder e = Some l
    ∧ static_heap !! l
      = Some (let mode_table :=
                if bool_decide (mode (currentKey e) = Some "minor")
                then MINOR_DEGREE_TRANSITIONS_literal
                else DEGREE_TRANSITIONS_literal in
              match prop mode_table (currentDegree e) with
              | Some d => d
              | None =>
                  match prop DEGREE_TRANSITIONS_literal (currentDegree e) with
                  | Some d => d
                  | None => default [] (prop DEGREE_TRANSITIONS_literal "I")
                  end
              end).
Proof.
  unfold firstOrder, is_mode. cbv zeta.
  pose proof (major_cell (currentDegree e)) as Hmaj.
  pose proof (minor_cell (currentDegree e)) as Hmin.
  assert (exists l, match prop DEGREE_TRANSITIONS (currentDegree e) with
                    | Some t => Some t
                    | None => prop DEGREE_TRANSITIONS "I"
                    end = Some l
            ∧ static_heap !! l
              = Some match prop DEGREE_TRANSITIONS_literal (currentDegree e) with
                     | Some d => d
                     | None => default [] (prop DEGREE_TRANSITIONS_literal "I")
                     end) as Hfall.
  { destruct (prop DEGREE_TRANSITIONS (currentDegree e)) as [l|].
    - destruct Hmaj as (d & -> & Hd). now exists l.
    - rewrite Hmaj. exists 0%nat. split; reflexivity. }
  case_bool_decide.
  - destruct (prop MINOR_DEGREE_TRANSITIONS (currentDegree e)) as [l|].
    + destruct Hmin as (d & -> & Hd). now exists l.
    + rewrite Hmin. exact Hfall.
  - destruct (prop DEGREE_TRANSITIONS (currentDegree e)) as [l|] eqn:E.
    + destruct Hmaj as (d & Hp & Hd). rewrite Hp. now exists l.
    + rewrite Hmaj in *. exact Hfall.
Qed.

(** The reference selected by the lookups of the code holds the
    distribution of the rule. *)
Lemma selected_rule e :
  exists l, selected e = Some l ∧ static_heap !! l = Some (rule_distribution e).
Proof.
  unfold selected, secondOrder, rule_distribution.
  destruct (previousDegree e) as [prev|]; cbn [from_option].
  - destruct prev as [|a prev].
    + cbn [truthy_str]. apply first_order_rule.
    + cbn [truthy_str]. rewrite <- override_lookup.
      pose proof (override_cell (String a prev +:+ arrow +:+ currentDegree e)) as H.
      destruct (prop SECOND_ORDER_OVERRIDES _) as [l|].
      * destruct H as (d & -> & Hd). now exists l.
      * rewrite H. apply first_order_rule.
  - apply first_order_rule.
Qed.

Lemma static_objects :
  Forall (fun d : Dist => is_object d ∧ (0 < List.length d)%nat) static_heap.
Proof. unfold is_object. compute_done. Qed.

Lemma rule_distribution_object e :
  is_object (rule_distribution e) ∧ (0 < List.length (rule_distribution e))%nat.
Proof.
  destruct (selected_rule e) as (l & _ & Hl).
  pose proof static_objects as H. rewrite Forall_lookup in H.
  exact (H l _ Hl).
Qed.

(** ** The lookahead *)

Lemma getMostProbable_eq l w d :
  heap w !! l = Some d -> getMostProbable (Some l) w = Ok (most_probable d) w.
Proof.
  intros H. unfold getMostProbable. erewrite bind_ok; [|apply readObj_eq, H].
  reflexivity.
Qed.

Lemma peekLikelyNextDegree_eq w :
  tables_intact (heap w) ->
  peekLikelyNextDegree w
  = Ok (most_probable (rule_distribution (engine w))) w.
Proof.
  intros Hw. destruct (selected_rule (engine w)) as (l & Hs & Hl).
  apply (static_cell _ _ _ Hw) in Hl.
  unfold peekLikelyNextDegree, bind, get_engine.
  unfold selected in Hs.
  destruct (secondOrder (engine w)) as [o|].
  - injection Hs as ->. now apply getMostProbable_eq.
  - rewrite Hs. now apply getMostProbable_eq.
Qed.

#[global] Instance unchanged_preorder : PreOrder unchanged.
Proof.
  split.
  - intros w. reflexivity.
  - intros a b c H1 H2. unfold unchanged in *. congruence.
Qed.

Lemma peekLikelyNextDegree_pure : respects unchanged peekLikelyNextDegree.
Proof. unfold peekLikelyNextDegree, getMostProbable. frame. Qed.

(** ** The raw distribution of a transition *)

Lemma spread_selected w :
  tables_intact (heap w) ->
  match secondOrder (engine w) with
  | Some o => spread (Some o)
  | None => spread (firstOrder (engine w))
  end w
  = newObj (rule_distribution (engine w)) w.
Proof.
  intros Hw. destruct (selected_rule (engine w)) as (l & Hs & Hl).
  apply (static_cell _ _ _ Hw) in Hl. unfold selected in Hs.
  assert (spread (Some l) w = newObj (rule_distribution (engine w)) w) as E.
  { unfold spread. erewrite bind_ok; [|apply readObj_eq, Hl]. reflexivity. }
  destruct (secondOrder (engine w)) as [o|].
  - now injection Hs as ->.
  - now rewrite Hs.
Qed.

Lemma getNextDegree_transition w :
  tables_intact (heap w) ->
  approachQueue (engine w) = [] ->
  APPROACH_PROBABILITY ≤ next_random w ->
  getNextDegree w
  = shape_and_draw (rule_distribution (engine w)) (after_draws 1 w).
Proof.
  intros Hw Hq Hr. unfold getNextDegree, bind at 1, get_engine.
  rewrite Hq. change (0 <? List.length [])%nat with false. cbv beta iota.
  unfold bind at 1. rewrite Math_random_eq.
  apply ltb_ge in Hr. rewrite Hr.
  unfold bind at 1, ret. unfold bind at 1, get_engine.
  unfold shape_and_draw.
  unfold bind at 1. unfold bind at 6.
  rewrite (spread_selected (after_draws 1 w) Hw). reflexivity.
Qed.

(** C1. On an empty approach queue and a draw that starts no approach,
    [getNextDegree] shapes and draws from a copy of the distribution that
    the rule names: the second-order entry of (previous, current) when
    there is one, and it alone; otherwise the entry of the current degree
    in the table of the key's mode (minor table in a minor key, major
    table otherwise), else its entry in the major table, else the major
    table's entry of I. *)
Theorem raw_distribution_rule (w : World) :
  tables_intact (heap w) ->
  approachQueue (engine w) = [] ->
  APPROACH_PROBABILITY ≤ next_random w ->
  getNextDegree w
  = shape_and_draw (rule_distribution (engine w)) (after_draws 1 w)
  ∧ (exists l, selected (engine w) = Some l
               ∧ heap w !! l = Some (rule_distribution (engine w)))
  ∧ (forall prev override,
       previousDegree (engine w) = Some prev ->
       pair_entry override_pairs prev (currentDegree (engine w)) = Some override ->
       rule_distribution (engine w) = override)
  ∧ ((forall prev, previousDegree (engine w) = Some prev ->
        pair_entry override_pairs prev (currentDegree (engine w)) = None) ->
     rule_distribution (engine w)
     = match prop (if bool_decide (mode (currentKey (engine w)) = Some "minor")
                   then MINOR_DEGREE_TRANSITIONS_literal
                   else DEGREE_TRANSITIONS_literal)
                  (currentDegree (engine w)) with
       | Some d => d
       | None =>
           match prop DEGREE_TRANSITIONS_literal (currentDegree (engine w)) with
           | Some d => d
           | None => tonic_major
           end
       end).
Proof.
  intros Hw Hq Hr. split; [now apply getNextDegree_transition|].
  split.
  { destruct (selected_rule (engine w)) as (l & Hs & Hl).
    exists l. split; [exact Hs|]. now apply (static_cell _ _ _ Hw). }
  split.
  { intros prev override Hp Ho. unfold rule_distribution.
    rewrite Hp. cbn [from_option]. now rewrite Ho. }
  intros Hnone. unfold rule_distribution.
  destruct (previousDegree (engine w)) as [prev|]; cbn [from_option].
  - now rewrite (Hnone prev eq_refl).
  - reflexivity.
Qed.

Lemma raw_distribution_rule_witness :
  tables_intact (heap sample_world)
  ∧ approachQueue (engine sample_world) = []
  ∧ APPROACH_PROBABILITY ≤ next_random sample_world
  ∧ rule_distribution (engine sample_world) = tonic_major
  ∧ getNextDegree sample_world
    = shape_and_draw tonic_major (after_draws 1 sample_world)
  ∧ getNextDegree cadence_world
    = shape_and_draw [("I", pct 75); ("vi", pct 10); ("bVI", pct 5);
                      ("IV", pct 4); ("iii", pct 3); ("bVII", pct 3)]
                     (after_draws 1 cadence_world).
Proof.
  assert (tables_intact (heap sample_world)) as Hw
      by (exists []; reflexivity).
  assert (APPROACH_PROBABILITY ≤ next_random sample_world) as Hr
      by (vm_compute; discriminate).
  split; [exact Hw|]. split; [reflexivity|]. split; [exact Hr|].
  split; [reflexivity|]. split.
  - exact (proj1 (raw_distribution_rule sample_world Hw eq_refl Hr)).
  - exact (proj1 (raw_distribution_rule cadence_world Hw eq_refl Hr)).
Defined.

(** ** The passes and the store *)

Lemma adjustForAdventurousness_extends l w d :
  heap w !! l = Some d ->
  exists fresh,
    adjustForAdventurousness l w
    = Ok (List.length (heap w)) (with_heap (heap w ++ [fresh]) w).
Proof.
  intros Hl. unfold adjustForAdventurousness, bind, get_engine, newObj.
  cbn [engine heap entropy drawn].
  erewrite readObj_eq; [|cbn [heap]; apply old_cell; exact Hl].
  erewrite (forEach_object d _
              (fun o dp => assign o dp.1
                 (dp.2 * (1 - adventurousness (settings (engine w)))
                  + 1 / num (Z.of_nat (List.length d))
                    * adventurousness (settings (engine w))))
              (List.length (heap w))).
  - unfold with_heap. cbn [engine heap entropy drawn].
    rewrite fill_fresh_cell. eexists. reflexivity.
  - intros x w0 obj H. now apply setProp_eq.
  - cbn [heap]. apply fresh_cell.
Qed.

Lemma applyAntiRepetition_extends l w d :
  heap w !! l = Some d ->
  applyAntiRepetition l w = Ok l w
  ∨ exists fresh,
      applyAntiRepetition l w
      = Ok (List.length (heap w)) (with_heap (heap w ++ [fresh]) w).
Proof.
  intros Hl.
  destruct (Nat.ltb_spec (List.length (recentDegrees (engine w))) 3) as [Hn|Hn].
  - left. now apply applyAntiRepetition_skip.
  - right. unfold applyAntiRepetition, bind at 1, get_engine.
    apply Nat.ltb_ge in Hn. rewrite Hn.
    erewrite bind_ok; [|apply readObj_eq; exact Hl].
    unfold bind at 1, newObj.
    erewrite bind_ok.
    2:{ apply (forEach_object _ _ penalty_step (List.length (heap w))).
        - intros x w0 obj H. now apply penalty_body_eq.
        - cbn [heap]. apply fresh_cell. }
    unfold ret, with_heap. cbn [engine heap entropy drawn].
    rewrite fill_fresh_cell. eexists. reflexivity.
Qed.

Lemma preserves_app (h : Heap) new : preserves h (h ++ new).
Proof. intros l d H. now apply lookup_app_l_Some. Qed.

Lemma tables_intact_app h new : tables_intact h -> tables_intact (h ++ new).
Proof. intros [rest ->]. exists (rest ++ new). now rewrite app_assoc. Qed.

(** The two passes in a row, on any object of the store. *)
Lemma shaping_extends l w d :
  heap w !! l = Some d ->
  exists l1 w1 l2 new,
    adjustForAdventurousness l w = Ok l1 w1
    ∧ applyAntiRepetition l1 w1 = Ok l2 (with_heap (heap w ++ new) w)
    ∧ (exists shaped, (heap w ++ new) !! l2 = Some shaped).
Proof.
  intros Hl. destruct (adjustForAdventurousness_extends l w d Hl) as (x & E1).
  set (w1 := with_heap (heap w ++ [x]) w) in *.
  assert (heap w1 !! List.length (heap w) = Some x) as Hx by apply fresh_cell.
  destruct (applyAntiRepetition_extends _ w1 x Hx) as [E2|(y & E2)].
  - exists (List.length (heap w)), w1, (List.length (heap w)), [x].
    split; [exact E1|]. split; [exact E2|]. exists x. exact Hx.
  - exists (List.length (heap w)), w1, (List.length (heap w1)), [x; y].
    split; [exact E1|]. split.
    + rewrite E2. unfold w1, with_heap. cbn [engine heap entropy drawn].
      now rewrite <- app_assoc.
    + exists y. unfold w1. cbn [with_heap heap].
      change (heap w ++ [x; y]) with (heap w ++ [x] ++ [y]).
      rewrite app_assoc. apply fresh_cell.
Qed.

(** C9. Run on an object of the store, the two passes return, and the
    store they leave is the store they found with new objects added
    behind it: the object they were given and every other object, the
    static tables included, has the properties it had; the engine's
    fields are untouched as well.  [peekLikelyNextDegree] leaves the
    world as it is, and what it returns is the most probable degree of
    the raw distribution of the rule, whatever the adventurousness and
    the window of recent degrees. *)
Theorem shaping_leaves_input_unchanged :
  (forall w l d,
     heap w !! l = Some d ->
     exists l1 w1 l2 w2,
       adjustForAdventurousness l w = Ok l1 w1
       ∧ applyAntiRepetition l1 w1 = Ok l2 w2
       ∧ (exists new, heap w2 = heap w ++ new)
       ∧ preserves (heap w) (heap w2)
       ∧ heap w2 !! l = Some d
       ∧ (tables_intact (heap w) -> tables_intact (heap w2))
       ∧ engine w2 = engine w)
  ∧ (forall w l d,
       heap w !! l = Some d ->
       exists l1 w1,
         applyAntiRepetition l w = Ok l1 w1
         ∧ preserves (heap w) (heap w1) ∧ engine w1 = engine w)
  ∧ respects unchanged peekLikelyNextDegree
  ∧ (forall w,
       tables_intact (heap w) ->
       peekLikelyNextDegree w
       = Ok (most_probable (rule_distribution (engine w))) w)
  ∧ (forall e s r,
       rule_distribution (set_settings s (set_recentDegrees r e))
       = rule_distribution e).
Proof.
  split.
  { intros w l d Hl.
    destruct (shaping_extends l w d Hl) as (l1 & w1 & l2 & new & E1 & E2 & _).
    exists l1, w1, l2, (with_heap (heap w ++ new) w).
    split; [exact E1|]. split; [exact E2|]. cbn [with_heap heap engine].
    split; [now exists new|]. split; [apply preserves_app|].
    split; [now apply preserves_app|].
    split; [apply tables_intact_app|reflexivity]. }
  split.
  { intros w l d Hl.
    destruct (applyAntiRepetition_extends l w d Hl) as [E|(y & E)].
    - exists l, w. split; [exact E|]. split; [now intros ? ?|reflexivity].
    - eexists _, _. split; [exact E|]. cbn [with_heap heap engine].
      split; [apply preserves_app|reflexivity]. }
  split; [exact peekLikelyNextDegree_pure|].
  split; [exact peekLikelyNextDegree_eq|].
  reflexivity.
Qed.

Lemma shaping_leaves_input_unchanged_witness :
  heap looping_world !! 0%nat = Some tonic_major
  ∧ tables_intact (heap looping_world)
  ∧ (exists l1 w1 l2 w2,
       adjustForAdventurousness 0 looping_world = Ok l1 w1
       ∧ applyAntiRepetition l1 w1 = Ok l2 w2
       ∧ heap w2 !! 0%nat = Some tonic_major
       ∧ tables_intact (heap w2))
  ∧ peekLikelyNextDegree looping_world = Ok "ii" looping_world.
Proof.
  assert (heap looping_world !! 0%nat = Some tonic_major) as Hl by reflexivity.
  assert (tables_intact (heap looping_world)) as Hw by (exists []; reflexivity).
  pose proof shaping_leaves_input_unchanged as (H1 & _ & _ & H4 & _).
  split; [exact Hl|]. split; [exact Hw|]. split.
  - destruct (H1 looping_world 0%nat tonic_major Hl)
      as (l1 & w1 & l2 & w2 & E1 & E2 & _ & _ & Hk & Ht & _).
    exists l1, w1, l2, w2. auto.
  - rewrite (H4 looping_world Hw). reflexivity.
Defined.

(** ** Bar generation *)

#[global] Instance steady_preorder : PreOrder steady.
Proof.
  split.
  - intros w. split; reflexivity.
  - intros a b c [H1 H2] [H3 H4]. split; congruence.
Qed.

#[global] Instance sound_preorder : PreOrder sound.
Proof.
  split.
  - intros w. split; [reflexivity|tauto].
  - intros a b c [H1 H2] [H3 H4]. split; [congruence|tauto].
Qed.

Lemma steady_sound w w' : steady w w' -> sound w w'.
Proof. intros [Hh Hs]. split; [exact Hs|]. now rewrite Hh. Qed.

Lemma steady_Math_random : respects steady Math_random.
Proof. intros w x w' [= _ <-]. split; reflexivity. Qed.

Lemma steady_modify f :
  (forall e, settings (f e) = settings e) -> respects steady (modify f).
Proof. intros H w x w' [= _ <-]. split; [reflexivity|apply H]. Qed.

#[global] Hint Resolve steady_Math_random : frame.
#[global] Hint Extern 1 (respects steady (modify _)) =>
  apply steady_modify; intros ?; reflexivity : frame.

Lemma steady_maybeModulate : respects steady maybeModulate.
Proof. unfold maybeModulate. frame. Qed.

Lemma steady_peekLikelyNextDegree : respects steady peekLikelyNextDegree.
Proof. unfold peekLikelyNextDegree, getMostProbable. frame. Qed.

Lemma steady_realizeChord g hint : respects steady (realizeChord g hint).
Proof. unfold realizeChord, getChordQuality, formatChordName. frame. Qed.

Lemma maybeModulate_ok w :
  exists w', maybeModulate w = Ok tt w' ∧ steady w w'.
Proof.
  assert (exists w', maybeModulate w = Ok tt w') as (w' & E).
  { unfold maybeModulate, bind, get_engine. rewrite Math_random_eq.
    destruct (ltb _ _); [|eexists; reflexivity].
    destruct (modulate_draws (after_draws 1 w)) as (_ & _ & _ & w' & E & _).
    now exists w'. }
  exists w'. split; [exact E|]. eapply steady_maybeModulate, E.
Qed.

Lemma is_object_blend a d : is_object d -> is_object (blend a d).
Proof. unfold is_object, blend. now rewrite map_keys. Qed.

Lemma is_object_penalize r d : is_object d -> is_object (penalize r d).
Proof. unfold is_object, penalize. now rewrite map_keys. Qed.

(** Shaping and drawing from a non-empty object returns one of its keys;
    the store gains the copies, the engine is as it was. *)
Lemma shape_and_draw_ok raw w :
  is_object raw -> (0 < List.length raw)%nat ->
  exists g new,
    shape_and_draw raw w
    = Ok g (after_draws 1 (with_heap (heap w ++ new) w))
    ∧ g ∈ raw.*1.
Proof.
  intros Hobj Hlen. unfold shape_and_draw.
  set (a := adventurousness (settings (engine w))).
  set (w0 := with_heap (heap w ++ [raw]) w).
  assert (newObj raw w = Ok (List.length (heap w)) w0) as E0 by reflexivity.
  assert (heap w0 !! List.length (heap w) = Some raw) as H0 by apply fresh_cell.
  pose proof (adjustForAdventurousness_eq _ w0 raw H0 Hobj) as E1.
  change (adventurousness (settings (engine w0))) with a in E1.
  set (w1 := with_heap (heap w0 ++ [blend a raw]) w0) in *.
  assert (heap w1 !! List.length (heap w0) = Some (blend a raw)) as H1
      by apply fresh_cell.
  erewrite bind_ok; [|exact E0]. erewrite bind_ok; [|exact E1].
  assert (forall entries w2,
            List.length entries = List.length raw -> entries.*1 = raw.*1 ->
            exists g, weightedRandom entries w2 = Ok g (after_draws 1 w2)
                      ∧ g ∈ raw.*1) as Hdraw.
  { intros entries w2 Hl Hk.
    destruct (weightedRandom_ok entries w2) as (g & Hg & E).
    - intros ->. simpl in Hl. lia.
    - exists g. split; [exact E|]. rewrite <- Hk. now apply list_elem_of_In. }
  destruct (Nat.ltb_spec (List.length (recentDegrees (engine w1))) 3) as [Hn|Hn].
  - erewrite bind_ok; [|now apply applyAntiRepetition_skip].
    erewrite bind_ok; [|apply readObj_eq; exact H1].
    destruct (Hdraw (blend a raw) w1) as (g & E & Hg).
    + unfold blend. now rewrite length_map.
    + unfold blend. apply map_keys. now intros [k v].
    + exists g, [raw; blend a raw]. split; [|exact Hg]. rewrite E.
      unfold w1, w0, with_heap, after_draws. cbn [engine heap entropy drawn].
      now rewrite <- app_assoc.
  - pose proof (applyAntiRepetition_eq _ w1 _ H1 (is_object_blend a raw Hobj) Hn)
      as E2.
    set (p := penalize (recentDegrees (engine w1)) (blend a raw)) in *.
    erewrite bind_ok; [|exact E2].
    erewrite bind_ok; [|apply readObj_eq; cbn [with_heap heap]; apply fresh_cell].
    destruct (Hdraw p (with_heap (heap w1 ++ [p]) w1)) as (g & E & Hg).
    + unfold p, penalize, blend. now rewrite !length_map.
    + unfold p, penalize, blend. rewrite !map_keys; [reflexivity| |];
        now intros [k v].
    + exists g, [raw; blend a raw; p]. split; [|exact Hg]. rewrite E.
      unfold w1, w0, with_heap, after_draws. cbn [engine heap entropy drawn].
      now rewrite <- !app_assoc.
Qed.

(** On intact tables [getNextDegree] returns a degree. *)
Lemma getNextDegree_ok w :
  tables_intact (heap w) ->
  exists g w', getNextDegree w = Ok g w' ∧ sound w w'.
Proof.
  intros Hw. destruct (approachQueue (engine w)) as [|d q] eqn:Hq.
  - destruct (Qclt_le_dec (next_random w) APPROACH_PROBABILITY) as [Hr|Hr].
    + destruct (getNextDegree_triggers w Hq Hr)
        as (t & c1 & c2 & c3 & wt & _ & _ & E).
      eexists _, _. split; [exact E|]. split; [reflexivity|tauto].
    + rewrite (getNextDegree_transition w Hw Hq Hr).
      destruct (rule_distribution_object (engine w)) as [Hobj Hlen].
      destruct (shape_and_draw_ok (rule_distribution (engine w))
                  (after_draws 1 w) Hobj Hlen) as (g & new & E & _).
      eexists _, _. split; [exact E|]. split; [reflexivity|].
      intros _. cbn. now apply tables_intact_app.
  - eexists _, _. split; [apply getNextDegree_queued; exact Hq|].
    split; [reflexivity|tauto].
Qed.

Lemma chordSlot_ok w :
  tables_intact (heap w) ->
  exists g w', chordSlot w = Ok g w' ∧ sound w w'.
Proof.
  intros Hw. destruct (maybeModulate_ok w) as (w1 & E1 & S1).
  apply steady_sound in S1.
  destruct (getNextDegree_ok w1 (proj2 S1 Hw)) as (g & w2 & E2 & S2).
  unfold chordSlot. erewrite bind_ok; [|exact E1]. erewrite bind_ok; [|exact E2].
  eexists _, _. split; [reflexivity|].
  transitivity w1; [exact S1|]. transitivity w2; [exact S2|].
  split; [reflexivity|tauto].
Qed.

Lemma chordSlots_ok n : forall w,
  tables_intact (heap w) ->
  exists ds w', chordSlots n w = Ok ds w' ∧ List.length ds = n ∧ sound w w'.
Proof.
  induction n as [|n IH]; intros w Hw.
  - exists [], w. split; [reflexivity|]. split; reflexivity.
  - destruct (chordSlot_ok w Hw) as (g & w1 & E1 & S1).
    destruct (IH w1 (proj2 S1 Hw)) as (ds & w2 & E2 & Hl & S2).
    exists (g :: ds), w2. cbn [chordSlots].
    erewrite bind_ok; [|exact E1]. erewrite bind_ok; [|exact E2].
    split; [reflexivity|]. split; [simpl; now rewrite Hl|].
    now transitivity w1.
Qed.

Lemma realizeChord_ok g hint w :
  0 ≤ complexity (settings (engine w)) ->
  exists chord w', realizeChord g hint w = Ok chord w' ∧ steady w w'.
Proof.
  intros Hc. destruct (getChordQuality_returns g hint w Hc) as (q & E).
  assert (exists chord w', realizeChord g hint w = Ok chord w')
    as (chord & w' & E').
  { unfold realizeChord, bind at 1, get_engine.
    erewrite bind_ok; [|exact E]. eexists _, _. reflexivity. }
  exists chord, w'. split; [exact E'|]. eapply steady_realizeChord, E'.
Qed.

Lemma realizeDegrees_ok ds : forall w,
  tables_intact (heap w) ->
  0 ≤ complexity (settings (engine w)) ->
  exists cs w', realizeDegrees ds w = Ok cs w'
                ∧ List.length cs = List.length ds ∧ steady w w'.
Proof.
  induction ds as [|g rest IH]; intros w Hw Hc.
  - exists [], w. split; [reflexivity|]. split; reflexivity.
  - assert (exists hint,
              match rest with
              | following :: _ => ret following
              | [] => peekLikelyNextDegree
              end w = Ok hint w) as (hint & Eh).
    { destruct rest; [|eexists; reflexivity].
      eexists. now apply peekLikelyNextDegree_eq. }
    destruct (realizeChord_ok g (Some hint) w Hc) as (c & w1 & E1 & S1).
    destruct S1 as [Hh Hs].
    destruct (IH w1) as (cs & w2 & E2 & Hl & S2).
    { now rewrite Hh. }
    { now rewrite Hs. }
    exists (c :: cs), w2. cbn [realizeDegrees].
    erewrite bind_ok; [|exact Eh]. erewrite bind_ok; [|exact E1].
    erewrite bind_ok; [|exact E2].
    split; [reflexivity|]. split; [simpl; now rewrite Hl|].
    transitivity w1; [now split|exact S2].
Qed.

Lemma generateBar_ok w :
  tables_intact (heap w) ->
  0 ≤ complexity (settings (engine w)) ->
  exists bar w',
    generateBar w = Ok bar w'
    ∧ List.length (chords bar)
      = (if ltb (next_random w) (twoChordProbability (settings (engine w)))
         then 2 else 1)%nat
    ∧ sound w w'.
Proof.
  intros Hw Hc.
  set (count := (if ltb (next_random w) (twoChordProbability (settings (engine w)))
                 then 2 else 1)%nat).
  set (w0 := after_draws 1
               (with_engine (fun e => set_barCount (S (barCount e)) e) w)).
  destruct (chordSlots_ok count w0 Hw) as (ds & w1 & E1 & Hl1 & [Hs1 Ht1]).
  destruct (realizeDegrees_ok ds w1 (Ht1 Hw)) as (cs & w2 & E2 & Hl2 & [Hh2 Hs2]).
  { rewrite Hs1. exact Hc. }
  assert (generateBar w
          = (degrees <- chordSlots count ;;
             chords <- realizeDegrees degrees ;;
             e <- get_engine ;;
             let keyChanged :=
               negb (bool_decide (root (currentKey (engine w)) = root (currentKey e)))
               || negb (bool_decide (mode (currentKey (engine w)) = mode (currentKey e))) in
             let bar := mkBar (barCount e) chords (currentKey e) keyChanged in
             modify (fun e => set_history (history e ++ [bar]) e) ;;
             ret bar) w0) as -> by reflexivity.
  erewrite bind_ok; [|exact E1]. erewrite bind_ok; [|exact E2].
  unfold bind, get_engine, modify, ret. cbv zeta.
  eexists _, _. split; [reflexivity|]. cbn [chords].
  split; [now rewrite Hl2, Hl1|].
  split.
  - cbn. rewrite Hs2, Hs1. reflexivity.
  - intros _. cbn. rewrite Hh2. now apply Ht1.
Qed.

(** Settings are not validated.  Out of their range, with
    twoChordProbability 0.15 and complexity -5, the index of the quality
    pick is negative, the quality is [undefined] and [formatChordName]
    throws: no bar is returned. *)
Lemma generateBar_negative_complexity :
  tables_intact (heap negative_complexity_world)
  ∧ 0 ≤ twoChordProbability (settings (engine negative_complexity_world))
  ∧ twoChordProbability (settings (engine negative_complexity_world)) ≤ 1
  ∧ generateBar negative_complexity_world = Throw "TypeError".
Proof.
  split; [exists []; reflexivity|].
  split; [vm_compute; discriminate|].
  split; [vm_compute; discriminate|].
  vm_compute. reflexivity.
Qed.

Lemma generateBar_count w :
  tables_intact (heap w) ->
  0 ≤ complexity (settings (engine w)) ->
  exists bar w',
    generateBar w = Ok bar w'
    ∧ (List.length (chords bar) = 1%nat ∨ List.length (chords bar) = 2%nat)
    ∧ (twoChordProbability (settings (engine w)) = 0 ->
       List.length (chords bar) = 1%nat)
    ∧ (twoChordProbability (settings (engine w)) = 1 ->
       List.length (chords bar) = 2%nat)
    ∧ sound w w'.
Proof.
  intros Hw Hc.
  destruct (generateBar_ok w Hw Hc) as (bar & w' & E & Hl & Hs).
  destruct (random_bounds w) as [Hr0 Hr1].
  exists bar, w'. split; [exact E|].
  split; [rewrite Hl; destruct (ltb _ _); tauto|].
  split; [|split; [|exact Hs]].
  - intros Hp. rewrite Hl, Hp.
    apply ltb_ge in Hr0. now rewrite Hr0.
  - intros Hp. rewrite Hl, Hp.
    apply ltb_lt in Hr1. now rewrite Hr1.
Qed.

(** Bar after bar. *)
Lemma generateBars_count n : forall w,
  tables_intact (heap w) ->
  0 ≤ complexity (settings (engine w)) ->
  exists bars w',
    times n generateBar w = Ok bars w'
    ∧ List.length bars = n
    ∧ Forall (fun bar => List.length (chords bar) = 1%nat
                         ∨ List.length (chords bar) = 2%nat) bars
    ∧ (twoChordProbability (settings (engine w)) = 0 ->
       Forall (fun bar => List.length (chords bar) = 1%nat) bars)
    ∧ (twoChordProbability (settings (engine w)) = 1 ->
       Forall (fun bar => List.length (chords bar) = 2%nat) bars).
Proof.
  induction n as [|n IH]; intros w Hw Hc.
  - exists [], w. split; [reflexivity|]. split; [reflexivity|].
    split; [constructor|]. split; intros _; constructor.
  - destruct (generateBar_count w Hw Hc) as (bar & w1 & E1 & H12 & H1 & H2 & Hs & Ht).
    destruct (IH w1 (Ht Hw)) as (bars & w2 & E2 & Hl & F12 & F1 & F2).
    { now rewrite Hs. }
    exists (bar :: bars), w2. cbn [times].
    erewrite bind_ok; [|exact E1]. erewrite bind_ok; [|exact E2].
    split; [reflexivity|]. split; [simpl; now rewrite Hl|].
    split; [now constructor|]. rewrite Hs in F1, F2.
    split; intros Hp; constructor; auto.
Qed.

(** C8. With intact tables and settings in range, twoChordProbability
    and complexity both in [0,1], [generateBar] returns a bar of 2 chords
    when its first draw is below twoChordProbability and of 1 chord
    otherwise: always 1 chord at probability 0, always 2 at probability
    1.  The tables are intact and the settings unchanged afterwards, so
    that the same holds bar after bar. *)
Theorem generateBar_chord_count (w : World) :
  tables_intact (heap w) ->
  0 ≤ twoChordProbability (settings (engine w)) ->
  twoChordProbability (settings (engine w)) ≤ 1 ->
  0 ≤ complexity (settings (engine w)) ->
  complexity (settings (engine w)) ≤ 1 ->
  (exists bar w',
     generateBar w = Ok bar w'
     ∧ (List.length (chords bar) = 1%nat ∨ List.length (chords bar) = 2%nat)
     ∧ (twoChordProbability (settings (engine w)) = 0 ->
        List.length (chords bar) = 1%nat)
     ∧ (twoChordProbability (settings (engine w)) = 1 ->
        List.length (chords bar) = 2%nat)
     ∧ tables_intact (heap w')
     ∧ settings (engine w') = settings (engine w))
  ∧ (forall n, exists bars w',
       times n generateBar w = Ok bars w'
       ∧ List.length bars = n
       ∧ Forall (fun bar => List.length (chords bar) = 1%nat
                            ∨ List.length (chords bar) = 2%nat) bars
       ∧ (twoChordProbability (settings (engine w)) = 0 ->
          Forall (fun bar => List.length (chords bar) = 1%nat) bars)
       ∧ (twoChordProbability (settings (engine w)) = 1 ->
          Forall (fun bar => List.length (chords bar) = 2%nat) bars)).
Proof.
  intros Hw _ _ Hc _. split.
  - destruct (generateBar_count w Hw Hc) as (bar & w' & E & H12 & H1 & H2 & Hs & Ht).
    exists bar, w'. auto 10.
  - intros n. now apply generateBars_count.
Qed.

Lemma generateBar_chord_count_witness :
  tables_intact (heap one_chord_world)
  ∧ (exists bar w', generateBar one_chord_world = Ok bar w'
                    ∧ List.length (chords bar) = 1%nat)
  ∧ (exists bar w', generateBar two_chord_world = Ok bar w'
                    ∧ List.length (chords bar) = 2%nat).
Proof.
  assert (tables_intact (heap one_chord_world)) as Hw by (exists []; reflexivity).
  assert (0 ≤ pct 50) as Hc by (vm_compute; discriminate).
  assert (pct 50 ≤ 1) as Hc1 by (vm_compute; discriminate).
  assert ((0 : Qc) ≤ 0) as H00 by (vm_compute; discriminate).
  assert ((0 : Qc) ≤ 1) as H01 by (vm_compute; discriminate).
  assert ((1 : Qc) ≤ 1) as H11 by (vm_compute; discriminate).
  split; [exact Hw|]. split.
  - destruct (generateBar_chord_count one_chord_world Hw H00 H01 Hc Hc1)
      as ((bar & w' & E & _ & H & _) & _).
    exists bar, w'. split; [exact E|]. apply H. reflexivity.
  - destruct (generateBar_chord_count two_chord_world Hw H01 H11 Hc Hc1)
      as ((bar & w' & E & _ & _ & H & _) & _).
    exists bar, w'. split; [exact E|]. apply H. reflexivity.
Defined.

(** ** Sample runs *)

(** With every draw at 0.5, the first bar in C major is one chord on vi:
    no modulation (0.5 is not below 0.3), no approach (not below 0.12),
    the blended tonic row reaches vi at the fourth entry, the lookahead
    from vi is ii, and the quality index is [floor (0.5 * 3) = 1]. *)
Example first_bar :
  returned (generateBar sample_world)
  = Some (mkBar 1 [mkChord (Some "A") (Some "m9") "vi" (Some "A", "-9")]
                C_major false).
Proof. vm_compute. reflexivity. Qed.

Example degree_intervals :
  map getDegreeInterval ["I"; "ii"; "iv"; "V"; "#IV"; "bVII"; "vii"; "x"]
  = [0; 2; 5; 7; 6; 10; 11; 0]%Z.
Proof. reflexivity. Qed.

Example degree_display :
  map formatDegree ["bII"; "#IV"; "V"] = ["♭II"; "♯IV"; "V"].
Proof. reflexivity. Qed.

(** The lowercase [v] of minor keys reaches the dominant branch, whose
    test is on the uppercased degree, before the minor-chord branch. *)
Example minor_dominant_options :
  functionOptions true "v" = (QUALITY_OPTIONS.dominant, true).
Proof. reflexivity. Qed.

Example tables_intact_initially : tables_intact static_heap.
Proof. exists []. now rewrite app_nil_r. Qed.

(* ================================================================== *)
(** * Further properties of the engine and of its callers *)

(** ** Fields that a call leaves alone *)

#[global] Instance same_preorder {A} (f : Engine -> A) : PreOrder (same f).
Proof.
  split.
  - intros w. reflexivity.
  - intros a b c H1 H2. unfold same in *. congruence.
Qed.

Lemma same_Math_random {A} (f : Engine -> A) : respects (same f) Math_random.
Proof. intros w x w' [= _ <-]. reflexivity. Qed.

Lemma same_modify {A} (f : Engine -> A) g :
  (forall e, f (g e) = f e) -> respects (same f) (modify g).
Proof. intros H w x w' [= _ <-]. apply H. Qed.

Lemma same_newObj {A} (f : Engine -> A) d : respects (same f) (newObj d).
Proof. intros w x w' [= _ <-]. reflexivity. Qed.

Lemma same_setProp {A} (f : Engine -> A) l k v : respects (same f) (setProp l k v).
Proof.
  intros w x w'. unfold setProp. destruct (heap w !! l); [|discriminate].
  intros [= _ <-]. reflexivity.
Qed.

#[global] Hint Resolve same_Math_random same_newObj same_setProp : frame.
#[global] Hint Extern 1 (respects (same _) (modify _)) =>
  apply same_modify; intros ?; reflexivity : frame.

Lemma same_weightedRandom {A} (f : Engine -> A) entries :
  respects (same f) (weightedRandom entries).
Proof. unfold weightedRandom. frame. Qed.

#[global] Hint Resolve same_weightedRandom : frame.

Lemma same_adjustForAdventurousness {A} (f : Engine -> A) t :
  respects (same f) (adjustForAdventurousness t).
Proof. unfold adjustForAdventurousness. frame. Qed.

Lemma same_applyAntiRepetition {A} (f : Engine -> A) t :
  respects (same f) (applyAntiRepetition t).
Proof. unfold applyAntiRepetition. frame. Qed.

Lemma same_peekLikelyNextDegree {A} (f : Engine -> A) :
  respects (same f) peekLikelyNextDegree.
Proof. unfold peekLikelyNextDegree, getMostProbable. frame. Qed.

Lemma same_realizeChord {A} (f : Engine -> A) g hint :
  respects (same f) (realizeChord g hint).
Proof. unfold realizeChord, getChordQuality, formatChordName. frame. Qed.

#[global] Hint Resolve same_adjustForAdventurousness same_applyAntiRepetition
  same_peekLikelyNextDegree same_realizeChord : frame.

(** A bind that returned: both of its parts did. *)
Lemma bind_inv {A B} (m : M A) (k : A -> M B) w b w' :
  bind m k w = Ok b w' -> exists a w1, m w = Ok a w1 ∧ k a w1 = Ok b w'.
Proof.
  unfold bind. destruct (m w) as [a w1|e]; [|discriminate].
  intros H. now exists a, w1.
Qed.
(** ** Linear arithmetic on the rationals *)

Lemma Qc_eq_Qeq (a b : Qc) : a = b <-> (this a == this b)%Q.
Proof. split; [now intros ->|apply Qc_is_canon]. Qed.

(** Statements on [Qc] are brought to [Q], where [lra] decides them. *)
Ltac qc_to_q :=
  repeat match goal with
  | H : @eq Qc _ _ |- _ => apply Qc_eq_Qeq in H
  | H : ~ @eq Qc _ _ |- _ => rewrite Qc_eq_Qeq in H
  | |- @eq Qc _ _ => apply Qc_eq_Qeq
  | |- ~ @eq Qc _ _ => rewrite Qc_eq_Qeq
  end;
  unfold Qclt, Qcle, Qcminus, Qcplus, Qcopp, Qcmult, Q2Qc in *;
  cbn [this] in *;
  repeat match goal with
  | H : context [Qred ?x] |- _ => rewrite (Qred_correct x) in H
  | |- context [Qred ?x] => rewrite (Qred_correct x)
  end.

Ltac qc_lra := qc_to_q; lra.

(** ** The weighted draw, entry by entry *)

Lemma total_from (entries : Dist) : forall acc,
  fold_left (fun sum kw => sum + kw.2) entries acc = acc + total entries.
Proof.
  unfold total. induction entries as [|[k p] rest IH]; intros acc; simpl.
  - ring.
  - rewrite IH, (IH (0 + p)). ring.
Qed.

Lemma total_cons k p (rest : Dist) : total ((k, p) :: rest) = p + total rest.
Proof. unfold total at 1. simpl. rewrite total_from. ring. Qed.

Lemma total_nonneg (d : Dist) : Forall (fun kw => 0 ≤ kw.2) d -> 0 ≤ total d.
Proof.
  induction 1 as [|[k p] d Hp _ IH].
  - unfold total. simpl. apply Qcle_refl.
  - rewrite total_cons. simpl in Hp. qc_lra.
Qed.

(** The loop stops at the entry whose share of the line holds the
    point. *)
Lemma weightedRandom_loop_at (before : Dist) k weight after : forall x,
  Forall (fun kw => 0 ≤ kw.2) before ->
  total before < x -> x ≤ total before + weight ->
  weightedRandom_loop (before ++ (k, weight) :: after) x = Some k.
Proof.
  induction before as [|[k0 p0] before IH]; intros x Hpos Hlo Hhi; simpl.
  - unfold total in Hlo, Hhi. simpl in Hlo, Hhi.
    assert (leb (x - weight) 0 = true) as ->; [|reflexivity].
    apply bool_decide_eq_true. qc_lra.
  - apply Forall_cons_1 in Hpos as [Hp0 Hpos]. simpl in Hp0.
    rewrite total_cons in Hlo, Hhi.
    pose proof (total_nonneg before Hpos) as Ht.
    assert (leb (x - p0) 0 = false) as ->.
    { apply bool_decide_eq_false. intros H. qc_lra. }
    apply IH; [exact Hpos| |]; qc_lra.
Qed.
(** X1. [weightedRandom] cuts the line from 0 to the total of the weights
    into one share per entry, in the order of the entries: with weights
    that are not negative before it, the entry [(k, weight)] is returned
    whenever the point [Math.random() * total] is above the total of the
    entries before it and at most that total plus [weight] (a share
    holds its upper end, not its lower end), the sums being those of
    exact arithmetic.  One draw is consumed, nothing else changes.  The
    converse does not hold: the first entry is also returned on a draw of
    0 and by the fallback of the last line. *)
Theorem weightedRandom_share (before : Dist) (k : string) (weight : Qc)
    (after : Dist) (w : World) :
  Forall (fun kw => 0 ≤ kw.2) before ->
  total before < next_random w * total (before ++ (k, weight) :: after) ->
  next_random w * total (before ++ (k, weight) :: after) ≤ total before + weight ->
  weightedRandom (before ++ (k, weight) :: after) w = Ok k (after_draws 1 w).
Proof.
  intros Hpos Hlo Hhi. unfold weightedRandom, bind. rewrite Math_random_eq.
  now rewrite (weightedRandom_loop_at before k weight after _ Hpos Hlo Hhi).
Qed.

Lemma weightedRandom_share_witness :
  weightedRandom KEY_MODULATIONS sample_world
  = Ok "fifth_down" (after_draws 1 sample_world).
Proof.
  apply (weightedRandom_share [("fifth_up", pct 25)] "fifth_down" (pct 25)
           [("relative", pct 20); ("parallel", pct 15); ("tritone", pct 8);
            ("step_up", pct 4); ("step_down", pct 3)] sample_world).
  - repeat constructor. vm_compute. discriminate.
  - vm_compute. reflexivity.
  - vm_compute. discriminate.
Defined.

(** X2. [weightedRandom] returns a key of the object it is given and
    consumes exactly one draw, whatever the weights are; on an object
    without properties it throws a TypeError ([entries[0]] is
    undefined). *)
Theorem weightedRandom_key (entries : Dist) (w : World) :
  match entries with
  | [] => weightedRandom entries w = Throw "TypeError"
  | _ :: _ =>
      exists k, k ∈ entries.*1
                ∧ weightedRandom entries w = Ok k (after_draws 1 w)
  end.
Proof.
  destruct entries as [|kw rest]; [reflexivity|].
  destruct (weightedRandom_ok (kw :: rest) w) as (k & Hk & E); [discriminate|].
  exists k. split; [now apply list_elem_of_In|exact E].
Qed.

(** ** The most probable degree *)

(** The state of the scan of [getMostProbable] after the entries [seen]:
    no positive weight yet, or the first entry of greatest weight. *)
Lemma most_probable_scan (rest : Dist) : forall (seen : Dist) (best : Qc * string),
  (best = (0, "I") ∧ Forall (fun kw => kw.2 ≤ 0) seen)
  ∨ (exists i, seen !! i = Some (best.2, best.1) ∧ 0 < best.1
               ∧ Forall (fun kw => kw.2 ≤ best.1) seen
               ∧ Forall (fun kw => kw.2 < best.1) (take i seen)) ->
  let final :=
    fold_left (fun best dp => if ltb best.1 dp.2 then (dp.2, dp.1) else best)
              rest best in
  (final = (0, "I") ∧ Forall (fun kw => kw.2 ≤ 0) (seen ++ rest))
  ∨ (exists i, (seen ++ rest) !! i = Some (final.2, final.1) ∧ 0 < final.1
               ∧ Forall (fun kw => kw.2 ≤ final.1) (seen ++ rest)
               ∧ Forall (fun kw => kw.2 < final.1) (take i (seen ++ rest))).
Proof.
  induction rest as [|[k p] rest IH]; intros seen best Hinv; cbn [fold_left].
  - rewrite app_nil_r. exact Hinv.
  - replace (seen ++ (k, p) :: rest) with ((seen ++ [(k, p)]) ++ rest)
      by now rewrite <- app_assoc.
    apply IH. cbn [fst snd].
    destruct (ltb best.1 p) eqn:Hlt.
    + apply ltb_lt in Hlt. right. exists (List.length seen). cbn [fst snd].
      split; [now rewrite list_lookup_middle|].
      assert (0 ≤ best.1) as H0.
      { destruct Hinv as [[-> _]|(i & _ & H & _)]; [apply Qcle_refl|].
        now apply Qclt_le_weak. }
      assert (Forall (fun kw : string * Qc => kw.2 ≤ best.1) seen) as Hle.
      { destruct Hinv as [[-> H]|(i & _ & _ & H & _)]; exact H. }
      split; [eapply Qcle_lt_trans; eassumption|].
      split.
      * apply Forall_app. split.
        -- eapply list.Forall_impl; [exact Hle|]. intros kw H. cbn beta in H.
           apply Qclt_le_weak. eapply Qcle_lt_trans; eassumption.
        -- repeat constructor. apply Qcle_refl.
      * rewrite take_app_length.
        eapply list.Forall_impl; [exact Hle|]. intros kw H. cbn beta in H.
        eapply Qcle_lt_trans; eassumption.
    + apply ltb_ge in Hlt.
      destruct Hinv as [[-> H]|(i & Hi & Hp & Hle & Hbefore)].
      * left. split; [reflexivity|]. apply Forall_app. split; [exact H|].
        repeat constructor. exact Hlt.
      * right. exists i.
        split; [now apply lookup_app_l_Some|]. split; [exact Hp|].
        split; [apply Forall_app; split; [exact Hle|repeat constructor; exact Hlt]|].
        rewrite take_app_le; [exact Hbefore|].
        apply lookup_lt_Some in Hi. lia.
Qed.

Lemma most_probable_greatest (d : Dist) :
  (most_probable d = "I" ∧ Forall (fun kw => kw.2 ≤ 0) d)
  ∨ (exists i p, d !! i = Some (most_probable d, p) ∧ 0 < p
                 ∧ Forall (fun kw => kw.2 ≤ p) d
                 ∧ Forall (fun kw => kw.2 < p) (take i d)).
Proof.
  pose proof (most_probable_scan d [] (0, "I")) as H. cbv zeta in H.
  rewrite app_nil_l in H. unfold most_probable.
  destruct H as [[E H]|(i & H)].
  - left. split; [reflexivity|constructor].
  - left. split; [now rewrite E|exact H].
  - right. eexists i, _. exact H.
Qed.
(** X3. [getMostProbable] returns the key of the greatest weight of the
    object, the first such key when several entries share it, and ['I']
    when no weight is positive; it reads the object and changes
    nothing. *)
Theorem getMostProbable_greatest (l : nat) (d : Dist) (w : World) :
  heap w !! l = Some d ->
  exists g,
    getMostProbable (Some l) w = Ok g w
    ∧ ((g = "I" ∧ Forall (fun kw => kw.2 ≤ 0) d)
       ∨ (exists i p, d !! i = Some (g, p) ∧ 0 < p
                      ∧ Forall (fun kw => kw.2 ≤ p) d
                      ∧ Forall (fun kw => kw.2 < p) (take i d))).
Proof.
  intros Hl. exists (most_probable d).
  split; [now apply getMostProbable_eq|apply most_probable_greatest].
Qed.

Lemma getMostProbable_greatest_witness :
  heap sample_world !! 0%nat = Some tonic_major
  ∧ exists g,
      getMostProbable (Some 0%nat) sample_world = Ok g sample_world
      ∧ ((g = "I" ∧ Forall (fun kw => kw.2 ≤ 0) tonic_major)
         ∨ (exists i p, tonic_major !! i = Some (g, p) ∧ 0 < p
                        ∧ Forall (fun kw => kw.2 ≤ p) tonic_major
                        ∧ Forall (fun kw => kw.2 < p) (take i tonic_major))).
Proof.
  split; [reflexivity|].
  apply (getMostProbable_greatest 0 tonic_major sample_world). reflexivity.
Defined.

Lemma static_weights :
  Forall (fun d : Dist => Forall (fun kw => 0 < kw.2) d) static_heap.
Proof. compute_done. Qed.

Lemma rule_distribution_weights e :
  Forall (fun kw => 0 < kw.2) (rule_distribution e).
Proof.
  destruct (selected_rule e) as (l & _ & Hl).
  pose proof static_weights as H. rewrite Forall_lookup in H.
  exact (H l _ Hl).
Qed.

(** X4. On intact tables the lookahead [peekLikelyNextDegree] returns a
    degree of the distribution that the transition rule selects for the
    current state, one of greatest weight in the table as written: the
    adventurousness, the anti-repetition penalty and the approach queue
    have no part in it.  It changes nothing, not even the count of
    draws. *)
Theorem peekLikelyNextDegree_candidate (w : World) :
  tables_intact (heap w) ->
  exists g p,
    peekLikelyNextDegree w = Ok g w
    ∧ (g, p) ∈ rule_distribution (engine w)
    ∧ 0 < p
    ∧ Forall (fun kw => kw.2 ≤ p) (rule_distribution (engine w)).
Proof.
  intros Hw. rewrite (peekLikelyNextDegree_eq w Hw).
  set (d := rule_distribution (engine w)).
  destruct (most_probable_greatest d) as [[_ H]|(i & p & Hi & Hp & Hle & _)].
  - exfalso.
    destruct (rule_distribution_object (engine w)) as [_ Hlen].
    pose proof (rule_distribution_weights (engine w)) as Hpos.
    fold d in Hlen, Hpos. destruct d as [|[k p] d]; [simpl in Hlen; lia|].
    apply Forall_cons_1 in H as [H _]. apply Forall_cons_1 in Hpos as [Hpos _].
    simpl in H, Hpos. qc_lra.
  - exists (most_probable d), p. split; [reflexivity|].
    split; [eapply list_elem_of_lookup_2; exact Hi|]. split; assumption.
Qed.

Lemma peekLikelyNextDegree_candidate_witness :
  tables_intact (heap cadence_world)
  ∧ exists g p,
      peekLikelyNextDegree cadence_world = Ok g cadence_world
      ∧ (g, p) ∈ rule_distribution (engine cadence_world)
      ∧ 0 < p
      ∧ Forall (fun kw => kw.2 ≤ p) (rule_distribution (engine cadence_world)).
Proof.
  assert (tables_intact (heap cadence_world)) as Hw by (exists []; reflexivity).
  split; [exact Hw|]. exact (peekLikelyNextDegree_candidate cadence_world Hw).
Defined.
(** ** Root intervals *)

Lemma MAJOR_DEGREES_entry s i :
  prop MAJOR_DEGREES s = Some i -> In (s, i) MAJOR_DEGREES ∧ (0 <= i < 12)%Z.
Proof.
  intros H. apply prop_In, list_elem_of_In in H. split; [exact H|].
  unfold MAJOR_DEGREES in H. simpl in H.
  repeat (destruct H as [[= <- <-]|H]; [lia|]). contradiction.
Qed.

Lemma upper_ascii_no_b c : Ascii.eqb (upper_ascii c) "b" = false.
Proof. destruct c as [[] [] [] [] [] [] [] []]; reflexivity. Qed.

Lemma toUpperCase_no_b s : has_byte "b" (toUpperCase s) = false.
Proof.
  induction s as [|c s IH]; [reflexivity|].
  cbn [toUpperCase map_string has_byte]. fold (toUpperCase s).
  now rewrite upper_ascii_no_b, IH.
Qed.

Lemma upper_ascii_roman c :
  upper_ascii c = "I"%char ∨ upper_ascii c = "V"%char ->
  upper_iv c = upper_ascii c.
Proof.
  destruct c as [[] [] [] [] [] [] [] []]; cbv; intros [H|H];
    first [reflexivity|discriminate].
Qed.

Lemma toUpperCase_roman s :
  Forall (fun c => c = "I"%char ∨ c = "V"%char)
         (list_ascii_of_string (toUpperCase s)) ->
  map_string upper_iv s = toUpperCase s.
Proof.
  induction s as [|c s IH]; [reflexivity|].
  cbn [toUpperCase map_string list_ascii_of_string]. fold (toUpperCase s).
  intros H. apply Forall_cons_1 in H as [Hc Hs].
  now rewrite (upper_ascii_roman c Hc), (IH Hs).
Qed.

(** The second lookup of [getDegreeInterval], under the uppercased
    degree, finds nothing that the first one has not found. *)
Lemma second_lookup_redundant s i :
  prop MAJOR_DEGREES (toUpperCase s) = Some i ->
  prop MAJOR_DEGREES (map_string upper_iv s) = Some i.
Proof.
  intros H. destruct (MAJOR_DEGREES_entry _ _ H) as [Hin _].
  pose proof (toUpperCase_no_b s) as Hb.
  unfold MAJOR_DEGREES in Hin. simpl in Hin.
  repeat (destruct Hin as [[= E <-]|Hin];
          [first [ rewrite <- E in Hb; discriminate Hb
                 | rewrite toUpperCase_roman;
                   [exact H|rewrite <- E; repeat constructor; tauto] ]|]).
  contradiction.
Qed.

Lemma upper_iv_idem c : upper_iv (upper_iv c) = upper_iv c.
Proof. destruct c as [[] [] [] [] [] [] [] []]; reflexivity. Qed.

Lemma map_string_compose f g s :
  map_string f (map_string g s) = map_string (fun c => f (g c)) s.
Proof. induction s as [|c s IH]; [reflexivity|]. simpl. now rewrite IH. Qed.

Lemma map_string_ext f g s :
  (forall c, f c = g c) -> map_string f s = map_string g s.
Proof.
  intros H. induction s as [|c s IH]; [reflexivity|]. simpl. now rewrite H, IH.
Qed.

Lemma getDegreeInterval_eq s :
  getDegreeInterval s
  = let normalized := map_string upper_iv s in
    if startsWith normalized "#"
    then Z.rem (default 0%Z (prop MAJOR_DEGREES (slice 1 normalized)) + 1) 12
    else default 0%Z (prop MAJOR_DEGREES normalized).
Proof.
  unfold getDegreeInterval. cbv zeta.
  destruct (startsWith _ "#"); [reflexivity|].
  destruct (prop MAJOR_DEGREES (map_string upper_iv s)) as [i|] eqn:E1;
    [reflexivity|].
  destruct (prop MAJOR_DEGREES (toUpperCase s)) as [i|] eqn:E2; [|reflexivity].
  apply second_lookup_redundant in E2. congruence.
Qed.

Lemma default_interval_range s :
  (0 <= default 0 (prop MAJOR_DEGREES s) < 12)%Z.
Proof.
  destruct (prop MAJOR_DEGREES s) as [i|] eqn:E; cbn [default from_option id].
  - now apply MAJOR_DEGREES_entry in E.
  - unfold default, from_option, id. lia.
Qed.

Lemma getDegreeInterval_range s : (0 <= getDegreeInterval s < 12)%Z.
Proof.
  rewrite getDegreeInterval_eq. cbv zeta.
  destruct (startsWith _ "#"); [|apply default_interval_range].
  pose proof (default_interval_range (slice 1 (map_string upper_iv s))) as H.
  apply Z.rem_bound_pos; lia.
Qed.
Lemma startsWith_sharp s :
  startsWith (map_string upper_iv s) "#" = startsWith s "#".
Proof.
  destruct s as [|c s]; [reflexivity|]. cbn [map_string startsWith].
  f_equal; [|now destruct s].
  destruct c as [[] [] [] [] [] [] [] []]; reflexivity.
Qed.

(** X5. For a degree written with the letters of degree tokens,
    [getDegreeInterval] returns a number of semitones from 0 to 11.  The
    case of the numeral has no part in it: [ii] and [II] (or [iv] and
    [IV]) have the same interval.  An unknown token has interval 0, that
    of the tonic.  A leading [#] raises the interval of the rest by one
    semitone, modulo 12. *)
Theorem getDegreeInterval_semitones (d : string) :
  degree_token d ->
  (0 <= getDegreeInterval d < 12)%Z
  ∧ getDegreeInterval (map_string upper_iv d) = getDegreeInterval d
  ∧ (prop MAJOR_DEGREES (map_string upper_iv d) = None ->
     startsWith d "#" = false -> getDegreeInterval d = 0%Z)
  ∧ (startsWith d "#" = false ->
     getDegreeInterval ("#" +:+ d) = ((getDegreeInterval d + 1) mod 12)%Z).
Proof.
  intros _. split; [apply getDegreeInterval_range|]. split; [|split].
  - rewrite !getDegreeInterval_eq. cbv zeta.
    rewrite map_string_compose.
    now rewrite (map_string_ext _ upper_iv d upper_iv_idem).
  - intros Hnone Hs. rewrite getDegreeInterval_eq. cbv zeta.
    now rewrite startsWith_sharp, Hs, Hnone.
  - intros Hs. rewrite (getDegreeInterval_eq d). cbv zeta.
    rewrite startsWith_sharp, Hs.
    change ("#" +:+ d) with (String "#" d). rewrite getDegreeInterval_eq.
    cbv zeta. change (map_string upper_iv (String "#" d))
      with (String "#" (map_string upper_iv d)).
    cbn [startsWith slice Ascii.eqb Bool.eqb andb].
    replace (startsWith (map_string upper_iv d) "") with true
      by now destruct (map_string upper_iv d).
    pose proof (default_interval_range (map_string upper_iv d)) as H.
    apply Z.rem_mod_nonneg; lia.
Qed.

Lemma getDegreeInterval_semitones_witness :
  degree_token "iv"
  ∧ getDegreeInterval "iv" = getDegreeInterval "IV"
  ∧ getDegreeInterval "#iv" = ((getDegreeInterval "iv" + 1) mod 12)%Z
  ∧ degree_token "Ib" ∧ getDegreeInterval "Ib" = 0%Z.
Proof.
  assert (degree_token "iv") as Ht by (repeat constructor; compute_done).
  assert (degree_token "Ib") as Hu by (repeat constructor; compute_done).
  destruct (getDegreeInterval_semitones "iv" Ht) as (_ & Hcase & _ & Hsharp).
  destruct (getDegreeInterval_semitones "Ib" Hu) as (_ & _ & Hzero & _).
  split; [exact Ht|]. split; [symmetry; exact Hcase|].
  split; [apply Hsharp; reflexivity|]. split; [exact Hu|].
  apply Hzero; reflexivity.
Defined.
(** ** Chord roots *)

Lemma realizeChord_result g hint w :
  (0 <= pitch_class (root (currentKey (engine w))))%Z ->
  0 ≤ complexity (settings (engine w)) ->
  exists note q,
    realizeChord g hint w
    = Ok (mkChord (Some note) (Some q) (formatDegree g) (Some note, formatQuality q))
         (after_draws 1 w)
    ∧ NOTES !! Z.to_nat ((pitch_class (root (currentKey (engine w)))
                          + getDegreeInterval g) mod 12)
      = Some note
    ∧ In q (qualityOptions (is_mode "minor" (currentKey (engine w))) g hint).
Proof.
  intros Hk Hc. destruct (getChordQuality_returns g hint w Hc) as (q & E).
  pose proof (getDegreeInterval_range g) as Hi.
  set (x := (pitch_class (root (currentKey (engine w))) + getDegreeInterval g)%Z).
  assert (0 <= x)%Z as Hx by (unfold x; lia).
  destruct (NOTES !! Z.to_nat (x mod 12)) as [note|] eqn:En.
  - exists note, q. split; [|split; [reflexivity|]].
    + unfold realizeChord, bind at 1, get_engine.
      erewrite bind_ok; [|exact E].
      fold (pitch_class (root (currentKey (engine w)))). fold x.
      rewrite (note_at x Hx), En. reflexivity.
    + eapply getChordQuality_member. exact E.
  - apply lookup_ge_None in En. pose proof (Z.mod_pos_bound x 12).
    simpl in En. lia.
Qed.

(** X6. In a key whose root is a note name and with a complexity in
    [0,1], [realizeChord], given a degree written with the letters of
    degree tokens, returns a chord whose root is the note
    [getDegreeInterval(degree)] semitones above the root of the current
    key, modulo 12, in the flat spelling of [NOTES]; its quality is one of
    the options of the degree, its degree is the display form of the
    degree, and its full name pairs the root with the formatted quality.
    One draw is consumed, the engine is not changed. *)
Theorem realizeChord_root (g : string) (hint : option string) (w : World) :
  degree_token g ->
  (0 <= pitch_class (root (currentKey (engine w))))%Z ->
  0 ≤ complexity (settings (engine w)) ->
  complexity (settings (engine w)) ≤ 1 ->
  exists note q,
    realizeChord g hint w
    = Ok (mkChord (Some note) (Some q) (formatDegree g) (Some note, formatQuality q))
         (after_draws 1 w)
    ∧ NOTES !! Z.to_nat ((pitch_class (root (currentKey (engine w)))
                          + getDegreeInterval g) mod 12)
      = Some note
    ∧ In q (qualityOptions (is_mode "minor" (currentKey (engine w))) g hint).
Proof. intros _ Hk Hc _. now apply realizeChord_result. Qed.

Lemma realizeChord_root_witness :
  exists q,
    realizeChord "V" (Some "I") sample_world
    = Ok (mkChord (Some "G") (Some q) "V" (Some "G", formatQuality q))
         (after_draws 1 sample_world)
    ∧ In q QUALITY_OPTIONS.dominantToMajor.
Proof.
  assert (degree_token "V") as Ht by (repeat constructor; compute_done).
  assert (0 <= pitch_class (root (currentKey (engine sample_world))))%Z as Hk
    by (vm_compute; discriminate).
  assert (0 ≤ complexity (settings (engine sample_world))) as Hc
    by (vm_compute; discriminate).
  assert (complexity (settings (engine sample_world)) ≤ 1) as Hc1
    by (vm_compute; discriminate).
  destruct (realizeChord_root "V" (Some "I") sample_world Ht Hk Hc Hc1)
    as (note & q & E & Hn & Hq).
  injection Hn as <-. exists q. split; [exact E|exact Hq].
Defined.

(** ** What a modulation does *)

Lemma modulate_eq w :
  exists type,
    In type MODULATION_TYPES
    ∧ weightedRandom KEY_MODULATIONS w = Ok type (after_draws 1 w)
    ∧ modulate w
      = Ok tt (with_engine
                 (fun e =>
                    let e' := set_currentKey (modulated type (currentKey e)) e in
                    if ltb (next_random (after_draws 1 w)) (pct 60)
                    then set_currentDegree "I" e' else e')
                 (after_draws 2 w)).
Proof.
  destruct (weightedRandom_ok KEY_MODULATIONS w) as (type & Hin & E);
    [discriminate|].
  exists type. split; [exact Hin|]. split; [exact E|].
  unfold modulate. erewrite bind_ok; [|exact E].
  unfold bind, get_engine. cbn [engine after_draws].
  rewrite (modulate_switch_modulated type _ Hin).
  unfold modify. rewrite Math_random_eq.
  unfold next_random, after_draws. cbn [engine heap entropy drawn].
  destruct (ltb _ _); reflexivity.
Qed.

Lemma maybeModulate_eq w :
  maybeModulate w
  = if ltb (next_random w) (effectiveChance (engine w))
    then modulate (after_draws 1 w) else Ok tt (after_draws 1 w).
Proof.
  unfold maybeModulate, bind, get_engine, effectiveChance.
  rewrite Math_random_eq. cbv zeta.
  destruct (String.eqb _ "I" || String.eqb _ "i"); destruct (ltb _ _); reflexivity.
Qed.

Lemma modulated_well_formed type k :
  In type MODULATION_TYPES -> well_formed k -> well_formed (modulated type k).
Proof.
  intros Hin [Hr Hm]. unfold well_formed, modulated, flipped.
  destruct (pitch_class_range (root k)) as [Hp|Hp]; [lia|].
  cbn [root mode]. split.
  - destruct (semitones type _) as [s|] eqn:Es; [|exact Hr].
    rewrite pitch_class_note; apply Z.mod_pos_bound; lia.
  - destruct (flips_mode type); [|exact Hm].
    case_bool_decide; [now right|now left].
Qed.
(** X7. [maybeModulate] always returns, and writes nothing but the key
    and the current degree.  When its draw is not below the effective
    chance (1 - keyStability, doubled on the tonic degree) that draw is
    all that happened.  When it is below, three draws are consumed: the
    second one chooses the modulation type and with it the new key, and
    the current degree becomes ['I'] when the third one is below 0.6 and
    is kept otherwise. *)
Theorem maybeModulate_effect (w : World) :
  exists w',
    maybeModulate w = Ok tt w'
    ∧ beside_key (engine w') = beside_key (engine w)
    ∧ heap w' = heap w
    ∧ if ltb (next_random w) (effectiveChance (engine w))
      then exists type,
             weightedRandom KEY_MODULATIONS (after_draws 1 w)
             = Ok type (after_draws 2 w)
             ∧ modulate_switch type (currentKey (engine w))
               = Some (currentKey (engine w'))
             ∧ currentDegree (engine w')
               = (if ltb (next_random (after_draws 2 w)) (pct 60) then "I"
                  else currentDegree (engine w))
             ∧ drawn w' = (3 + drawn w)%nat
      else w' = after_draws 1 w.
Proof.
  rewrite maybeModulate_eq.
  destruct (ltb (next_random w) (effectiveChance (engine w))).
  - destruct (modulate_eq (after_draws 1 w)) as (type & Hin & E1 & E2).
    eexists. split; [exact E2|]. split; [|split; [|exists type]].
    + cbn. destruct (ltb _ _); reflexivity.
    + reflexivity.
    + split; [exact E1|]. split.
      * rewrite (modulate_switch_modulated type _ Hin). cbn.
        destruct (ltb _ _); reflexivity.
      * split; [|reflexivity]. cbn.
        change (next_random (after_draws 1 (after_draws 1 w)))
          with (next_random (after_draws 2 w)).
        destruct (ltb _ _); reflexivity.
  - eexists. split; [reflexivity|]. repeat split.
Qed.

(** ** One chord slot *)

Lemma maybeModulate_run w :
  exists w',
    maybeModulate w = Ok tt w'
    ∧ beside_key (engine w') = beside_key (engine w)
    ∧ heap w' = heap w
    ∧ (well_formed (currentKey (engine w)) -> well_formed (currentKey (engine w')))
    ∧ (1 ≤ keyStability (settings (engine w)) -> w' = after_draws 1 w).
Proof.
  rewrite maybeModulate_eq.
  destruct (Qclt_le_dec (next_random w) (effectiveChance (engine w))) as [Hlt|Hge].
  - rewrite (proj2 (ltb_lt _ _) Hlt).
    destruct (modulate_eq (after_draws 1 w)) as (type & Hin & _ & E2).
    set (r := next_random (after_draws 1 (after_draws 1 w))) in E2.
    eexists. split; [exact E2|]. split; [|split; [reflexivity|split]].
    + cbn. destruct (ltb r (pct 60)); reflexivity.
    + intros Hk. cbn.
      destruct (ltb r (pct 60)); cbn; now apply modulated_well_formed.
    + intros Hks. exfalso.
      destruct (random_bounds w) as [Hr _]. unfold effectiveChance in Hlt.
      cbv zeta in Hlt.
      assert (num 2 = 1 + 1) as E by (apply Qc_is_canon; reflexivity).
      destruct (_ || _); [rewrite E in Hlt|]; qc_lra.
  - rewrite (proj2 (ltb_ge _ _) Hge).
    eexists. split; [reflexivity|]. split; [reflexivity|].
    split; [reflexivity|]. split; [intros H; exact H|reflexivity].
Qed.

Lemma getNextDegree_beside_queue : respects (same beside_queue) getNextDegree.
Proof. unfold getNextDegree, tryStartApproach, shiftQueue. frame. Qed.

Lemma chordSlot_inv w g w' :
  chordSlot w = Ok g w' ->
  exists w1 w2,
    maybeModulate w = Ok tt w1
    ∧ getNextDegree w1 = Ok g w2
    ∧ w' = with_engine
             (fun e =>
                let pushed := recentDegrees e ++ [g] in
                set_recentDegrees
                  (if (8 <? List.length pushed)%nat then tail pushed else pushed)
                  (set_currentDegree g
                     (set_previousDegree (Some (currentDegree e)) e)))
             w2.
Proof.
  unfold chordSlot. intros H.
  apply bind_inv in H as ([] & w1 & E1 & H).
  apply bind_inv in H as (d & w2 & E2 & H).
  injection H as <- <-. now exists w1, w2.
Qed.

(** The last entry of a window that has just been pushed on. *)
Lemma last_pushed (l : list string) g :
  list.last (let pushed := l ++ [g] in
        if (8 <? List.length pushed)%nat then tail pushed else pushed)
  = Some g.
Proof.
  cbv zeta. destruct (8 <? _)%nat eqn:E; [|apply last_snoc].
  destruct l as [|x l]; [discriminate|]. cbn [app tail]. apply last_snoc.
Qed.

Lemma chordSlot_facts w g w' :
  chordSlot w = Ok g w' ->
  beside_degrees (engine w') = beside_degrees (engine w)
  ∧ currentDegree (engine w') = g
  ∧ list.last (recentDegrees (engine w')) = Some g
  ∧ (well_formed (currentKey (engine w)) -> well_formed (currentKey (engine w')))
  ∧ (1 ≤ keyStability (settings (engine w)) ->
     currentKey (engine w') = currentKey (engine w)).
Proof.
  intros H. apply chordSlot_inv in H as (w1 & w2 & E1 & E2 & ->).
  destruct (maybeModulate_run w) as (w1' & E1' & Hb & _ & Hwf & Hks).
  rewrite E1 in E1'. injection E1' as <-.
  apply getNextDegree_beside_queue in E2. unfold same, beside_queue in E2.
  injection E2 as Hs Hk Hd Hp Hc Hh Hr.
  unfold beside_key in Hb. injection Hb as Hs1 Hp1 Hc1 Hh1 Hr1 Hq1.
  unfold with_engine, beside_degrees. cbv zeta.
  cbn [engine settings barCount history currentDegree currentKey recentDegrees
       set_recentDegrees set_currentDegree set_previousDegree].
  split; [congruence|]. split; [reflexivity|].
  split; [apply last_pushed|].
  rewrite Hk. split; [exact Hwf|].
  intros H. now rewrite (Hks H).
Qed.
Lemma chordSlots_facts n : forall w ds w',
  chordSlots n w = Ok ds w' ->
  List.length ds = n
  ∧ beside_degrees (engine w') = beside_degrees (engine w)
  ∧ (well_formed (currentKey (engine w)) -> well_formed (currentKey (engine w')))
  ∧ (1 ≤ keyStability (settings (engine w)) ->
     currentKey (engine w') = currentKey (engine w))
  ∧ match list.last ds with
    | Some g => currentDegree (engine w') = g
                ∧ list.last (recentDegrees (engine w')) = Some g
    | None => w' = w
    end.
Proof.
  induction n as [|n IH]; intros w ds w' H.
  - injection H as <- <-. split; [reflexivity|]. split; [reflexivity|].
    split; [tauto|]. split; reflexivity.
  - cbn [chordSlots] in H.
    apply bind_inv in H as (g & w1 & E1 & H).
    apply bind_inv in H as (rest & w2 & E2 & H). injection H as <- <-.
    apply chordSlot_facts in E1 as (Hb1 & Hd1 & Hr1 & Hwf1 & Hks1).
    apply IH in E2 as (Hl & Hb2 & Hwf2 & Hks2 & Hlast).
    split; [simpl; now rewrite Hl|]. split; [congruence|].
    split; [tauto|]. split.
    + intros Hks. rewrite Hks2, Hks1; [reflexivity|exact Hks|].
      unfold beside_degrees in Hb1. injection Hb1 as -> _ _. exact Hks.
    + destruct rest as [|g' rest].
      * cbn [list.last] in *. subst w2. now split.
      * change (list.last (g :: g' :: rest)) with (list.last (g' :: rest)).
        destruct (list.last (g' :: rest)) eqn:El; [exact Hlast|].
        now apply last_None in El.
Qed.

(** ** Realizing the degrees of a bar *)

Lemma realizeChord_inv g hint w c w' :
  realizeChord g hint w = Ok c w' ->
  degree c = formatDegree g ∧ w' = after_draws 1 w.
Proof.
  unfold realizeChord, bind at 1, get_engine. intros H.
  apply bind_inv in H as (q & w1 & E & H). rewrite getChordQuality_eq in E.
  cbv zeta in E. injection E as _ <-.
  apply bind_inv in H as (name & w2 & E & H). injection H as <- <-.
  unfold formatChordName in E. destruct q; [|discriminate].
  injection E as _ <-. split; reflexivity.
Qed.

Lemma hint_inv (rest : list string) w hint w' :
  match rest with
  | following :: _ => ret following
  | [] => peekLikelyNextDegree
  end w = Ok hint w' -> w' = w.
Proof.
  destruct rest; [|now intros [= _ <-]].
  intros H. now apply peekLikelyNextDegree_pure in H.
Qed.

Lemma realizeDegrees_facts ds : forall w cs w',
  realizeDegrees ds w = Ok cs w' ->
  w' = after_draws (List.length ds) w
  ∧ Forall2 (fun g c => degree c = formatDegree g) ds cs
  ∧ ((0 <= pitch_class (root (currentKey (engine w))))%Z ->
     0 ≤ complexity (settings (engine w)) ->
     Forall2 (spelled (currentKey (engine w))) ds cs).
Proof.
  induction ds as [|g rest IH]; intros w cs w' H.
  - injection H as <- <-. split; [now destruct w|]. split; constructor.
  - cbn [realizeDegrees] in H.
    apply bind_inv in H as (hint & w0 & E0 & H). apply hint_inv in E0 as ->.
    apply bind_inv in H as (c & w1 & E1 & H).
    apply bind_inv in H as (others & w2 & E2 & H). injection H as <- <-.
    pose proof (realizeChord_inv _ _ _ _ _ E1) as [Hd ->].
    apply IH in E2 as (-> & Hds & Hsp).
    split; [|split].
    + unfold after_draws. cbn [engine heap entropy drawn List.length].
      f_equal. lia.
    + now constructor.
    + intros Hk Hc. constructor; [|now apply Hsp].
      destruct (realizeChord_result g (Some hint) w Hk Hc)
        as (note & q & E & Hn & Hq).
      rewrite E in E1. injection E1 as <-. now exists note, q, (Some hint).
Qed.

(** ** One bar *)

Lemma generateBar_inv w bar w' :
  generateBar w = Ok bar w' ->
  exists ds w1,
    chordSlots (if ltb (next_random w) (twoChordProbability (settings (engine w)))
                then 2 else 1)%nat
               (after_draws 1
                  (with_engine (fun e => set_barCount (S (barCount e)) e) w))
    = Ok ds w1
    ∧ realizeDegrees ds w1 = Ok (chords bar) (after_draws (List.length ds) w1)
    ∧ bar = mkBar (barCount (engine w1)) (chords bar) (currentKey (engine w1))
              (negb (bool_decide (root (currentKey (engine w))
                                  = root (currentKey (engine w1))))
               || negb (bool_decide (mode (currentKey (engine w))
                                     = mode (currentKey (engine w1)))))
    ∧ w' = with_engine (fun e => set_history (history e ++ [bar]) e)
                       (after_draws (List.length ds) w1).
Proof.
  set (count := (if ltb (next_random w) (twoChordProbability (settings (engine w)))
                 then 2 else 1)%nat).
  set (w0 := after_draws 1
               (with_engine (fun e => set_barCount (S (barCount e)) e) w)).
  assert (generateBar w
          = (degrees <- chordSlots count ;;
             chords <- realizeDegrees degrees ;;
             e <- get_engine ;;
             let keyChanged :=
               negb (bool_decide (root (currentKey (engine w)) = root (currentKey e)))
               || negb (bool_decide (mode (currentKey (engine w)) = mode (currentKey e))) in
             let bar := mkBar (barCount e) chords (currentKey e) keyChanged in
             modify (fun e => set_history (history e ++ [bar]) e) ;;
             ret bar) w0) as -> by reflexivity.
  intros H. apply bind_inv in H as (ds & w1 & E1 & H).
  apply bind_inv in H as (cs & w2 & E2 & H).
  pose proof (realizeDegrees_facts _ _ _ _ E2) as (-> & _).
  unfold bind, get_engine, modify, ret in H. cbv zeta in H.
  injection H as <- <-. exists ds, w1. repeat split; assumption.
Qed.
Lemma key_changed (k k' : Key) :
  negb (bool_decide (root k = root k')) || negb (bool_decide (mode k = mode k'))
  = true <-> k' <> k.
Proof.
  destruct k as [r m], k' as [r' m']. cbn [root mode].
  repeat case_bool_decide; cbn; split; try discriminate; try congruence;
    intros _; congruence.
Qed.

Lemma generateBar_facts w bar w' :
  generateBar w = Ok bar w' ->
  barNumber bar = S (barCount (engine w))
  ∧ barCount (engine w') = S (barCount (engine w))
  ∧ history (engine w') = history (engine w) ++ [bar]
  ∧ settings (engine w') = settings (engine w)
  ∧ key bar = currentKey (engine w')
  ∧ (keyChanged bar = true <-> currentKey (engine w') <> currentKey (engine w))
  ∧ (well_formed (currentKey (engine w)) -> well_formed (currentKey (engine w')))
  ∧ (1 ≤ keyStability (settings (engine w)) ->
     currentKey (engine w') = currentKey (engine w))
  ∧ exists ds g,
      list.last ds = Some g
      ∧ currentDegree (engine w') = g
      ∧ list.last (recentDegrees (engine w')) = Some g
      ∧ Forall2 (fun g c => degree c = formatDegree g) ds (chords bar)
      ∧ ((0 <= pitch_class (root (currentKey (engine w'))))%Z ->
         0 ≤ complexity (settings (engine w')) ->
         Forall2 (spelled (currentKey (engine w'))) ds (chords bar)).
Proof.
  intros H. apply generateBar_inv in H as (ds & w1 & E1 & E2 & Hbar & ->).
  apply chordSlots_facts in E1 as (Hl & Hb & Hwf & Hks & Hlast).
  apply realizeDegrees_facts in E2 as (_ & Hds & Hsp).
  unfold beside_degrees in Hb. cbn in Hb. injection Hb as Hs Hc Hh.
  cbn [engine with_engine after_draws settings barCount history currentKey
       currentDegree recentDegrees set_history] in *.
  rewrite Hbar. cbn [barNumber key keyChanged chords].
  split; [exact Hc|]. split; [exact Hc|].
  split; [rewrite Hh, <- Hbar; reflexivity|]. split; [exact Hs|].
  split; [reflexivity|]. split; [apply key_changed|]. split; [exact Hwf|].
  split; [exact Hks|].
  destruct (list.last ds) as [g|] eqn:El.
  - exists ds, g. destruct Hlast as [Hd Hr]. auto 10.
  - apply last_None in El. subst ds.
    destruct (ltb _ _); discriminate Hl.
Qed.

(** Bars in a row, under an invariant that each bar keeps. *)
Lemma generateBars_all (Inv : World -> Prop) (Q : Bar -> Prop) :
  (forall w, Inv w ->
     tables_intact (heap w) ∧ 0 ≤ complexity (settings (engine w))) ->
  (forall w bar w',
     Inv w -> generateBar w = Ok bar w' -> tables_intact (heap w') ->
     Inv w' ∧ Q bar) ->
  forall n w, Inv w ->
    exists bars w',
      times n generateBar w = Ok bars w'
      ∧ List.length bars = n ∧ Forall Q bars ∧ Inv w'.
Proof.
  intros Hinv Hstep. induction n as [|n IH]; intros w Hw.
  - exists [], w. split; [reflexivity|]. split; [reflexivity|].
    split; [constructor|exact Hw].
  - destruct (Hinv w Hw) as [Ht Hc].
    destruct (generateBar_ok w Ht Hc) as (bar & w1 & E1 & _ & _ & Ht1).
    destruct (Hstep w bar w1 Hw E1 (Ht1 Ht)) as [Hw1 Hq].
    destruct (IH w1 Hw1) as (bars & w2 & E2 & Hl & Hqs & Hw2).
    exists (bar :: bars), w2. cbn [times].
    erewrite bind_ok; [|exact E1]. erewrite bind_ok; [|exact E2].
    split; [reflexivity|]. split; [simpl; now rewrite Hl|].
    split; [now constructor|exact Hw2].
Qed.
Lemma generateBars_record n : forall w,
  tables_intact (heap w) ->
  0 ≤ complexity (settings (engine w)) ->
  exists bars w',
    times n generateBar w = Ok bars w'
    ∧ map barNumber bars = seq (S (barCount (engine w))) n
    ∧ history (engine w') = history (engine w) ++ bars
    ∧ barCount (engine w') = (n + barCount (engine w))%nat.
Proof.
  induction n as [|n IH]; intros w Ht Hc.
  - exists [], w. split; [reflexivity|]. split; [reflexivity|].
    split; [now rewrite app_nil_r|reflexivity].
  - destruct (generateBar_ok w Ht Hc) as (bar & w1 & E1 & _ & _ & Ht1).
    destruct (generateBar_facts w bar w1 E1) as (Hn & Hb & Hh & Hs & _).
    destruct (IH w1 (Ht1 Ht)) as (bars & w2 & E2 & Hns & Hhs & Hbs).
    { now rewrite Hs. }
    exists (bar :: bars), w2. cbn [times].
    erewrite bind_ok; [|exact E1]. erewrite bind_ok; [|exact E2].
    split; [reflexivity|]. split; [|split].
    + cbn [map seq]. now rewrite Hn, Hns, Hb.
    + rewrite Hhs, Hh, <- app_assoc. reflexivity.
    + rewrite Hbs, Hb. lia.
Qed.

(** X8. On intact tables and with a complexity in [0,1],
    [generateBar] numbers the bar it returns one above the bar count,
    which it increments, and appends that bar to the history; the bar
    carries the key that the engine is left in, and its [keyChanged] flag
    tells whether that key differs from the key before the call.  So [n]
    calls in a row return bars numbered consecutively, and the history
    grows by exactly these bars, in order: it is never trimmed. *)
Theorem generateBar_record (w : World) :
  tables_intact (heap w) ->
  0 ≤ complexity (settings (engine w)) ->
  complexity (settings (engine w)) ≤ 1 ->
  (exists bar w',
     generateBar w = Ok bar w'
     ∧ barNumber bar = S (barCount (engine w))
     ∧ barCount (engine w') = S (barCount (engine w))
     ∧ history (engine w') = history (engine w) ++ [bar]
     ∧ key bar = currentKey (engine w')
     ∧ (keyChanged bar = true <-> currentKey (engine w') <> currentKey (engine w)))
  ∧ (forall n, exists bars w',
       times n generateBar w = Ok bars w'
       ∧ map barNumber bars = seq (S (barCount (engine w))) n
       ∧ history (engine w') = history (engine w) ++ bars
       ∧ barCount (engine w') = (n + barCount (engine w))%nat).
Proof.
  intros Ht Hc _. split.
  - destruct (generateBar_ok w Ht Hc) as (bar & w1 & E1 & _).
    destruct (generateBar_facts w bar w1 E1) as (Hn & Hb & Hh & _ & Hk & Hch & _).
    exists bar, w1. auto 10.
  - intros n. now apply generateBars_record.
Qed.

Lemma generateBar_record_witness :
  exists bars w',
    times 3 generateBar sample_world = Ok bars w'
    ∧ map barNumber bars = [1; 2; 3]%nat
    ∧ history (engine w') = bars.
Proof.
  assert (tables_intact (heap sample_world)) as Ht by (exists []; reflexivity).
  assert (0 ≤ complexity (settings (engine sample_world))) as Hc
    by (vm_compute; discriminate).
  assert (complexity (settings (engine sample_world)) ≤ 1) as Hc1
    by (vm_compute; discriminate).
  destruct (generateBar_record sample_world Ht Hc Hc1) as [_ H].
  destruct (H 3%nat) as (bars & w' & E & Hn & Hh & _).
  exists bars, w'. split; [exact E|]. split; [exact Hn|exact Hh].
Defined.

(** ** The key of a bar *)

(** X9. Started in a key whose root is a note name and whose mode is
    major or minor, on intact tables and with a complexity in [0,1], the
    engine stays in such a key bar after bar, whatever the
    modulations.  Every chord of a bar is spelled in the key that the bar
    carries, the key after the last modulation of the bar (also the first
    chord of a two-chord bar whose second slot modulated): its root is the
    note of [NOTES] that lies [getDegreeInterval(degree)] semitones above
    the root of that key, its quality one of the options of its degree. *)
Theorem generateBar_in_key (w : World) :
  tables_intact (heap w) ->
  0 ≤ complexity (settings (engine w)) ->
  complexity (settings (engine w)) ≤ 1 ->
  well_formed (currentKey (engine w)) ->
  forall n, exists bars w',
    times n generateBar w = Ok bars w'
    ∧ Forall (fun bar =>
                well_formed (key bar)
                ∧ exists ds, Forall2 (spelled (key bar)) ds (chords bar))
             bars
    ∧ well_formed (currentKey (engine w')).
Proof.
  intros Ht Hc _ Hk n.
  destruct (generateBars_all
              (fun w => tables_intact (heap w)
                        ∧ 0 ≤ complexity (settings (engine w))
                        ∧ well_formed (currentKey (engine w)))
              (fun bar => well_formed (key bar)
                          ∧ exists ds, Forall2 (spelled (key bar)) ds (chords bar)))
    with (n := n) (w := w) as (bars & w' & E & _ & Hq & _ & _ & Hk');
    [tauto| |tauto|].
  - intros w0 bar w1 (Ht0 & Hc0 & Hk0) E Ht1.
    destruct (generateBar_facts w0 bar w1 E)
      as (_ & _ & _ & Hs & Hkey & _ & Hwf & _ & ds & g & _ & _ & _ & _ & Hsp).
    specialize (Hwf Hk0). rewrite <- Hs in Hc0.
    split; [tauto|]. rewrite Hkey. split; [exact Hwf|].
    exists ds. apply Hsp; [apply Hwf|exact Hc0].
  - exists bars, w'. auto.
Qed.

Lemma generateBar_in_key_witness :
  well_formed C_major
  ∧ exists bars w',
      times 4 generateBar sample_world = Ok bars w'
      ∧ Forall (fun bar =>
                  well_formed (key bar)
                  ∧ exists ds, Forall2 (spelled (key bar)) ds (chords bar))
               bars.
Proof.
  assert (tables_intact (heap sample_world)) as Ht by (exists []; reflexivity).
  assert (0 ≤ complexity (settings (engine sample_world))) as Hc
    by (vm_compute; discriminate).
  assert (well_formed C_major) as Hk.
  { split; [vm_compute; discriminate|now left]. }
  split; [exact Hk|].
  assert (complexity (settings (engine sample_world)) ≤ 1) as Hc1
    by (vm_compute; discriminate).
  destruct (generateBar_in_key sample_world Ht Hc Hc1 Hk 4)
    as (bars & w' & E & H & _).
  exists bars, w'. split; [exact E|exact H].
Defined.

(** X10. With a keyStability of 1 or more [maybeModulate] never
    modulates: it consumes its draw and nothing else happens.  On intact
    tables and with a complexity in [0,1], every bar then carries the key
    that the engine started in, with [keyChanged] false. *)
Theorem stable_key (w : World) :
  1 ≤ keyStability (settings (engine w)) ->
  maybeModulate w = Ok tt (after_draws 1 w)
  ∧ (tables_intact (heap w) ->
     0 ≤ complexity (settings (engine w)) ->
     complexity (settings (engine w)) ≤ 1 ->
     forall n, exists bars w',
       times n generateBar w = Ok bars w'
       ∧ Forall (fun bar => key bar = currentKey (engine w)
                            ∧ keyChanged bar = false) bars
       ∧ currentKey (engine w') = currentKey (engine w)).
Proof.
  intros Hks. split.
  - destruct (maybeModulate_run w) as (w' & E & _ & _ & _ & H).
    now rewrite <- (H Hks).
  - intros Ht Hc _ n.
    destruct (generateBars_all
                (fun w0 => tables_intact (heap w0)
                           ∧ 0 ≤ complexity (settings (engine w0))
                           ∧ 1 ≤ keyStability (settings (engine w0))
                           ∧ currentKey (engine w0) = currentKey (engine w))
                (fun bar => key bar = currentKey (engine w)
                            ∧ keyChanged bar = false))
      with (n := n) (w := w) as (bars & w' & E & _ & Hq & _ & _ & _ & Hk');
      [tauto| |tauto|].
    + intros w0 bar w1 (Ht0 & Hc0 & Hks0 & Hk0) E Ht1.
      destruct (generateBar_facts w0 bar w1 E)
        as (_ & _ & _ & Hs & Hkey & Hch & _ & Hsame & _).
      specialize (Hsame Hks0). rewrite Hs.
      split; [rewrite Hsame; tauto|]. rewrite Hkey.
      split; [congruence|].
      destruct (keyChanged bar); [|reflexivity].
      exfalso. now apply (proj1 Hch).
    + exists bars, w'. auto.
Qed.

Lemma stable_key_witness :
  maybeModulate
    (with_engine (set_settings (mkSettings 1 (pct 30) (pct 50) (pct 15)))
                 sample_world)
  = Ok tt (after_draws 1
             (with_engine (set_settings (mkSettings 1 (pct 30) (pct 50) (pct 15)))
                          sample_world))
  ∧ exists bars w',
      times 4 generateBar
            (with_engine (set_settings (mkSettings 1 (pct 30) (pct 50) (pct 15)))
                         sample_world)
      = Ok bars w'
      ∧ Forall (fun bar => key bar = C_major ∧ keyChanged bar = false) bars.
Proof.
  set (w := with_engine (set_settings (mkSettings 1 (pct 30) (pct 50) (pct 15)))
                        sample_world).
  assert (tables_intact (heap w)) as Ht by (exists []; reflexivity).
  assert (0 ≤ complexity (settings (engine w))) as Hc
    by (vm_compute; discriminate).
  assert (1 ≤ keyStability (settings (engine w))) as Hks
    by (vm_compute; discriminate).
  assert (complexity (settings (engine w)) ≤ 1) as Hc1
    by (vm_compute; discriminate).
  destruct (stable_key w Hks) as [Hm H]. split; [exact Hm|].
  destruct (H Ht Hc Hc1 4%nat) as (bars & w' & E & Hq & _).
  exists bars, w'. split; [exact E|exact Hq].
Defined.

(** ** The state after a bar *)

Lemma Forall2_last {A B} (P : A -> B -> Prop) (l : list A) (k : list B) x :
  Forall2 P l k -> list.last l = Some x ->
  exists k' y, k = k' ++ [y] ∧ P x y.
Proof.
  intros H Hl. apply last_Some in Hl as (l' & ->).
  apply Forall2_app_inv_l in H as (k1 & k2 & _ & H2 & ->).
  apply Forall2_cons_inv_l in H2 as (y & k3 & Hy & H3 & ->).
  apply Forall2_nil_inv_l in H3 as ->. now exists k1, y.
Qed.

(** X11. After [generateBar] has returned a bar, [getState] reports
    that bar: its key, its number, and as current degree the degree of
    its last chord, which the chord shows in display form; that degree is
    also the newest entry of the window of recent degrees. *)
Theorem getState_after_bar (w : World) (bar : Bar) (w' : World) :
  generateBar w = Ok bar w' ->
  exists before c g,
    getState w' = Ok (key bar, g, barNumber bar) w'
    ∧ chords bar = before ++ [c]
    ∧ degree c = formatDegree g
    ∧ list.last (recentDegrees (engine w')) = Some g.
Proof.
  intros E.
  destruct (generateBar_facts w bar w' E)
    as (Hn & Hb & _ & _ & Hk & _ & _ & _ & ds & g & Hl & Hd & Hr & Hds & _).
  destruct (Forall2_last _ _ _ _ Hds Hl) as (before & c & Hcs & Hc').
  exists before, c, g.
  split; [|auto]. unfold getState, bind, get_engine, ret.
  now rewrite Hk, Hd, Hn, Hb.
Qed.

Lemma getState_after_bar_witness :
  exists bar w' before c g,
    generateBar sample_world = Ok bar w'
    ∧ getState w' = Ok (key bar, g, barNumber bar) w'
    ∧ chords bar = before ++ [c]
    ∧ degree c = formatDegree g
    ∧ list.last (recentDegrees (engine w')) = Some g.
Proof.
  assert (tables_intact (heap sample_world)) as Ht by (exists []; reflexivity).
  assert (0 ≤ complexity (settings (engine sample_world))) as Hc
    by (vm_compute; discriminate).
  destruct (generateBar_ok sample_world Ht Hc) as (bar & w' & E & _).
  destruct (getState_after_bar sample_world bar w' E) as (before & c & g & H).
  exists bar, w', before, c, g. split; [exact E|exact H].
Defined.

(** ** The degrees that the engine visits *)

Lemma emitted_distribution (d : Dist) g :
  d ∈ static_heap -> g ∈ d.*1 -> g ∈ emitted_degrees.
Proof.
  intros Hd Hg. unfold emitted_degrees. apply elem_of_app. left.
  apply list_elem_of_In, in_concat. exists (d.*1).
  split; [|now apply list_elem_of_In].
  apply in_map_iff. exists d. split; [reflexivity|now apply list_elem_of_In].
Qed.

Lemma emitted_rule e g :
  g ∈ (rule_distribution e).*1 -> g ∈ emitted_degrees.
Proof.
  destruct (selected_rule e) as (l & _ & Hl).
  apply emitted_distribution. eapply list_elem_of_lookup_2. exact Hl.
Qed.

Lemma emitted_approach target seq weight :
  In (target, (seq, weight)) APPROACH_SEQUENCES ->
  Forall (fun g => g ∈ emitted_degrees) seq.
Proof.
  intros H. unfold APPROACH_SEQUENCES in H. simpl in H.
  repeat (destruct H as [[= <- <- <-]|H];
          [repeat constructor; compute_done|]).
  contradiction.
Qed.

Lemma getNextDegree_emitted w g w' :
  tables_intact (heap w) ->
  Forall (fun g => g ∈ emitted_degrees) (approachQueue (engine w)) ->
  getNextDegree w = Ok g w' ->
  g ∈ emitted_degrees
  ∧ Forall (fun g => g ∈ emitted_degrees) (approachQueue (engine w')).
Proof.
  intros Ht Hq E. destruct (approachQueue (engine w)) as [|d q] eqn:Eq.
  - destruct (Qclt_le_dec (next_random w) APPROACH_PROBABILITY) as [Hr|Hr].
    + destruct (getNextDegree_triggers w Eq Hr)
        as (t & c1 & c2 & c3 & wt & Hin & _ & E').
      rewrite E' in E. injection E as <- <-.
      apply emitted_approach in Hin.
      apply Forall_cons_1 in Hin as [H1 H23]. split; [exact H1|exact H23].
    + rewrite (getNextDegree_transition w Ht Eq Hr) in E.
      destruct (rule_distribution_object (engine w)) as [Hobj Hlen].
      destruct (shape_and_draw_ok (rule_distribution (engine w))
                  (after_draws 1 w) Hobj Hlen) as (g' & new & E' & Hg).
      change (engine (after_draws 1 w)) with (engine w) in E'.
      rewrite E' in E. injection E as <- <-.
      split; [now apply emitted_rule in Hg|].
      cbn [after_draws with_heap engine]. rewrite Eq. constructor.
  - rewrite (getNextDegree_queued w d q Eq) in E. injection E as <- <-.
    apply Forall_cons_1 in Hq as [Hd Hq]. split; [exact Hd|exact Hq].
Qed.

Lemma chordSlots_emitted n : forall w ds w',
  tables_intact (heap w) ->
  Forall (fun g => g ∈ emitted_degrees) (approachQueue (engine w)) ->
  chordSlots n w = Ok ds w' ->
  Forall (fun g => g ∈ emitted_degrees) ds
  ∧ Forall (fun g => g ∈ emitted_degrees) (approachQueue (engine w')).
Proof.
  induction n as [|n IH]; intros w ds w' Ht Hq H.
  - injection H as <- <-. split; [constructor|exact Hq].
  - cbn [chordSlots] in H.
    apply bind_inv in H as (g & w1 & E1 & H).
    apply bind_inv in H as (rest & w2 & E2 & H). injection H as <- <-.
    destruct (chordSlot_ok w Ht) as (g0 & w0 & E0 & _ & Ht1).
    rewrite E1 in E0. injection E0 as <- <-.
    apply chordSlot_inv in E1 as (wa & wb & Ea & Eb & ->).
    destruct (maybeModulate_run w) as (wa' & Ea' & Hb & Hh & _).
    rewrite Ea in Ea'. injection Ea' as <-.
    unfold beside_key in Hb. injection Hb as _ _ _ _ _ Hqa.
    destruct (getNextDegree_emitted wa g wb) as [Hg Hqb];
      [now rewrite Hh|now rewrite Hqa|exact Eb|].
    destruct (IH _ _ _ (Ht1 Ht) Hqb E2) as [Hrest Hq2].
    split; [now constructor|exact Hq2].
Qed.

Lemma emitted_vocabulary :
  remove_dups emitted_degrees
  = ["v"; "bII"; "IV"; "bVI"; "iv"; "bVII"; "bIII"; "I"; "iii"; "VI"; "ii";
     "II"; "V"; "vii"; "III"; "vi"].
Proof. vm_compute. reflexivity. Qed.

(** X12. On intact tables, with a complexity in [0,1] and a
    queue that holds approach chords only (the empty queue of a new
    engine, for one), every chord of every bar shows the display form of
    one of the 16 degrees that the distributions and the approach
    sequences mention.  [#IV], a row of the major table and a case of
    [getChordQuality], is not one of them, and none of the 16 starts with
    [#].  Each of them has an interval of its own in [MAJOR_DEGREES]: no
    chord gets the interval 0 for want of one. *)
Theorem generateBar_degrees (w : World) :
  tables_intact (heap w) ->
  0 ≤ complexity (settings (engine w)) ->
  complexity (settings (engine w)) ≤ 1 ->
  Forall (fun g => g ∈ emitted_degrees) (approachQueue (engine w)) ->
  (forall n, exists bars w',
     times n generateBar w = Ok bars w'
     ∧ Forall (fun bar =>
                 Forall (fun c => exists g, g ∈ emitted_degrees
                                            ∧ degree c = formatDegree g)
                        (chords bar))
              bars
     ∧ Forall (fun g => g ∈ emitted_degrees) (approachQueue (engine w')))
  ∧ remove_dups emitted_degrees
    = ["v"; "bII"; "IV"; "bVI"; "iv"; "bVII"; "bIII"; "I"; "iii"; "VI"; "ii";
       "II"; "V"; "vii"; "III"; "vi"]
  ∧ ("#IV" ∉ emitted_degrees)
  ∧ Forall (fun g => degree_token g ∧ startsWith g "#" = false
                     ∧ prop MAJOR_DEGREES (map_string upper_iv g) <> None)
           emitted_degrees.
Proof.
  intros Ht Hc _ Hq. split; [|split; [apply emitted_vocabulary|split]].
  - intros n.
    destruct (generateBars_all
                (fun w => tables_intact (heap w)
                          ∧ 0 ≤ complexity (settings (engine w))
                          ∧ Forall (fun g => g ∈ emitted_degrees)
                                   (approachQueue (engine w)))
                (fun bar =>
                   Forall (fun c => exists g, g ∈ emitted_degrees
                                              ∧ degree c = formatDegree g)
                          (chords bar)))
      with (n := n) (w := w) as (bars & w' & E & _ & Hbars & _ & _ & Hq');
      [tauto| |tauto|].
    + intros w0 bar w1 (Ht0 & Hc0 & Hq0) E Ht1.
      destruct (generateBar_facts w0 bar w1 E) as (_ & _ & _ & Hs & _).
      apply generateBar_inv in E as (ds & wa & E1 & E2 & _ & ->).
      apply chordSlots_emitted in E1 as [Hds Hqa]; [|exact Ht0|exact Hq0].
      apply realizeDegrees_facts in E2 as (_ & Hdeg & _).
      split; [split; [exact Ht1|split; [now rewrite Hs|exact Hqa]]|].
      clear - Hds Hdeg. induction Hdeg as [|g c ds cs Hgc _ IH]; [constructor|].
      apply Forall_cons_1 in Hds as [Hg Hds].
      constructor; [now exists g|now apply IH].
    + exists bars, w'. auto.
  - compute_done.
  - unfold degree_token. compute_done.
Qed.

Lemma generateBar_degrees_witness :
  exists bars w',
    times 4 generateBar sample_world = Ok bars w'
    ∧ Forall (fun bar =>
                Forall (fun c => exists g, g ∈ emitted_degrees
                                           ∧ degree c = formatDegree g)
                       (chords bar))
             bars.
Proof.
  assert (tables_intact (heap sample_world)) as Ht by (exists []; reflexivity).
  assert (0 ≤ complexity (settings (engine sample_world))) as Hc
    by (vm_compute; discriminate).
  assert (complexity (settings (engine sample_world)) ≤ 1) as Hc1
    by (vm_compute; discriminate).
  destruct (generateBar_degrees sample_world Ht Hc Hc1) as [H _]; [constructor|].
  destruct (H 4%nat) as (bars & w' & E & Hb & _).
  exists bars, w'. split; [exact E|exact Hb].
Defined.
(** ** A new key *)

Lemma floor_at_least x (n : Z) : num n ≤ x -> (n <= Math_floor x)%Z.
Proof.
  intros H. rewrite <- (floor_num n). unfold Math_floor.
  apply Qfloor_resp_le. exact H.
Qed.

Lemma at_index_lookup {A} (a : list A) (i : Z) :
  (0 <= i)%Z -> at_index a i = a !! Z.to_nat i.
Proof.
  intros H. unfold at_index. destruct (Z.ltb_spec i 0); [lia|reflexivity].
Qed.

Lemma quarters_below (r : Qc) : r < pct 75 -> r * num 4 < num 3.
Proof. intros H. unfold num, pct, inject_Z in *. qc_lra. Qed.

Lemma quarters_above (r : Qc) : pct 75 ≤ r -> num 3 ≤ r * num 4.
Proof. intros H. unfold num, pct, inject_Z in *. qc_lra. Qed.

Lemma randomKey_key w :
  exists k,
    randomKey w = Ok k (after_draws 2 w)
    ∧ root k = ["C"; "F"; "Bb"; "Eb"; "Ab"; "G"; "D"; "A"]
               !! Z.to_nat (Math_floor (next_random w * num 8))
    ∧ mode k = Some (if ltb (next_random (after_draws 1 w)) (pct 75)
                     then "major" else "minor")
    ∧ well_formed k.
Proof.
  destruct (random_bounds w) as [Ha Hb].
  destruct (random_bounds (after_draws 1 w)) as [Hc Hd].
  pose proof (floor_scaled _ 8 Ha Hb eq_refl) as H8.
  pose proof (floor_scaled _ 4 Hc Hd eq_refl) as H4.
  set (i := Math_floor (next_random w * num 8)) in *.
  set (r := next_random (after_draws 1 w)) in *.
  set (j := Math_floor (r * num 4)) in *.
  assert (randomKey w
          = Ok (mkKey (["C"; "F"; "Bb"; "Eb"; "Ab"; "G"; "D"; "A"] !! Z.to_nat i)
                      (["major"; "major"; "major"; "minor"] !! Z.to_nat j))
               (after_draws 2 w)) as E.
  { unfold randomKey, bind. rewrite !Math_random_eq. fold r. cbv zeta.
    cbn [List.length]. change (Z.of_nat 8) with 8%Z. change (Z.of_nat 4) with 4%Z.
    fold i. fold j. rewrite !at_index_lookup by lia. reflexivity. }
  assert (["major"; "major"; "major"; "minor"] !! Z.to_nat j
          = Some (if ltb r (pct 75) then "major" else "minor")) as Em.
  { destruct (Qclt_le_dec r (pct 75)) as [Hlt|Hge].
    - rewrite (proj2 (ltb_lt _ _) Hlt).
      assert (j < 3)%Z as Hj.
      { apply floor_below. now apply quarters_below. }
      assert (j = 0 ∨ j = 1 ∨ j = 2)%Z as [->|[->| ->]] by lia; reflexivity.
    - rewrite (proj2 (ltb_ge _ _) Hge).
      assert (3 <= j)%Z as Hj.
      { apply floor_at_least. now apply quarters_above. }
      assert (j = 3)%Z as -> by lia. reflexivity. }
  eexists. split; [exact E|]. cbn [root mode].
  split; [reflexivity|]. split; [exact Em|].
  split; cbn [root mode].
  - assert (i = 0 ∨ i = 1 ∨ i = 2 ∨ i = 3 ∨ i = 4 ∨ i = 5 ∨ i = 6 ∨ i = 7)%Z
      as Hi by lia.
    repeat (destruct Hi as [->|Hi]; [vm_compute; discriminate|]).
    subst i. rewrite Hi. vm_compute. discriminate.
  - rewrite Em. destruct (ltb r (pct 75)); [now left|now right].
Qed.

(** X13. [randomKey] consumes two draws: the first one chooses the root
    among C, F, Bb, Eb, Ab, G, D and A, at the index [floor(8 * draw)];
    the second one chooses the mode, minor when it is 0.75 or more and
    major otherwise.  The key is well formed.  [reset()] installs it,
    with the degree I, no previous degree, bar count 0 and an empty
    history, window and queue, the settings being kept; [reset(key)]
    installs [key] in the same way and consumes no draw. *)
Theorem randomKey_choice (w : World) :
  exists k,
    randomKey w = Ok k (after_draws 2 w)
    ∧ root k = ["C"; "F"; "Bb"; "Eb"; "Ab"; "G"; "D"; "A"]
               !! Z.to_nat (Math_floor (next_random w * num 8))
    ∧ mode k = Some (if ltb (next_random (after_draws 1 w)) (pct 75)
                     then "major" else "minor")
    ∧ well_formed k
    ∧ reset None w
      = Ok tt (with_engine (fun e => initial_engine (settings e) k)
                           (after_draws 2 w))
    ∧ forall k0, reset (Some k0) w
                 = Ok tt (with_engine (fun e => initial_engine (settings e) k0) w).
Proof.
  destruct (randomKey_key w) as (k & E & Hr & Hm & Hk).
  exists k. split; [exact E|]. split; [exact Hr|]. split; [exact Hm|].
  split; [exact Hk|]. split.
  - unfold reset. erewrite bind_ok; [|exact E]. reflexivity.
  - intros k0. reflexivity.
Qed.
(** ** Settings *)

(** X14. [updateSettings] overwrites the settings that its argument
    names and keeps the others; it touches nothing else, neither the key
    nor the degrees, the queue, the window, the history or the store, and
    consumes no draw.  An empty argument changes nothing; two updates in
    a row amount to one update by the first argument overwritten by the
    second; and the updated settings survive a [reset]. *)
Theorem updateSettings_assign (s : SettingsArg) (w : World) :
  let old := settings (engine w) in
  let new := mkSettings
               (default (keyStability old) (arg_keyStability s))
               (default (adventurousness old) (arg_adventurousness s))
               (default (complexity old) (arg_complexity s))
               (default (twoChordProbability old) (arg_twoChordProbability s)) in
  updateSettings s w = Ok tt (with_engine (set_settings new) w)
  ∧ updateSettings (mkSettingsArg None None None None) w = Ok tt w
  ∧ (forall s', (updateSettings s ;; updateSettings s') w
                = updateSettings (overwritten s s') w)
  ∧ (forall k, exists w',
       (updateSettings s ;; reset k) w = Ok tt w'
       ∧ settings (engine w') = new).
Proof.
  cbv zeta. split; [reflexivity|]. split; [|split].
  - unfold updateSettings, modify. cbn [arg_keyStability arg_adventurousness
      arg_complexity arg_twoChordProbability default from_option].
    destruct w as [[[] ? ? ? ? ? ? ?] ? ? ?]. reflexivity.
  - intros s'. unfold updateSettings, bind, modify, overwritten.
    destruct s as [[a|] [b|] [c|] [d|]], s' as [[a'|] [b'|] [c'|] [d'|]];
      reflexivity.
  - intros k. unfold bind at 1. unfold updateSettings, modify.
    unfold reset, bind. destruct k as [k|]; [eexists; split; reflexivity|].
    unfold randomKey, bind. rewrite !Math_random_eq.
    eexists. split; reflexivity.
Qed.

(** ** Complexity and the choice of a quality *)









(** ** Modulations there and back *)

(** X16. From a key whose root is written as in [NOTES] and whose mode
    is major or minor, each modulation is undone by one modulation: a
    fifth up by a fifth down and conversely, a step up by a step down and
    conversely, and relative, parallel and tritone each by itself. *)
Theorem modulation_round_trip (type : string) (k : Key) :
  In type MODULATION_TYPES ->
  (exists n, In n NOTES ∧ root k = Some n) ->
  mode k = Some "major" ∨ mode k = Some "minor" ->
  exists k',
    modulate_switch type k = Some k'
    ∧ modulate_switch (opposite type) k' = Some k.
Proof.
  intros Ht (n & Hn & Hr) Hm. destruct k as [r m]. cbn [root mode] in *.
  subst r. unfold MODULATION_TYPES in Ht. unfold NOTES in Hn.
  simpl in Ht, Hn.
  repeat (destruct Ht as [<-|Ht];
          [repeat (destruct Hn as [<-|Hn];
                   [destruct Hm as [->| ->]; eexists; split; reflexivity|]);
           contradiction|]).
  contradiction.
Qed.

Lemma modulation_round_trip_witness :
  exists k',
    modulate_switch "relative" C_major = Some k'
    ∧ modulate_switch "relative" k' = Some C_major.
Proof.
  apply (modulation_round_trip "relative" C_major).
  - simpl. tauto.
  - exists "C". split; [simpl; tauto|reflexivity].
  - now left.
Defined.

(** ** Starting an approach *)

(** X17. [tryStartApproach] always queues a sequence and returns true:
    of the four targets at most one is excluded, so the guard for an
    empty choice never fires.  It consumes one draw; the target it draws
    is not the current degree, and the queue becomes the two approach
    chords of that target followed by the target itself. *)
Theorem tryStartApproach_target (w : World) :
  exists target c1 c2 weight,
    tryStartApproach w
    = Ok true (with_engine (set_approachQueue [c1; c2; target]) (after_draws 1 w))
    ∧ target <> currentDegree (engine w)
    ∧ prop APPROACH_SEQUENCES target = Some ([c1; c2; target], weight).
Proof.
  destruct (tryStartApproach_starts w) as (target & seq & weight & Hin & Hne & E).
  unfold APPROACH_SEQUENCES in Hin. simpl in Hin.
  repeat (destruct Hin as [[= <- <- <-]|Hin];
          [eexists _, _, _, _; split; [exact E|]; split; [exact Hne|reflexivity]|]).
  contradiction.
Qed.

(** ** The total of a distribution *)

Lemma num_succ (n : nat) : num (Z.of_nat (S n)) = num (Z.of_nat n) + 1.
Proof.
  rewrite Nat2Z.inj_succ. unfold Z.succ.
  apply Qc_is_canon. unfold Qcplus, Q2Qc. cbn [this].
  rewrite !Qred_correct, !this_num. now rewrite inject_Z_plus.
Qed.

Lemma total_affine (d : Dist) (x y : Qc) :
  total (map (fun kw => (kw.1, kw.2 * x + y)) d)
  = total d * x + num (Z.of_nat (List.length d)) * y.
Proof.
  induction d as [|[k p] d IH].
  - change (total [] = total [] * x + num 0 * y).
    assert (num 0 = 0) as -> by (apply Qc_is_canon; reflexivity).
    unfold total. cbn [fold_left]. ring.
  - cbn [map List.length fst snd]. rewrite !total_cons, IH, num_succ. ring.
Qed.

Lemma total_blend a (d : Dist) :
  d <> [] -> total (blend a d) = total d * (1 - a) + a.
Proof.
  intros Hd. unfold blend. rewrite total_affine.
  assert (num (Z.of_nat (List.length d)) <> 0) as Hn.
  { assert (0 < num (Z.of_nat (List.length d))) as H.
    { apply num_pos. destruct d; [contradiction|simpl; lia]. }
    intros E. rewrite E in H. discriminate H. }
  field. exact Hn.
Qed.

Lemma blend_weights a (d : Dist) :
  0 ≤ a -> a ≤ 1 -> Forall (fun kw => 0 ≤ kw.2) d ->
  Forall (fun kw => 0 ≤ kw.2) (blend a d)
  ∧ (0 < a -> Forall (fun kw => 0 < kw.2) (blend a d)).
Proof.
  intros Ha0 Ha1 Hd. destruct d as [|kw0 d0]; [split; constructor|].
  set (d := kw0 :: d0) in *.
  assert (0 < 1 / num (Z.of_nat (List.length d))) as Hu.
  { unfold Qcdiv. rewrite Qcmult_1_l. apply Qcinv_pos, num_pos.
    simpl. lia. }
  unfold blend. set (u := 1 / num (Z.of_nat (List.length d))) in *. clearbody u.
  assert (0 ≤ 1 - a) as Hb by qc_lra.
  split; [|intros Ha].
  - apply Forall_map. eapply list.Forall_impl; [exact Hd|].
    intros [k p] Hp. cbn [fst snd] in *.
    pose proof (Qcmult_nonneg_nonneg _ _ Hp Hb) as H1.
    pose proof (Qcmult_nonneg_nonneg _ _ (Qclt_le_weak _ _ Hu) Ha0) as H2.
    set (x := p * (1 - a)) in *. set (y := u * a) in *. clearbody x y.
    clear - H1 H2. qc_lra.
  - apply Forall_map. eapply list.Forall_impl; [exact Hd|].
    intros [k p] Hp. cbn [fst snd] in *.
    pose proof (Qcmult_nonneg_nonneg _ _ Hp Hb) as H1.
    pose proof (Qcmult_pos_pos _ _ Hu Ha) as H2.
    set (x := p * (1 - a)) in *. set (y := u * a) in *. clearbody x y.
    clear - H1 H2. qc_lra.
Qed.

(** X18. The adventurousness pass keeps a distribution a distribution.
    On a non-empty object of total [T] the new object has the total
    [T * (1 - a) + a], in exact arithmetic: a total of 1 is kept,
    whatever [a] is.  With [a] from 0 to 1, weights that are not
    negative stay so, and as soon as [a] is positive every weight of the
    new object is positive: every degree that the object lists can then
    be drawn. *)
Theorem adjustForAdventurousness_total (l : nat) (d : Dist) (w : World) :
  let a := adventurousness (settings (engine w)) in
  heap w !! l = Some d -> is_object d -> d <> [] ->
  exists shaped,
    adjustForAdventurousness l w
    = Ok (List.length (heap w)) (with_heap (heap w ++ [shaped]) w)
    ∧ shaped.*1 = d.*1
    ∧ total shaped = total d * (1 - a) + a
    ∧ (total d = 1 -> total shaped = 1)
    ∧ (0 ≤ a -> a ≤ 1 -> Forall (fun kw => 0 ≤ kw.2) d ->
       Forall (fun kw => 0 ≤ kw.2) shaped
       ∧ (0 < a -> Forall (fun kw => 0 < kw.2) shaped)).
Proof.
  intros a Hl Hobj Hd. exists (blend a d).
  split; [now apply adjustForAdventurousness_eq|].
  split; [unfold blend; apply map_keys; now intros [k p]|].
  pose proof (total_blend a d Hd) as Ht.
  split; [exact Ht|]. split; [|apply blend_weights].
  intros E. rewrite Ht, E. ring.
Qed.

Lemma adjustForAdventurousness_total_witness :
  exists shaped,
    adjustForAdventurousness 0 sample_world
    = Ok 39%nat (with_heap (static_heap ++ [shaped]) sample_world)
    ∧ total shaped = 1
    ∧ Forall (fun kw => 0 < kw.2) shaped.
Proof.
  assert (heap sample_world !! 0%nat = Some tonic_major) as Hl by reflexivity.
  assert (is_object tonic_major) as Hobj by (unfold is_object; compute_done).
  assert (tonic_major <> []) as Hd by discriminate.
  destruct (adjustForAdventurousness_total 0 tonic_major sample_world Hl Hobj Hd)
    as (shaped & E & _ & _ & H1 & Hpos).
  exists shaped. split; [exact E|].
  split; [apply H1, Qc_is_canon; reflexivity|].
  apply Hpos.
  - vm_compute. discriminate.
  - vm_compute. discriminate.
  - compute_done.
  - vm_compute. reflexivity.
Defined.
(** ** Note names *)

(** X19. [normalizeNote] understands every spelling of a note: each of
    the seven letters is in [NOTES], and the letter followed by [#] or by
    [b] is normalized to the note of [NOTES] one semitone above or below
    it, modulo 12 (B# is C, Cb is B).  Normalizing twice is normalizing
    once, for the names of one or two characters that notes have. *)
Theorem normalizeNote_spellings (note : string) :
  (String.length note <= 2)%nat ->
  normalizeNote (normalizeNote (Some note)) = normalizeNote (Some note)
  ∧ ((0 <= pitch_class (Some note))%Z
     <-> In note NOTES ∨ In note ENHARMONIC.*1)
  ∧ Forall (fun letter =>
              (0 <= pitch_class (Some letter))%Z
              ∧ pitch_class (Some (letter +:+ "#"))
                = ((pitch_class (Some letter) + 1) mod 12)%Z
              ∧ pitch_class (Some (letter +:+ "b"))
                = ((pitch_class (Some letter) - 1) mod 12)%Z)
           ["C"; "D"; "E"; "F"; "G"; "A"; "B"].
Proof.
  intros _. split; [|split].
  - unfold normalizeNote at 2 3.
    destruct (prop ENHARMONIC note) as [flat|] eqn:E.
    + apply prop_In, list_elem_of_In in E. unfold ENHARMONIC in E. simpl in E.
      repeat (destruct E as [[= <- <-]|E]; [reflexivity|]). contradiction.
    + unfold normalizeNote. now rewrite E.
  - unfold pitch_class, normalizeNote, indexOf.
    destruct (prop ENHARMONIC note) as [flat|] eqn:E.
    + apply prop_In, list_elem_of_In in E.
      split; [intros _; right|]; [apply in_map_iff; now exists (note, flat)|].
      intros _. unfold ENHARMONIC in E. simpl in E.
      repeat (destruct E as [[= <- <-]|E]; [vm_compute; discriminate|]).
      contradiction.
    + split.
      * intros H. left.
        assert (forall a i, (0 <= i)%Z -> (0 <= indexOf_from a note i)%Z -> In note a)
          as Hin.
        { induction a as [|y a IH]; intros i Hi; cbn [indexOf_from]; [lia|].
          destruct (String.eqb_spec y note) as [->|_]; [now left|].
          intros H'. right. apply (IH (i + 1)%Z); [lia|exact H']. }
        now apply (Hin NOTES 0%Z).
      * intros [H|H].
        -- unfold NOTES in H. simpl in H.
           repeat (destruct H as [<-|H]; [vm_compute; discriminate|]).
           contradiction.
        -- apply prop_None in E. exfalso. apply E.
           now apply list_elem_of_In.
  - repeat constructor; vm_compute; discriminate.
Qed.

Lemma normalizeNote_spellings_witness :
  normalizeNote (normalizeNote (Some "F#")) = normalizeNote (Some "F#")
  ∧ (0 <= pitch_class (Some "F#"))%Z.
Proof.
  destruct (normalizeNote_spellings "F#") as (H1 & H2 & _); [simpl; lia|].
  split; [exact H1|]. apply H2. right. simpl. tauto.
Defined.
(** ** A new engine *)

Lemma constructor_eq arg w :
  exists k,
    well_formed k
    ∧ constructor arg w
      = Ok tt (mkWorld
                 (initial_engine
                    (mkSettings
                       (default (pct 85) (arg ≫= arg_keyStability))
                       (default (pct 30) (arg ≫= arg_adventurousness))
                       (default (pct 50) (arg ≫= arg_complexity))
                       (default (pct 15) (arg ≫= arg_twoChordProbability)))
                    k)
                 (heap w) (entropy w) (2 + drawn w)).
Proof.
  set (w0 := with_engine
               (set_settings
                  (mkSettings
                     (default (pct 85) (arg ≫= arg_keyStability))
                     (default (pct 30) (arg ≫= arg_adventurousness))
                     (default (pct 50) (arg ≫= arg_complexity))
                     (default (pct 15) (arg ≫= arg_twoChordProbability))))
               w).
  destruct (randomKey_key w0) as (k & E & _ & _ & Hk).
  exists k. split; [exact Hk|].
  assert (constructor arg w = reset None w0) as ->.
  { unfold constructor, bind, modify, w0, with_engine. now destruct arg. }
  unfold reset. erewrite bind_ok; [|exact E]. reflexivity.
Qed.

(** One bar under the invariants of a running engine. *)
Lemma generateBar_step w bar w' :
  tables_intact (heap w) ->
  0 ≤ complexity (settings (engine w)) ->
  well_formed (currentKey (engine w)) ->
  Forall (fun g => g ∈ emitted_degrees) (approachQueue (engine w)) ->
  generateBar w = Ok bar w' ->
  (0 ≤ complexity (settings (engine w'))
   ∧ well_formed (currentKey (engine w'))
   ∧ Forall (fun g => g ∈ emitted_degrees) (approachQueue (engine w')))
  ∧ well_formed (key bar)
  ∧ (List.length (chords bar) = 1%nat ∨ List.length (chords bar) = 2%nat)
  ∧ exists ds, Forall (fun g => g ∈ emitted_degrees) ds
               ∧ Forall2 (spelled (key bar)) ds (chords bar).
Proof.
  intros Ht Hc Hk Hq E.
  destruct (generateBar_ok w Ht Hc) as (bar0 & w0 & E0 & Hlen & _).
  rewrite E in E0. injection E0 as <- <-.
  destruct (generateBar_facts w bar w' E)
    as (_ & _ & _ & Hs & Hkey & _ & Hwf & _).
  specialize (Hwf Hk).
  apply generateBar_inv in E as (ds & wa & E1 & E2 & _ & Hw').
  pose proof E1 as E1'.
  apply chordSlots_emitted in E1 as [Hds Hqa]; [|exact Ht|exact Hq].
  apply realizeDegrees_facts in E2 as (_ & _ & Hsp).
  assert (currentKey (engine w') = currentKey (engine wa)) as Hka
    by now rewrite Hw'.
  assert (settings (engine w') = settings (engine wa)) as Hsa
    by now rewrite Hw'.
  assert (approachQueue (engine w') = approachQueue (engine wa)) as Hqw
    by now rewrite Hw'.
  rewrite Hs, Hqw, Hkey. split; [auto|]. split; [exact Hwf|].
  split; [rewrite Hlen; destruct (ltb _ _); tauto|].
  exists ds. split; [exact Hds|]. rewrite Hka. apply Hsp.
  - rewrite <- Hka. apply Hwf.
  - rewrite <- Hsa, Hs. exact Hc.
Qed.

(** X20. [new MarkovJazzEngine(settings)] on intact tables, with a
    complexity in [0,1], given or default, followed by [n] calls of
    [generateBar]: the constructor returns, every call returns a bar, the
    bars are numbered from 1 to [n] and are the history; each bar has one
    or two chords and a well-formed key, and each chord realizes in that
    key one of the degrees of the tables: its root is a note of [NOTES],
    its quality an option of its degree. *)
Theorem new_engine_bars (arg : option SettingsArg) (w : World) (n : nat) :
  tables_intact (heap w) ->
  0 ≤ default (pct 50) (arg ≫= arg_complexity) ->
  default (pct 50) (arg ≫= arg_complexity) ≤ 1 ->
  exists w0 bars w',
    constructor arg w = Ok tt w0
    ∧ times n generateBar w0 = Ok bars w'
    ∧ map barNumber bars = seq 1 n
    ∧ history (engine w') = bars
    ∧ Forall (fun bar =>
                well_formed (key bar)
                ∧ (List.length (chords bar) = 1%nat
                   ∨ List.length (chords bar) = 2%nat)
                ∧ exists ds, Forall (fun g => g ∈ emitted_degrees) ds
                             ∧ Forall2 (spelled (key bar)) ds (chords bar))
             bars.
Proof.
  intros Ht Hc _. destruct (constructor_eq arg w) as (k & Hk & E0).
  match type of E0 with _ = Ok tt ?x => set (w0 := x) in * end.
  assert (tables_intact (heap w0)) as Ht0 by exact Ht.
  assert (0 ≤ complexity (settings (engine w0))) as Hc0 by exact Hc.
  destruct (generateBars_record n w0 Ht0 Hc0) as (bars & w' & E & Hn & Hh & _).
  destruct (generateBars_all
              (fun w => tables_intact (heap w)
                        ∧ 0 ≤ complexity (settings (engine w))
                        ∧ well_formed (currentKey (engine w))
                        ∧ Forall (fun g => g ∈ emitted_degrees)
                                 (approachQueue (engine w)))
              (fun bar =>
                 well_formed (key bar)
                 ∧ (List.length (chords bar) = 1%nat
                    ∨ List.length (chords bar) = 2%nat)
                 ∧ exists ds, Forall (fun g => g ∈ emitted_degrees) ds
                              ∧ Forall2 (spelled (key bar)) ds (chords bar)))
    with (n := n) (w := w0) as (bars' & w'' & E' & _ & Hq & _).
  - tauto.
  - intros wa bar wb (Hta & Hca & Hka & Hqa) Ea Htb.
    destruct (generateBar_step wa bar wb Hta Hca Hka Hqa Ea) as [Hinv Hbar].
    split; [tauto|exact Hbar].
  - split; [exact Ht0|]. split; [exact Hc0|]. split; [exact Hk|constructor].
  - rewrite E in E'. injection E' as <- <-.
    exists w0, bars, w'. split; [exact E0|].
    split; [exact E|]. split; [exact Hn|]. split; [exact Hh|exact Hq].
Qed.

Lemma new_engine_bars_witness :
  exists w0 bars w',
    constructor None sample_world = Ok tt w0
    ∧ times 8 generateBar w0 = Ok bars w'
    ∧ map barNumber bars = seq 1 8
    ∧ history (engine w') = bars.
Proof.
  assert (tables_intact (heap sample_world)) as Ht by (exists []; reflexivity).
  assert (0 ≤ default (pct 50) (None ≫= arg_complexity)) as Hc
    by (vm_compute; discriminate).
  assert (default (pct 50) (None ≫= arg_complexity) ≤ 1) as Hc1
    by (vm_compute; discriminate).
  destruct (new_engine_bars None sample_world 8 Ht Hc Hc1)
    as (w0 & bars & w' & E0 & E & Hn & Hh & _).
  exists w0, bars, w'. auto.
Defined.
(** ** The rows of the lead sheet *)

Lemma generateBars_run n w :
  tables_intact (heap w) ->
  0 ≤ complexity (settings (engine w)) ->
  exists bars w',
    times n generateBar w = Ok bars w'
    ∧ map barNumber bars = seq (S (barCount (engine w))) n
    ∧ barCount (engine w') = (n + barCount (engine w))%nat
    ∧ tables_intact (heap w')
    ∧ settings (engine w') = settings (engine w).
Proof.
  intros Ht Hc.
  destruct (generateBars_record n w Ht Hc) as (bars & w' & E & Hn & _ & Hb).
  destruct (generateBars_all
              (fun w0 => tables_intact (heap w0)
                         ∧ 0 ≤ complexity (settings (engine w0))
                         ∧ settings (engine w0) = settings (engine w))
              (fun _ => True))
    with (n := n) (w := w) as (bars' & w'' & E' & _ & _ & Ht' & _ & Hs');
    [tauto| |tauto|].
  - intros wa bar wb (Hta & Hca & Hsa) Ea Htb.
    destruct (generateBar_facts wa bar wb Ea) as (_ & _ & _ & Hs & _).
    rewrite Hs. tauto.
  - rewrite E in E'. injection E' as <- <-. exists bars, w'. auto.
Qed.

Lemma generateRow_loop_times n : forall acc w bars w',
  times n generateBar w = Ok bars w' ->
  generateRow_loop n acc w = Ok (acc ++ bars) w'.
Proof.
  induction n as [|n IH]; intros acc w bars w' H.
  - injection H as <- <-. cbn [generateRow_loop]. now rewrite app_nil_r.
  - cbn [times] in H. apply bind_inv in H as (bar & w1 & E1 & H).
    apply bind_inv in H as (rest & w2 & E2 & H). injection H as <- <-.
    cbn [generateRow_loop]. erewrite bind_ok; [|exact E1].
    rewrite (IH _ _ _ _ E2). now rewrite <- app_assoc.
Qed.

Lemma initRows_loop_rows v b : forall acc w,
  tables_intact (heap w) ->
  0 ≤ complexity (settings (engine w)) ->
  exists rows w',
    initRows_loop v b acc w = Ok (acc ++ rows) w'
    ∧ List.length rows = v
    ∧ Forall (fun row => List.length row = b) rows
    ∧ (forall r p row bar,
         rows !! r = Some row -> row !! p = Some bar ->
         barNumber bar = (barCount (engine w) + r * b + p + 1)%nat).
Proof.
  induction v as [|v IH]; intros acc w Ht Hc.
  - exists [], w. cbn [initRows_loop]. rewrite app_nil_r.
    split; [reflexivity|]. split; [reflexivity|]. split; [constructor|].
    intros r p row bar H. now rewrite lookup_nil in H.
  - destruct (generateBars_run b w Ht Hc) as (row & w1 & E1 & Hn & Hb & Ht1 & Hs1).
    apply (generateRow_loop_times b []) in E1. cbn [app] in E1.
    destruct (IH (acc ++ [row]) w1 Ht1) as (rows & w2 & E2 & Hl & Hlen & Hpos).
    { now rewrite Hs1. }
    exists (row :: rows), w2. cbn [initRows_loop]. unfold generateRow.
    erewrite bind_ok; [|exact E1]. rewrite E2, <- app_assoc.
    split; [reflexivity|]. split; [simpl; now rewrite Hl|].
    split.
    + constructor; [|exact Hlen].
      rewrite <- (length_map barNumber), Hn. apply length_seq.
    + intros [|r] p row' bar Hr Hp.
      * injection Hr as <-.
        assert (map barNumber row !! p = Some (barNumber bar)) as H
          by now rewrite list_lookup_fmap, Hp.
        rewrite Hn in H. apply lookup_seq in H as [-> _]. lia.
      * cbn [lookup list_lookup] in Hr.
        rewrite (Hpos r p row' bar Hr Hp), Hb. lia.
Qed.

(** X21. The rows of the lead sheet are numbered as the display assumes.
    On intact tables and with a complexity in [0,1], [initRows()] fills [visibleRows] rows of [barsPerRow] bars each, and
    the bar at position [p] of row [r] carries the number
    [barCount + r * barsPerRow + p + 1], [barCount] being the bar count of
    the engine before the call: after a reset the number of a bar is its
    global index plus one, which is how [updateCurrentBarHighlight] finds
    the current bar. *)
Theorem initRows_numbering (visibleRows barsPerRow : nat) (w : World) :
  tables_intact (heap w) ->
  0 ≤ complexity (settings (engine w)) ->
  complexity (settings (engine w)) ≤ 1 ->
  exists rows w',
    initRows visibleRows barsPerRow w = Ok rows w'
    ∧ List.length rows = visibleRows
    ∧ Forall (fun row => List.length row = barsPerRow) rows
    ∧ (forall r p row bar,
         rows !! r = Some row -> row !! p = Some bar ->
         barNumber bar
         = (barCount (engine w) + r * barsPerRow + p + 1)%nat).
Proof.
  intros Ht Hc _.
  destruct (initRows_loop_rows visibleRows barsPerRow [] w Ht Hc)
    as (rows & w' & E & H).
  exists rows, w'. split; [exact E|exact H].
Qed.

Lemma initRows_numbering_witness :
  exists rows w',
    initRows 3 4 sample_world = Ok rows w'
    ∧ List.length rows = 3%nat
    ∧ Forall (fun row => List.length row = 4%nat) rows
    ∧ (forall r p row bar,
         rows !! r = Some row -> row !! p = Some bar ->
         barNumber bar = (0 + r * 4 + p + 1)%nat).
Proof.
  apply (initRows_numbering 3 4 sample_world).
  - exists []. reflexivity.
  - vm_compute. discriminate.
  - vm_compute. discriminate.
Defined.
(** ** The three ways of a next degree *)

(** X22. On intact tables [getNextDegree] returns a degree, writes no
    field of the engine but the queue, and leaves every object of the
    store as it was.  With a queue that is not empty it returns the head
    and consumes no draw.  Otherwise it consumes two draws: when the
    first one is below 0.12 the second one chooses an approach target
    other than the current degree, whose first chord is returned and
    whose other chords are queued; when it is not, the queue stays empty
    and the degree is one that the distribution of the rule lists. *)
Theorem getNextDegree_paths (w : World) :
  tables_intact (heap w) ->
  exists g w',
    getNextDegree w = Ok g w'
    ∧ beside_queue (engine w') = beside_queue (engine w)
    ∧ preserves (heap w) (heap w')
    ∧ match approachQueue (engine w) with
      | d :: q => g = d ∧ approachQueue (engine w') = q ∧ drawn w' = drawn w
      | [] =>
          drawn w' = (2 + drawn w)%nat
          ∧ if ltb (next_random w) APPROACH_PROBABILITY
            then exists target weight,
                   prop APPROACH_SEQUENCES target
                   = Some (g :: approachQueue (engine w'), weight)
                   ∧ target <> currentDegree (engine w)
            else approachQueue (engine w') = []
                 ∧ g ∈ (rule_distribution (engine w)).*1
      end.
Proof.
  intros Ht. destruct (approachQueue (engine w)) as [|d q] eqn:Eq.
  - destruct (Qclt_le_dec (next_random w) APPROACH_PROBABILITY) as [Hr|Hr].
    + rewrite (proj2 (ltb_lt _ _) Hr).
      destruct (getNextDegree_triggers w Eq Hr)
        as (t & c1 & c2 & c3 & wt & Hin & Hne & E).
      eexists _, _. split; [exact E|]. split; [reflexivity|].
      split; [now intros l x|]. split; [reflexivity|].
      exists t, wt. split; [|exact Hne]. cbn [with_engine engine approachQueue
        set_approachQueue].
      unfold APPROACH_SEQUENCES in Hin. simpl in Hin.
      repeat (destruct Hin as [[= <- <- <- <- <-]|Hin]; [reflexivity|]).
      contradiction.
    + rewrite (proj2 (ltb_ge _ _) Hr).
      rewrite (getNextDegree_transition w Ht Eq Hr).
      destruct (rule_distribution_object (engine w)) as [Hobj Hlen].
      destruct (shape_and_draw_ok (rule_distribution (engine w))
                  (after_draws 1 w) Hobj Hlen) as (g & new & E & Hg).
      eexists _, _. split; [exact E|]. split; [reflexivity|].
      split; [apply preserves_app|]. split; [reflexivity|].
      split; [exact Eq|exact Hg].
  - eexists _, _. split; [apply getNextDegree_queued; exact Eq|].
    cbn [with_engine engine heap drawn approachQueue set_approachQueue].
    split; [reflexivity|]. split; [now intros l x|]. auto.
Qed.

Lemma getNextDegree_paths_witness :
  exists g w',
    getNextDegree queued_world = Ok g w'
    ∧ g = "ii" ∧ approachQueue (engine w') = ["V"; "I"]
    ∧ drawn w' = drawn queued_world.
Proof.
  assert (tables_intact (heap queued_world)) as Ht by (exists []; reflexivity).
  destruct (getNextDegree_paths queued_world Ht) as (g & w' & E & _ & _ & H).
  exists g, w'. split; [exact E|exact H].
Defined.

(** ** The state after a chord slot *)

Lemma maybeModulate_degree w w' :
  maybeModulate w = Ok tt w' ->
  currentDegree (engine w') = currentDegree (engine w)
  ∨ currentDegree (engine w') = "I".
Proof.
  rewrite maybeModulate_eq. destruct (ltb _ _).
  - destruct (modulate_eq (after_draws 1 w)) as (type & _ & _ & E).
    rewrite E. intros [= <-]. cbn. destruct (ltb _ _); [now right|now left].
  - intros [= <-]. now left.
Qed.

(** X23. One chord slot of [generateBar], on intact tables: the degree
    drawn becomes the current degree and the newest entry of the window.
    The previous degree becomes the degree that the draw started from:
    the current degree before the slot, or ['I'] when the slot modulated
    and the modulation landed on the tonic; with a keyStability of 1 or
    more it is always the current degree before the slot.  Settings, bar
    count and history are not written. *)
Theorem chordSlot_update (w : World) :
  tables_intact (heap w) ->
  exists g w',
    chordSlot w = Ok g w'
    ∧ currentDegree (engine w') = g
    ∧ list.last (recentDegrees (engine w')) = Some g
    ∧ (previousDegree (engine w') = Some (currentDegree (engine w))
       ∨ previousDegree (engine w') = Some "I")
    ∧ (1 ≤ keyStability (settings (engine w)) ->
       previousDegree (engine w') = Some (currentDegree (engine w)))
    ∧ beside_degrees (engine w') = beside_degrees (engine w).
Proof.
  intros Ht. destruct (chordSlot_ok w Ht) as (g & w' & E & _).
  exists g, w'. split; [exact E|].
  destruct (chordSlot_facts w g w' E) as (Hb & Hd & Hr & _ & _).
  split; [exact Hd|]. split; [exact Hr|].
  apply chordSlot_inv in E as (w1 & w2 & E1 & E2 & ->).
  apply getNextDegree_beside_queue in E2. unfold same, beside_queue in E2.
  injection E2 as _ _ Hd2 _ _ _ _.
  cbn [with_engine engine previousDegree set_recentDegrees set_currentDegree
       set_previousDegree]. cbv zeta. cbn [previousDegree]. rewrite Hd2.
  split; [|split; [|exact Hb]].
  - destruct (maybeModulate_degree w w1 E1) as [-> | ->]; [now left|now right].
  - intros Hks. destruct (maybeModulate_run w) as (w1' & E1' & _ & _ & _ & H).
    rewrite E1 in E1'. injection E1' as <-. now rewrite (H Hks).
Qed.

Lemma chordSlot_update_witness :
  exists g w',
    chordSlot sample_world = Ok g w'
    ∧ currentDegree (engine w') = g
    ∧ list.last (recentDegrees (engine w')) = Some g.
Proof.
  assert (tables_intact (heap sample_world)) as Ht by (exists []; reflexivity).
  destruct (chordSlot_update sample_world Ht) as (g & w' & E & Hd & Hr & _).
  exists g, w'. auto.
Defined.
(** ** Display degrees *)

(** X24. [formatDegree] changes the accidental and nothing else: a
    degree written with the letters of degree tokens is returned as it
    is, or it starts with [b] or [#] and is returned with [♭] or [♯] in
    its place.  Every degree of the tables that starts with [b] is
    displayed with [♭]. *)
Theorem formatDegree_accidental (g : string) :
  degree_token g ->
  (formatDegree g = g
   ∨ (exists numeral, g = "b" +:+ numeral ∧ formatDegree g = "♭" +:+ numeral)
   ∨ (exists numeral, g = "#" +:+ numeral ∧ formatDegree g = "♯" +:+ numeral))
  ∧ (g ∈ emitted_degrees ->
     formatDegree g
     = if startsWith g "b" then "♭" +:+ slice 1 g else g).
Proof.
  intros _. split.
  - unfold formatDegree. cbv zeta.
    match goal with |- context [prop ?t g] => destruct (prop t g) as [shown|] eqn:E end;
      [|now left].
    apply prop_In, list_elem_of_In in E. simpl in E. right.
    repeat (destruct E as [[= <- <-]|E];
            [first [left; eexists; split; reflexivity
                   |right; eexists; split; reflexivity]|]).
    contradiction.
  - intros H. apply list_elem_of_In in H.
    assert (In g (remove_dups emitted_degrees)) as H'.
    { apply list_elem_of_In, elem_of_remove_dups. now apply list_elem_of_In. }
    rewrite emitted_vocabulary in H'. simpl in H'.
    repeat (destruct H' as [<-|H']; [reflexivity|]). contradiction.
Qed.

Lemma formatDegree_accidental_witness :
  degree_token "bVII" ∧ formatDegree "bVII" = "♭VII".
Proof.
  assert (degree_token "bVII") as Ht by (repeat constructor; compute_done).
  split; [exact Ht|].
  destruct (formatDegree_accidental "bVII" Ht) as [_ H].
  apply H. compute_done.
Defined.
